(** * Relay hint selection and feed assembly (coracle, [engine/network/utils/feed.ts])

    A shallow embedding of the two halves of the file:

    - the feed half: the [FeedLoader] class with [discardEvents],
      [buildFeedChunk], [addToFeed], [load], [loadBuffer], [deferOrphans],
      [deferAncient], [addSubs] and [stop];
    - the relay half: [isShareableRelay], [relayIsLowQuality], [selectHints]
      and [mergeHints], then [getSearchableRelays], [getPubkeyRelays],
      [getPubkeyRelayUrls], [HintSelector], [getPubkeyHints],
      [getEventHints], [getEventHint] and [getInboxHints].

    A loader is a record of its fields.  What reaches it from outside (the
    answers of the cursor, the batches of the live subscription and of the
    parent requests, the closing of a subscription, a timer that fires) is
    an [Action] next to the three public calls, and a run of the loader is
    a list of actions.  The [replies] arrays, the only thing the loader
    writes in an event object, live in a store that all references to the
    object share.

    JavaScript numbers that hold counts, kinds and timestamps are integers
    here ([nat] or [Z]).  The scores of [mergeHints] are doubles in the
    source; they are idealised as real numbers, [Math.log], [Math.exp] and
    [Math.log1p] being [ln], [exp] and [fun x => ln (1 + x)].  The
    [scores] object of [mergeHints] is a plain object: it gets no own
    property under a name that it inherits from [Object.prototype], and
    [Object.entries] lists its array indices in front of its other keys.

    Strings are byte strings: a character is one code unit below 256. *)

From Stdlib Require Import ZArith QArith List String Ascii Bool Lia Reals Lra Psatz Sorted Permutation.
From stdpp Require Import base option list sorting gmap strings.

Close Scope Q_scope.
Open Scope Z_scope.

(* ================================================================== *)
(** * Helpers from ramda and from JavaScript                           *)
(* ================================================================== *)

(** Truthiness of a string value that may be missing: [undefined], [null]
    and the empty string are falsy. *)
Definition truthy (v : option string) : bool :=
  match v with
  | Some s => negb (String.eqb s "")
  | None => false
  end.

(** [Array.prototype.includes] on numbers. *)
Definition includes (k : Z) (ks : list Z) : bool := existsb (Z.eqb k) ks.

Section Ramda.
Context {A K : Type} `{EqDecision K}.

(** [uniqBy f l]: scan left to right with a set of the keys met so far and
    keep an item when its key is new. *)
Fixpoint uniqByFrom (f : A → K) (met : list K) (l : list A) : list A :=
  match l with
  | [] => []
  | x :: rest =>
      if bool_decide (f x ∈ met) then uniqByFrom f met rest
      else x :: uniqByFrom f (f x :: met) rest
  end.

Definition uniqBy (f : A → K) (l : list A) : list A := uniqByFrom f [] l.

(** [find(propEq(key, k), l)] used as a truth value. *)
Definition hasKey (f : A → K) (k : K) (l : list A) : bool :=
  existsb (λ x, bool_decide (f x = k)) l.

(** [without([x], l)] on keys. *)
Definition without1 (x : K) (l : list K) : list K :=
  List.filter (λ y, negb (bool_decide (y = x))) l.
End Ramda.

Section SortBy.
Context {A K : Type} (lt : K → K → bool) (f : A → K).

(** [sortBy f l] is a stable sort with the comparator
    [a < b ? -1 : a > b ? 1 : 0] on the keys.  An item is put in front of
    the first item of the sorted tail whose key is not smaller. *)
Fixpoint insertBy (x : A) (l : list A) : list A :=
  match l with
  | [] => [x]
  | y :: rest => if lt (f y) (f x) then y :: insertBy x rest else x :: y :: rest
  end.

Definition sortBy (l : list A) : list A := foldr insertBy [] l.
End SortBy.

(* ================================================================== *)
(** * Feed half: data                                                  *)
(* ================================================================== *)

(** An event as it arrives from a relay.  Its fields never change. *)
Record Event := mkEvent {
  id : string;
  pubkey : string;
  kind : Z;
  created_at : Z;
  tags : list (list string);
}.

(** A [DisplayEvent] object.  The only field the loader ever writes is
    [replies]; an object is therefore its event together with the address
    of its [replies] slot in the store.  Two references denote the same
    object exactly when they carry the same slot. *)
Record DisplayEvent := mkDisplay {
  event : Event;
  slot : nat;
}.

(** The [replies] slots of all objects.  A missing entry is an object
    without a [replies] property. *)
Abbreviation Store := (gmap nat (list DisplayEvent)).

Definition eid (e : DisplayEvent) : string := id (event e).

(** [o.replies || []] for the object at a slot. *)
Definition repliesAt (h : Store) (s : nat) : list DisplayEvent :=
  default [] (h !! s).

Record Filter := mkFilter {
  since : option Z;
  until : option Z;
}.

Record FeedOpts := mkOpts {
  relays : list string;
  filters : list Filter;
  shouldDefer : bool;
  shouldListen : bool;
  shouldHideReplies : bool;
  shouldLoadParents : bool;
}.

(** What the class imports and this file does not define:
    [isEventMuted] (engine/events/derived), [findReplyId], [noteKinds] and
    [reactionKinds] (util/nostr) and [guessFilterDelta] (./filters). *)
Class FeedEnv := {
  isEventMuted : Event → bool;
  findReplyId : Event → option string;
  noteKinds : list Z;
  reactionKinds : list Z;
  guessFilterDelta : list Filter → Z;
}.

(** The loader object, with the three pieces of the runtime its methods
    act on: the store of [replies] slots, the callbacks handed to
    [setTimeout] that have not run yet (delay in ms, events to add), and
    the handles whose [close] has been called, one entry per call. *)
Record FeedLoader := mkLoader {
  opts : FeedOpts;
  stopped : bool;
  subs : list nat;
  buffer : list DisplayEvent;
  notes : list DisplayEvent;
  parents : gmap string DisplayEvent;
  deferred : list DisplayEvent;
  listening : bool;
  store : Store;
  next_slot : nat;
  timers : list (nat * list DisplayEvent);
  closing : list nat;
}.

Definition set_stopped (b : bool) (st : FeedLoader) : FeedLoader :=
  mkLoader (opts st) b (subs st) (buffer st) (notes st) (parents st)
    (deferred st) (listening st) (store st) (next_slot st) (timers st) (closing st).
Definition set_subs (x : list nat) (st : FeedLoader) : FeedLoader :=
  mkLoader (opts st) (stopped st) x (buffer st) (notes st) (parents st)
    (deferred st) (listening st) (store st) (next_slot st) (timers st) (closing st).
Definition set_buffer (x : list DisplayEvent) (st : FeedLoader) : FeedLoader :=
  mkLoader (opts st) (stopped st) (subs st) x (notes st) (parents st)
    (deferred st) (listening st) (store st) (next_slot st) (timers st) (closing st).
Definition set_notes (x : list DisplayEvent) (st : FeedLoader) : FeedLoader :=
  mkLoader (opts st) (stopped st) (subs st) (buffer st) x (parents st)
    (deferred st) (listening st) (store st) (next_slot st) (timers st) (closing st).
Definition set_parents (x : gmap string DisplayEvent) (st : FeedLoader) : FeedLoader :=
  mkLoader (opts st) (stopped st) (subs st) (buffer st) (notes st) x
    (deferred st) (listening st) (store st) (next_slot st) (timers st) (closing st).
Definition set_deferred (x : list DisplayEvent) (st : FeedLoader) : FeedLoader :=
  mkLoader (opts st) (stopped st) (subs st) (buffer st) (notes st) (parents st)
    x (listening st) (store st) (next_slot st) (timers st) (closing st).
Definition set_store (x : Store) (st : FeedLoader) : FeedLoader :=
  mkLoader (opts st) (stopped st) (subs st) (buffer st) (notes st) (parents st)
    (deferred st) (listening st) x (next_slot st) (timers st) (closing st).
Definition set_next_slot (x : nat) (st : FeedLoader) : FeedLoader :=
  mkLoader (opts st) (stopped st) (subs st) (buffer st) (notes st) (parents st)
    (deferred st) (listening st) (store st) x (timers st) (closing st).
Definition set_timers (x : list (nat * list DisplayEvent)) (st : FeedLoader) : FeedLoader :=
  mkLoader (opts st) (stopped st) (subs st) (buffer st) (notes st) (parents st)
    (deferred st) (listening st) (store st) (next_slot st) x (closing st).
Definition set_closing (x : list nat) (st : FeedLoader) : FeedLoader :=
  mkLoader (opts st) (stopped st) (subs st) (buffer st) (notes st) (parents st)
    (deferred st) (listening st) (store st) (next_slot st) (timers st) x.

(** What happens to a loader: the three public calls, and the callbacks
    the transport and the timers run on it. *)
Inductive Action :=
  | CallLoad (n : nat) (now : Z) (new_subs : list nat) (events : list Event)
  | CallLoadBuffer
  | CallStop
  | LiveBatch (events : list Event)
  | ParentBatch (events : list Event)
  | SubClosed (sub : nat)
  | TimerFires (i : nat).

(* ================================================================== *)
(** * Feed half: the methods of [FeedLoader]                           *)
(* ================================================================== *)

Section Feed.
Context `{env : FeedEnv}.

(** Events delivered by the transport are new objects. *)
Definition receive (events : list Event) (st : FeedLoader)
  : list DisplayEvent * FeedLoader :=
  (imap (λ i e, mkDisplay e (next_slot st + i)%nat) events,
   set_next_slot (next_slot st + length events)%nat st).

Definition discardEvents (o : FeedOpts) (events : list DisplayEvent)
  : list DisplayEvent :=
  List.filter
    (λ e, if isEventMuted (event e) then false
          else if shouldHideReplies o && truthy (findReplyId (event e)) then false
          else true)
    events.

(** [loadParents(notes)] sends one request for these ids and changes
    nothing in the loader; the answers come back as [ParentBatch]. *)
Definition parentIdsToLoad (new_notes : list DisplayEvent) : list string :=
  omap (λ e, if truthy (findReplyId (event e)) then findReplyId (event e) else None)
    (List.filter (λ e, negb (isEventMuted (event e))) new_notes).

(** [addSubs]: the handles are pushed; the [close] listener of each is
    the [SubClosed] action. *)
Definition addSubs (new_subs : list nat) (st : FeedLoader) : FeedLoader :=
  set_subs (subs st ++ new_subs) st.

(** [stop]: sets the flag and calls [close] on every handle of [subs],
    in their order.  The loop walks the array that [subs] is when it
    starts, so that every one of these handles is called, whether its
    [close] notification, the [SubClosed] action that takes it out of
    [subs], arrives during the loop or later. *)
Definition stop (st : FeedLoader) : FeedLoader :=
  set_closing (closing st ++ subs st) (set_stopped true st).

(** [pushToKey(parent, "replies", e)] (util/misc): append to the array
    under the key, creating it when missing. *)
Definition pushToKey (h : Store) (parent e : DisplayEvent) : Store :=
  <[slot parent := repliesAt h (slot parent) ++ [e]]> h.

(** The [while (true)] loop of [buildFeedChunk] for one event.  The loop
    has no bound of its own: [None] is a loop that has not ended within
    [fuel] turns. *)
Fixpoint climb (fuel : nat) (ps : gmap string DisplayEvent) (h : Store)
    (e : DisplayEvent) : option (Store * DisplayEvent) :=
  match fuel with
  | O => None
  | S fuel' =>
      let parentId := findReplyId (event e) in
      if negb (truthy parentId) then Some (h, e)
      else
        match ps !! default ""%string parentId with
        | None => Some (h, e)
        | Some parent =>
            let h' :=
              if includes (kind (event e)) noteKinds
                 && negb (hasKey eid (eid e) (repliesAt h (slot parent)))
              then pushToKey h parent e
              else h in
            climb fuel' ps h' parent
        end
  end.

(** [notes.map(e => { while ... })], left to right on one store. *)
Fixpoint climbAll (fuel : nat) (ps : gmap string DisplayEvent) (h : Store)
    (l : list DisplayEvent) : option (Store * list DisplayEvent) :=
  match l with
  | [] => Some (h, [])
  | e :: rest =>
      match climb fuel ps h e with
      | None => None
      | Some (h1, top) =>
          match climbAll fuel ps h1 rest with
          | None => None
          | Some (h2, tops) => Some (h2, top :: tops)
          end
      end
  end.

(** The last [.map]: an object that has a [replies] array gets it
    replaced by its [uniqBy] on ids. *)
Definition uniqReplies (h : Store) (e : DisplayEvent) : Store :=
  match h !! slot e with
  | Some rs => <[slot e := uniqBy eid rs]> h
  | None => h
  end.

Definition keepInChunk (seen : list string) (e : DisplayEvent) : bool :=
  if bool_decide (eid e ∈ seen) then false
  else if includes (kind (event e)) reactionKinds then false
  else true.

Definition buildFeedChunk (fuel : nat) (st : FeedLoader)
    (new_notes : list DisplayEvent) : option (Store * list DisplayEvent) :=
  let seen := eid <$> notes st in
  match climbAll fuel (parents st) (store st) new_notes with
  | None => None
  | Some (h1, tops) =>
      let kept := List.filter (keepInChunk seen) (tops ++ []) in
      let h2 := foldl uniqReplies h1 kept in
      Some (h2, sortBy Z.ltb (λ e, - created_at (event e)) (uniqBy eid kept))
  end.

Definition addToFeed (fuel : nat) (new_notes : list DisplayEvent)
    (st : FeedLoader) : option FeedLoader :=
  match buildFeedChunk fuel st new_notes with
  | None => None
  | Some (h, chunk) =>
      Some (set_notes (uniqBy eid (notes st ++ chunk)) (set_store h st))
  end.

Definition isOrphan (ps : gmap string DisplayEvent) (e : DisplayEvent) : bool :=
  let parentId := findReplyId (event e) in
  truthy parentId && negb (bool_decide (is_Some (ps !! default ""%string parentId))).

Definition deferOrphans (new_notes : list DisplayEvent) (st : FeedLoader)
  : list DisplayEvent * FeedLoader :=
  if negb (shouldLoadParents (opts st)) then (new_notes, st)
  else
    let '(defer, ok) := List.partition (isOrphan (parents st)) new_notes in
    (ok, set_timers (timers st ++ [(1500%nat, defer)]) st).

Definition deferAncient (now : Z) (new_notes : list DisplayEvent)
    (st : FeedLoader) : list DisplayEvent * FeedLoader :=
  let cutoff := now - guessFilterDelta (filters (opts st)) in
  let '(defer, ok) :=
    List.partition (λ e, created_at (event e) <? cutoff) new_notes in
  (ok, set_timers (timers st ++ [(4000%nat, defer)]) st).

(** [load(n)] from the point where [await this.ready] resumes.
    [cursor.take(n)] answers with handles and at most [n] events. *)
Definition load (fuel : nat) (n : nat) (now : Z) (new_subs : list nat)
    (events : list Event) (st : FeedLoader) : option FeedLoader :=
  if (n <? length events)%nat then None
  else
    let '(taken, st1) := receive events st in
    let new_notes := discardEvents (opts st) taken in
    let st2 := addSubs new_subs st1 in
    if shouldDefer (opts st) then
      let held := deferred st2 in
      let st3 := set_deferred [] st2 in
      let '(ok1, st4) := deferOrphans (new_notes ++ held) st3 in
      let '(ok2, st5) := deferAncient now ok1 st4 in
      addToFeed fuel ok2 st5
    else addToFeed fuel new_notes st2.

Definition loadBuffer (fuel : nat) (st : FeedLoader) : option FeedLoader :=
  match addToFeed fuel (buffer st) st with
  | None => None
  | Some st1 => Some (set_buffer [] st1)
  end.

(** The [onEvent] callback of the live subscription. *)
Definition onLiveBatch (events : list Event) (st : FeedLoader)
  : option FeedLoader :=
  if listening st then
    let '(got, st1) := receive events st in
    Some (set_buffer (buffer st1 ++ discardEvents (opts st) got) st1)
  else None.

(** The [onEvent] callback of the request sent by [loadParents]. *)
Definition onParentBatch (events : list Event) (st : FeedLoader)
  : option FeedLoader :=
  if shouldLoadParents (opts st) then
    let '(got, st1) := receive events st in
    Some (set_parents
            (foldl (λ ps e, <[eid e := e]> ps) (parents st1)
               (discardEvents (opts st) got))
            st1)
  else None.

(** The callback a deferral pass handed to [setTimeout]. *)
Definition onTimer (fuel : nat) (i : nat) (st : FeedLoader)
  : option FeedLoader :=
  match timers st !! i with
  | None => None
  | Some (_, defer) => addToFeed fuel defer (set_timers (delete i (timers st)) st)
  end.

(** One action.  [None] is an action that cannot happen in this state (a
    batch of a subscription or of a request that was never opened, a
    timer that is not pending, a cursor that answers with more events
    than were asked for) or a loop that does not end within [fuel]
    turns. *)
Definition exec (fuel : nat) (a : Action) (st : FeedLoader)
  : option FeedLoader :=
  match a with
  | CallLoad n now new_subs events => load fuel n now new_subs events st
  | CallLoadBuffer => loadBuffer fuel st
  | CallStop => Some (stop st)
  | LiveBatch events => onLiveBatch events st
  | ParentBatch events => onParentBatch events st
  | SubClosed s => Some (set_subs (without1 s (subs st)) st)
  | TimerFires i => onTimer fuel i st
  end.

Fixpoint run (fuel : nat) (acts : list Action) (st : FeedLoader)
  : option FeedLoader :=
  match acts with
  | [] => Some st
  | a :: rest =>
      match exec fuel a st with
      | None => None
      | Some st1 => run fuel rest st1
      end
  end.

(** The constructor: the live subscription is opened when asked for and no
    filter has an [until]; the cursor's first page opens its handles. *)
Definition construct (o : FeedOpts) (live_sub : nat) (cursor_subs : list nat)
  : FeedLoader :=
  let hasUntil (f : Filter) :=
    match until f with
    | Some t => negb (t =? 0)
    | None => false
    end in
  let live := shouldListen o && negb (existsb hasUntil (filters o)) in
  mkLoader o false ((if live then [live_sub] else []) ++ cursor_subs)
    [] [] ∅ [] live ∅ 0%nat [] [].
End Feed.

(* ================================================================== *)
(** * Relay half: shareable relays                                     *)
(* ================================================================== *)

Open Scope char_scope.

Definition isLineTerminator (c : ascii) : bool :=
  Ascii.eqb c "010" || Ascii.eqb c "013".

(** The class [\s] below code unit 256: tab, line feed, vertical tab, form
    feed, carriage return, space and no-break space. *)
Definition isSpace (c : ascii) : bool :=
  let n := nat_of_ascii c in
  ((9 <=? n) && (n <=? 13) || (n =? 32) || (n =? 160))%nat.

Definition isDigit (c : ascii) : bool :=
  let n := nat_of_ascii c in ((48 <=? n) && (n <=? 57))%nat.

(** [.+] at the head of the text: one character that is not a line
    terminator. *)
Definition headIsAny (s : list ascii) : bool :=
  match s with
  | c :: _ => negb (isLineTerminator c)
  | [] => false
  end.

(** The rest of [.+\..+] once the first [.] has taken one character: some
    dot, reached without crossing a line terminator, is followed by one
    more character that is not a line terminator. *)
Fixpoint dotThenAny (s : list ascii) : bool :=
  match s with
  | [] => false
  | c :: rest =>
      if isLineTerminator c then false
      else if Ascii.eqb c "." && headIsAny rest then true
      else dotThenAny rest
  end.

Fixpoint stripPrefix (p s : list ascii) : option (list ascii) :=
  match p, s with
  | [], _ => Some s
  | a :: p', b :: s' => if Ascii.eqb a b then stripPrefix p' s' else None
  | _ :: _, [] => None
  end.

Definition chars (s : string) : list ascii := list_ascii_of_string s.

(** [/^wss?:\/\/.+\..+/] *)
Definition looksLikeWebsocket (s : list ascii) : bool :=
  let tail :=
    match stripPrefix (chars "wss://") s with
    | Some t => Some t
    | None => stripPrefix (chars "ws://") s
    end in
  match tail with
  | Some (c :: rest) => negb (isLineTerminator c) && dotThenAny rest
  | _ => false
  end.

(** [url.match(/:\/\//g).length]: the matches of a global pattern do not
    overlap. *)
Fixpoint countSchemeSeparators (s : list ascii) : nat :=
  match s with
  | [] => 0
  | c :: rest =>
      match stripPrefix (chars "//") rest with
      | Some _ =>
          if Ascii.eqb c ":" then
            match rest with
            | _ :: _ :: after => S (countSchemeSeparators after)
            | _ => 0%nat
            end
          else countSchemeSeparators rest
      | None => countSchemeSeparators rest
      end
  end.

(** A pattern without anchor matches when it matches at the head of some
    suffix. *)
Fixpoint somewhere (atHead : list ascii → bool) (s : list ascii) : bool :=
  atHead s ||
  match s with
  | [] => false
  | _ :: rest => somewhere atHead rest
  end.

Definition hasPrefix (p : string) (s : list ascii) : bool :=
  bool_decide (is_Some (stripPrefix (chars p) s)).

(** [/:\d+/] at the head. *)
Definition portAtHead (s : list ascii) : bool :=
  match s with
  | c :: d :: _ => Ascii.eqb c ":" && isDigit d
  | _ => false
  end.

(** [\d+] at the head, as long as it can be: what follows it in the
    patterns below is never a digit. *)
Fixpoint skipDigits (s : list ascii) : list ascii :=
  match s with
  | c :: rest => if isDigit c then skipDigits rest else s
  | [] => []
  end.

Definition digitsThenDot (s : list ascii) : option (list ascii) :=
  match s with
  | c :: rest =>
      if isDigit c then
        match skipDigits rest with
        | d :: after => if Ascii.eqb d "." then Some after else None
        | [] => None
        end
      else None
  | [] => None
  end.

(** [/\d+\.\d+\.\d+\.\d+/] at the head. *)
Definition ipv4AtHead (s : list ascii) : bool :=
  match digitsThenDot s with
  | Some s1 =>
      match digitsThenDot s1 with
      | Some s2 =>
          match digitsThenDot s2 with
          | Some (c :: _) => isDigit c
          | _ => false
          end
      | None => false
      end
  | None => false
  end.

Definition isShareableRelay (url : string) : bool :=
  let s := chars url in
  let host := drop 6 s in
  looksLikeWebsocket s
  && (countSchemeSeparators s =? 1)%nat
  && negb (existsb isSpace s)
  && negb (existsb (Ascii.eqb "%") s)
  && match stripPrefix (chars "wss://") s with
     | Some t => headIsAny t
     | None => false
     end
  && negb (somewhere portAtHead host)
  && negb (somewhere ipv4AtHead host)
  && negb (somewhere (hasPrefix "/npub") host).

Close Scope char_scope.

(* ================================================================== *)
(** * Relay half: selection and merging                                *)
(* ================================================================== *)

(** What the relay half reads from the rest of the client: the quality
    the pool has recorded for a relay (missing for an unknown relay), the
    [relay_limit] setting, the read relays of the user, and the
    [DEFAULT_RELAYS] of the environment. *)
Class RelayEnv := {
  quality : string → option Q;
  relay_limit : nat;
  userReadRelayUrls : list string;
  DEFAULT_RELAYS : list string;
}.

(** [limit || fallback], and [if (!limit) limit = fallback]: [null] and
    [0] are falsy. *)
Definition orElse (limit : option nat) (fallback : nat) : nat :=
  match limit with
  | Some (S k) => S k
  | _ => fallback
  end.

Section Relays.
Context `{renv : RelayEnv}.

(** A comparison with a missing quality is false. *)
Definition relayIsLowQuality (url : string) : bool :=
  match quality url with
  | Some q => negb (Qle_bool (6 # 10) q)
  | None => false
  end.

(** The [for] loop of [selectHints], with its [continue]s and its
    [break]. *)
Fixpoint scanHints (limit : nat) (urls seen ok bad : list string)
  : list string * list string :=
  match urls with
  | [] => (ok, bad)
  | url :: rest =>
      if bool_decide (url ∈ seen) then scanHints limit rest seen ok bad
      else if negb (isShareableRelay url)
      then scanHints limit rest (url :: seen) ok bad
      else
        let '(ok1, bad1) :=
          if relayIsLowQuality url then (ok, bad ++ [url])
          else (ok ++ [url], bad) in
        if (limit <? length ok1)%nat then (ok1, bad1)
        else scanHints limit rest (url :: seen) ok1 bad1
  end.

Definition selectHints (hints : list string) (limit : option nat)
  : list string :=
  let limit1 := orElse limit relay_limit in
  let '(ok, bad) :=
    scanHints limit1 (hints ++ userReadRelayUrls ++ DEFAULT_RELAYS) [] [] [] in
  take limit1 (ok ++ bad).
End Relays.

(** One entry of the [scores] object of [mergeHints]. *)
Record Tally := mkTally {
  score : R;
  count : nat;
}.

(** [a < b] on weights. *)
Definition Rltb (a b : R) : bool := if Rlt_dec a b then true else false.

(** The names every object inherits from [Object.prototype].  What is
    read under them is a function, or [Object.prototype] itself under
    [__proto__]: a truthy value in every case. *)
Definition inheritedName (k : string) : bool :=
  bool_decide
    (k ∈ ["constructor"; "__defineGetter__"; "__defineSetter__";
          "hasOwnProperty"; "__lookupGetter__"; "__lookupSetter__";
          "isPrototypeOf"; "propertyIsEnumerable"; "toString"; "valueOf";
          "__proto__"; "toLocaleString"]%string).

(** An array index: the canonical decimal form, without a sign and
    without a leading zero, of an integer below [2^32 - 1]. *)
Fixpoint decimalFrom (acc : N) (s : list ascii) : option N :=
  match s with
  | [] => Some acc
  | c :: rest =>
      if isDigit c
      then decimalFrom (10 * acc + (N_of_ascii c - 48))%N rest
      else None
  end.

Definition arrayIndex (k : string) : option N :=
  match chars k with
  | [] => None
  | c :: rest =>
      if Ascii.eqb c "0" && negb (bool_decide (rest = [])) then None
      else
        match decimalFrom 0 (c :: rest) with
        | Some n => if (n <? 4294967295)%N then Some n else None
        | None => None
        end
  end.

Definition isArrayIndex (k : string) : bool :=
  match arrayIndex k with
  | Some _ => true
  | None => false
  end.

(** A key that an object lists where it was inserted. *)
Definition ordinaryKey (k : string) : bool :=
  negb (inheritedName k) && negb (isArrayIndex k).

(** The own properties of the [scores] object, in insertion order, and
    the body of [hints.forEach] on them for a hint that reads no
    inherited value: the entry is made when it is missing, and the two
    additions go to it. *)
Fixpoint addToEntry (hint : string) (s : R) (scores : list (string * Tally))
  : list (string * Tally) :=
  match scores with
  | [] => [(hint, mkTally (0 + s) (0 + 1))]
  | (h, t) :: rest =>
      if bool_decide (h = hint) then (h, mkTally (score t + s) (count t + 1)) :: rest
      else (h, t) :: addToEntry hint s rest
  end.

(** The body of [hints.forEach].  Under an inherited name [scores[hint]]
    is the inherited value, which is truthy: no entry is made, and the two
    additions go to that value and leave [scores] without an own property
    of that name. *)
Definition bump (hint : string) (s : R) (scores : list (string * Tally))
  : list (string * Tally) :=
  if inheritedName hint then scores else addToEntry hint s scores.

(** [Object.entries] of an object with these own properties: the array
    indices in ascending order, then the other keys in insertion order. *)
Definition objectEntries {V : Type} (own : list (string * V))
  : list (string * V) :=
  sortBy N.ltb (λ p, default 0%N (arrayIndex p.1))
    (List.filter (λ p, isArrayIndex p.1) own)
  ++ List.filter (λ p, negb (isArrayIndex p.1)) own.

(** [hints.forEach((hint, i) => ...)] from index [i] on, for a list of
    length [len]. *)
Fixpoint tallyFrom (len : nat) (i : nat) (hints : list string)
    (scores : list (string * Tally)) : list (string * Tally) :=
  match hints with
  | [] => scores
  | hint :: rest =>
      tallyFrom len (S i) rest
        (bump hint (1 / IZR (Z.of_nat i + 1) / IZR (Z.of_nat len))%R scores)
  end.

Definition tally (groups : list (list string)) : list (string * Tally) :=
  foldl (λ scores hints, tallyFrom (length hints) 0 hints scores) [] groups.

(** The second loop: the final weight takes the place of the score. *)
Definition finalWeight (ngroups : nat) (t : Tally) : R :=
  (ln (IZR (Z.of_nat ngroups) / IZR (Z.of_nat (count t)))
   + ln (1 + exp (score t - IZR (Z.of_nat (count t)))))%R.

Definition weigh (groups : list (list string)) : list (string * R) :=
  (λ '(h, t), (h, finalWeight (length groups) t)) <$> tally groups.

(** The entries sorted by final weight, before the [.map(nth(0))] and
    the [.slice]. *)
Definition rankHints (groups : list (list string)) : list (string * R) :=
  sortBy Rltb snd (objectEntries (weigh groups)).

Definition mergeHints `{renv : RelayEnv} (groups : list (list string))
    (limit : option nat) : list string :=
  take (orElse limit relay_limit) (fst <$> rankHints groups).

(** The weight [mergeHints] gives to a URL, if it gives one. *)
Definition weightOf (groups : list (list string)) (url : string) : option R :=
  snd <$> List.find (λ p, bool_decide (fst p = url)) (weigh groups).

(* ================================================================== *)
(** * Properties of a feed                                             *)
(* ================================================================== *)

Definition newerFirst (a b : DisplayEvent) : Prop :=
  created_at (event b) <= created_at (event a).

Definition strictlyNewerFirst (a b : DisplayEvent) : Prop :=
  created_at (event b) < created_at (event a).

(** Every entry is at least as recent as all entries after it. *)
Definition sortedDescending (l : list DisplayEvent) : Prop :=
  StronglySorted newerFirst l.

Definition strictlyDescending (l : list DisplayEvent) : Prop :=
  StronglySorted strictlyNewerFirst l.

Definition uniqueIds (l : list DisplayEvent) : Prop := NoDup (eid <$> l).

Definition isReaction `{env : FeedEnv} (e : DisplayEvent) : bool :=
  includes (kind (event e)) reactionKinds.

Definition isNote `{env : FeedEnv} (e : DisplayEvent) : bool :=
  includes (kind (event e)) noteKinds.

Definition repliesUnique (h : Store) : Prop :=
  ∀ s, uniqueIds (repliesAt h s).

(** Whatever is in a [replies] array after and was not before is a note. *)
Definition onlyNotesAdded `{env : FeedEnv} (h h' : Store) : Prop :=
  ∀ s r, r ∈ repliesAt h' s → r ∈ repliesAt h s ∨ isNote r = true.

(** What holds of a loader after every action. *)
Definition feedInvariant `{env : FeedEnv} (st : FeedLoader) : Prop :=
  uniqueIds (notes st)
  ∧ Forall (λ e, isReaction e = false) (notes st)
  ∧ repliesUnique (store st).

(** The loader is the same but for fields the chunk does not read. *)
Definition sameFeed (st1 st2 : FeedLoader) : Prop :=
  notes st1 = notes st2 ∧ parents st1 = parents st2 ∧ store st1 = store st2.

(** The timer callback as the specification words it: the events whose
    delay has elapsed are merged with the previously deferred ones and go
    through the orphan pass and the ancient pass again; what the passes
    let through is added to the feed. *)
Definition onTimerReentering `{env : FeedEnv} (fuel : nat) (now : Z) (i : nat)
    (st : FeedLoader) : option FeedLoader :=
  match timers st !! i with
  | None => None
  | Some (_, defer) =>
      let st1 := set_timers (delete i (timers st)) st in
      let held := deferred st1 in
      let st2 := set_deferred [] st1 in
      let '(ok1, st3) := deferOrphans (defer ++ held) st2 in
      let '(ok2, st4) := deferAncient now ok1 st3 in
      addToFeed fuel ok2 st4
  end.

(* ================================================================== *)
(** * Properties of the scores                                         *)
(* ================================================================== *)

(** The additions of [hints.forEach] as a list: each hint with what its
    position adds to its score. *)
Fixpoint contribsFrom (len : nat) (i : nat) (hints : list string)
  : list (string * R) :=
  match hints with
  | [] => []
  | hint :: rest =>
      (hint, (1 / IZR (Z.of_nat i + 1) / IZR (Z.of_nat len))%R)
      :: contribsFrom len (S i) rest
  end.

Definition contributions (groups : list (list string)) : list (string * R) :=
  concat ((λ hints, contribsFrom (length hints) 0 hints) <$> groups).

(** The own property of the [scores] object under a hint, if there is
    one. *)
Definition entryOf (scores : list (string * Tally)) (hint : string)
  : option Tally :=
  snd <$> List.find (λ p, bool_decide (fst p = hint)) scores.

(** How many times a URL is written in the lists. *)
Definition occurrences (groups : list (list string)) (url : string) : nat :=
  length (List.filter (λ h, bool_decide (h = url)) (concat groups)).

Definition topOfEvery (groups : list (list string)) (url : string) : Prop :=
  Forall (λ hints, head hints = Some url) groups.

(** [u] gets a weight, [v] gets a weight, and the weight of [u] is the
    smaller one. *)
Definition ranksBetter (groups : list (list string)) (u v : string) : Prop :=
  ∃ wu wv, weightOf groups u = Some wu ∧ weightOf groups v = Some wv
           ∧ (wu < wv)%R.

(** One addition of the first loop of [mergeHints], on the entry of a
    hint that is no inherited name, and on the whole object. *)
Definition bumpEntry (o : option Tally) (s : R) : option Tally :=
  Some match o with
       | Some t => mkTally (score t + s) (count t + 1)
       | None => mkTally (0 + s) (0 + 1)
       end.

Definition bumpWith (scores : list (string * Tally)) (p : string * R)
  : list (string * Tally) :=
  bump p.1 p.2 scores.

(** What the positions of a URL add to its score, in the order of the
    additions. *)
Definition hitsOf (ps : list (string * R)) (url : string) : list R :=
  snd <$> List.filter (λ p, bool_decide (p.1 = url)) ps.

Fixpoint sumR (l : list R) : R :=
  match l with
  | [] => 0%R
  | s :: rest => (s + sumR rest)%R
  end.

(* ================================================================== *)
(** * Example data                                                     *)
(* ================================================================== *)

(** The reply id of the examples: the value of the first [e] tag. *)
Definition firstETag (e : Event) : option string :=
  match List.filter (λ t, bool_decide (head t = Some "e"%string)) (tags e) with
  | (_ :: parentId :: _) :: _ => Some parentId
  | _ => None
  end.

(** Nobody is muted, kind 1 and 30023 are notes, kind 7 and 9735 are
    reactions, the filters span one hour. *)
Definition exampleEnv : FeedEnv :=
  {| isEventMuted := λ _, false;
     findReplyId := firstETag;
     noteKinds := [1; 30023];
     reactionKinds := [7; 9735];
     guessFilterDelta := λ _, 3600 |}.

(** No quality recorded, a limit of three, no relays of the user. *)
Definition exampleRelayEnv (defaults : list string) : RelayEnv :=
  {| quality := λ _, None;
     relay_limit := 3;
     userReadRelayUrls := [];
     DEFAULT_RELAYS := defaults |}.

Definition exampleOpts (defer parents : bool) : FeedOpts :=
  mkOpts ["wss://relay.example.com/"%string] [mkFilter None None]
    defer true false parents.

Definition note (i : string) (t : Z) : Event := mkEvent i "alice" 1 t [].

Definition reply (i : string) (t : Z) (to : string) : Event :=
  mkEvent i "bob" 1 t [["e"; to]]%string.

Definition reaction (i : string) (t : Z) (to : string) : Event :=
  mkEvent i "carol" 7 t [["e"; to]]%string.

(** A loader that listens, with neither deferral nor parents. *)
Definition plainLoader : FeedLoader :=
  construct (exampleOpts false false) 0%nat [1%nat].

(** A loader that defers and loads parents. *)
Definition deferringLoader : FeedLoader :=
  construct (exampleOpts true true) 0%nat [1%nat].

(** Two live events, each moved to the feed as soon as it has arrived. *)
Definition twoBuffers : list Action :=
  [LiveBatch [note "a" 100]; CallLoadBuffer;
   LiveBatch [note "b" 200]; CallLoadBuffer].

(** Two live events of the same second, moved to the feed together. *)
Definition tiedBuffer : list Action :=
  [LiveBatch [note "a" 100; note "b" 100]; CallLoadBuffer].

(** A parent arrives; then a page with a reply to it, a note, a reply to
    an unknown event and a reaction to the parent. *)
Definition threadedPage : list Action :=
  [ParentBatch [note "p" 50];
   CallLoad 10 1000 [2%nat]
     [reply "a" 100 "p"; note "b" 900; reply "c" 990 "q"; reaction "r" 995 "p"]].

(** The loader after a list of actions, and one chunk built on it. *)
Definition after (acts : list Action) (st : FeedLoader) : FeedLoader :=
  default st (run (env:=exampleEnv) 3 acts st).

Definition chunkOn (st : FeedLoader) (new_notes : list DisplayEvent)
  : Store * list DisplayEvent :=
  default (store st, []) (buildFeedChunk (env:=exampleEnv) 3 st new_notes).

(** A loader that knows the parent [p], and two events that answer it. *)
Definition parentLoaded : FeedLoader :=
  after [ParentBatch [note "p" 50]] deferringLoader.

Definition replyAndReaction : list DisplayEvent :=
  [mkDisplay (reply "a" 100 "p") 7; mkDisplay (reaction "r" 995 "p") 8].

(** The ids of the feed, and the timers with the ids of their events. *)
Definition feedIds (st : FeedLoader) : list string := eid <$> notes st.

Definition timerIds (st : FeedLoader) : list (nat * list string) :=
  (λ t : nat * list DisplayEvent, (t.1, eid <$> t.2)) <$> timers st.

(* ================================================================== *)
(** * Relay half: what the selection scans                             *)
(* ================================================================== *)

(** [uniq(l)] on strings is [uniqBy] with the identity as key. *)
Definition uniq (l : list string) : list string := uniqBy (λ u : string, u) l.

(** The distinct hints of the lists that get an entry in the scores of
    [mergeHints]: all but the names inherited from [Object.prototype]. *)
Definition scoredHints (groups : list (list string)) : list string :=
  uniq (List.filter (λ u, negb (inheritedName u)) (concat groups)).

(** The sequence [chain(hints, getUserRelayUrls(Read), DEFAULT_RELAYS)]
    that the loop of [selectHints] walks. *)
Definition candidates `{renv : RelayEnv} (hints : list string) : list string :=
  hints ++ userReadRelayUrls ++ DEFAULT_RELAYS.

(** The candidates that can be returned at all: first occurrences that
    are shareable, in the order of the candidates. *)
Definition eligible `{renv : RelayEnv} (hints : list string) : list string :=
  List.filter isShareableRelay (uniq (candidates hints)).

Definition healthyOf `{renv : RelayEnv} (urls : list string) : list string :=
  List.filter (λ u, negb (relayIsLowQuality u)) urls.

Definition lowQualityOf `{renv : RelayEnv} (urls : list string) : list string :=
  List.filter relayIsLowQuality urls.

(* ================================================================== *)
(** * Relay half: relays of people and hints by role                   *)
(* ================================================================== *)

(** A relay as [getSearchableRelays] reads it: its url and, when its
    information document is known, the NIPs the document lists. *)
Record RelayInfo := mkInfo {
  supported_nips : option (list Z);
}.

Record Relay := mkRelay {
  url : string;
  info : option RelayInfo;
}.

(** [(r.info?.supported_nips || []).includes(50)] *)
Definition supportsSearch (r : Relay) : bool :=
  includes 50 (default [] (info r ≫= supported_nips)).

(** [getSearchableRelays], with the [SEARCH_RELAYS] of the environment. *)
Definition getSearchableRelays (SEARCH_RELAYS : list string)
    (relays : list Relay) : list string :=
  take 8 (uniq (SEARCH_RELAYS ++ (url <$> List.filter supportsSearch relays))).

(** A relay in the list a person advertises, as this file reads it: its
    url and, for the name of a property, whether the property is truthy
    ([prop(mode)] used as the test of a filter). *)
Module Policy.
Record t := mk {
  url : string;
  has : string → bool;
}.
End Policy.

(** The people the client knows, [people.key(pubkey).get()?.relays], and
    the two values of the enum [RelayMode] of [./model]. *)
Class PeopleEnv := {
  relaysOf : string → option (list Policy.t);
  RelayMode_Read : string;
  RelayMode_Write : string;
}.

(** An event with the relays it was seen on. *)
Record SeenEvent := mkSeen {
  seen : Event;
  seen_on : list string;
}.

Section Roles.
Context `{renv : RelayEnv} `{penv : PeopleEnv}.

Definition getPubkeyRelays (pubkey : string) (mode : option string)
  : list Policy.t :=
  let relays := default [] (relaysOf pubkey) in
  if truthy mode then List.filter (λ r, Policy.has r (default ""%string mode)) relays
  else relays.

Definition getPubkeyRelayUrls (pubkey : string) (mode : option string)
  : list string :=
  Policy.url <$> getPubkeyRelays pubkey mode.

(** [new HintSelector(generateHints, hintsLimit).getHints(...args)] *)
Definition getHints {Args : Type} (generateHints : Args → list string)
    (hintsLimit : option nat) (args : Args) : list string :=
  selectHints (generateHints args) hintsLimit.

(** [hintSelector(generateHints)]: the limit is the setting. *)
Definition hintSelector {Args : Type} (generateHints : Args → list string)
    (args : Args) : list string :=
  getHints generateHints (Some relay_limit) args.

Definition getPubkeyHints (pubkey : string) (mode : option string) : list string :=
  hintSelector (λ '(pk, m), getPubkeyRelayUrls pk m) (pubkey, mode).

Definition eventHintsOf (e : SeenEvent) : list string :=
  getPubkeyRelayUrls (pubkey (seen e)) (Some RelayMode_Write)
  ++ List.filter isShareableRelay (seen_on e).

Definition getEventHints (e : SeenEvent) : list string :=
  hintSelector eventHintsOf e.

(** [first(getEventHints.limit(1).getHints(event)) || ""] *)
Definition getEventHint (e : SeenEvent) : string :=
  default ""%string (head (getHints eventHintsOf (Some 1%nat) e)).

Definition inboxHintsOf (pubkeys : list string) : list string :=
  mergeHints ((λ pk, getPubkeyHints pk (Some "read"%string)) <$> pubkeys) None.

Definition getInboxHints (pubkeys : list string) : list string :=
  hintSelector inboxHintsOf pubkeys.
End Roles.

(* ================================================================== *)
(** * More properties of a loader                                      *)
(* ================================================================== *)

(** Every event object the loader holds, in the feed, in the buffer, in
    a timer, among the parents or in a [replies] array, has the
    property. *)
Definition screened (P : DisplayEvent → Prop) (st : FeedLoader) : Prop :=
  Forall P (notes st)
  ∧ Forall P (buffer st)
  ∧ Forall P (deferred st)
  ∧ Forall (λ t, Forall P t.2) (timers st)
  ∧ (∀ k p, parents st !! k = Some p → P p)
  ∧ (∀ s, Forall P (repliesAt (store st) s)).

(** The event at which the loop of [buildFeedChunk] stops, whatever it
    does to the [replies] arrays on its way. *)
Fixpoint topOf `{env : FeedEnv} (fuel : nat) (ps : gmap string DisplayEvent)
    (e : DisplayEvent) : option DisplayEvent :=
  match fuel with
  | O => None
  | S fuel' =>
      let parentId := findReplyId (event e) in
      if negb (truthy parentId) then Some e
      else
        match ps !! default ""%string parentId with
        | None => Some e
        | Some parent => topOf fuel' ps parent
        end
  end.

(** The parent the loader has resolved for an event, if any. *)
Definition resolvedParent `{env : FeedEnv} (ps : gmap string DisplayEvent)
    (e : DisplayEvent) : option DisplayEvent :=
  if truthy (findReplyId (event e))
  then ps !! default ""%string (findReplyId (event e))
  else None.

(** The ids in the [replies] arrays only grow. *)
Definition repliesKept (h h' : Store) : Prop :=
  ∀ s k, k ∈ eid <$> repliesAt h s → k ∈ eid <$> repliesAt h' s.

(** What is in a [replies] array after and was not before is an event of
    a note kind, under the parent that is resolved for it. *)
Definition addedUnderParent `{env : FeedEnv} (ps : gmap string DisplayEvent) (h h' : Store) : Prop :=
  ∀ s r, r ∈ repliesAt h' s →
         r ∈ repliesAt h s
         ∨ (isNote r = true ∧ ∃ p, resolvedParent ps r = Some p ∧ slot p = s).

(* ================================================================== *)
(** * More example data                                                *)
(* ================================================================== *)

(** As [exampleEnv], with the events of one author muted. *)
Definition mutingEnv : FeedEnv :=
  {| isEventMuted := λ e, String.eqb (pubkey e) "carol";
     findReplyId := firstETag;
     noteKinds := [1; 30023];
     reactionKinds := [7; 9735];
     guessFilterDelta := λ _, 3600 |}.

(** The page of [threadedPage] on a loader that mutes. *)
Definition afterMuting : FeedLoader :=
  default deferringLoader (run (env:=mutingEnv) 3 threadedPage deferringLoader).

(** Options that hide replies, and a loader built with them after the
    page of [threadedPage]. *)
Definition hidingOpts : FeedOpts :=
  mkOpts ["wss://relay.example.com/"%string] [mkFilter None None]
    false true true true.

Definition afterHiding : FeedLoader :=
  after threadedPage (construct hidingOpts 0%nat [1%nat]).

(** A loader that knows an event that names itself as its parent, and a
    reply to that event. *)
Definition selfParent : DisplayEvent := mkDisplay (reply "s" 10 "s") 0.

Definition selfParentLoaded : FeedLoader :=
  after [ParentBatch [reply "s" 10 "s"]] deferringLoader.

Definition replyToSelfParent : DisplayEvent := mkDisplay (reply "r" 20 "s") 5.

(** The parent [p] as the loader of [parentLoaded] holds it, and that
    loader after the two answers were added to its feed. *)
Definition parentP : DisplayEvent := mkDisplay (note "p" 50) 0.

(** A second batch of parents for the loader of [parentLoaded]: [p]
    twice more, with other timestamps, and then [q]. *)
Definition sentTwice : list Event := [note "p" 70; note "p" 60; note "q" 55].

Definition sentTwiceLoaded : FeedLoader :=
  after [ParentBatch sentTwice] parentLoaded.


(** One live event that has been moved to the feed, and what follows. *)
Definition firstBuffer : list Action := [LiveBatch [note "a" 100]; CallLoadBuffer].

Definition secondBuffer : list Action := [LiveBatch [note "b" 200]; CallLoadBuffer].

(** Options with a filter that has an [until], without deferral and
    without parents, and one page on a loader built with them. *)
Definition untilOpts : FeedOpts :=
  mkOpts ["wss://relay.example.com/"%string] [mkFilter None (Some 500)]
    false true false false.

Definition onePage : list Action :=
  [CallLoad 10 1000 [2%nat] [note "b" 400; note "c" 300]; CallLoadBuffer].

(** As [exampleRelayEnv] without default relays, with a quality
    recorded for every relay: below 0.6 for one of them. *)
Definition gradedRelayEnv : RelayEnv :=
  {| quality := λ u,
       if String.eqb u "wss://slow.example/" then Some (1 # 10)%Q
       else Some (9 # 10)%Q;
     relay_limit := 3;
     userReadRelayUrls := [];
     DEFAULT_RELAYS := [] |}.

(** One person, with a relay to read from and a relay to write to. *)
Definition examplePeople : PeopleEnv :=
  {| relaysOf := λ pk,
       if String.eqb pk "alice"
       then Some [Policy.mk "wss://inbox.example/" (λ k, String.eqb k "read");
                  Policy.mk "wss://outbox.example/" (λ k, String.eqb k "write")]
       else None;
     RelayMode_Read := "read";
     RelayMode_Write := "write" |}.

Definition seenNote : SeenEvent :=
  mkSeen (note "n" 100) ["wss://seen.example/"%string].

(* ================================================================== *)
(** * Facts about the helpers *)
(* ================================================================== *)

Section RamdaFacts.
Context {A K : Type} `{EqDecision K} (f : A → K).

Lemma uniqByFrom_keys met l :
  NoDup (f <$> uniqByFrom f met l)
  ∧ ∀ x, x ∈ uniqByFrom f met l → x ∈ l ∧ f x ∉ met.
Proof.
  revert met. induction l as [|x l IH]; intros met; simpl.
  - split; [constructor | intros x Hx; inversion Hx].
  - case_bool_decide as Hmet.
    + destruct (IH met) as [Hnd Hin]. split; [done|].
      intros y Hy. destruct (Hin y Hy). split; [by right | done].
    + destruct (IH (f x :: met)) as [Hnd Hin]. split.
      * rewrite fmap_cons. apply NoDup_cons. split; [|done].
        intros Hx. apply list_elem_of_fmap in Hx as (y & Hfy & Hy).
        destruct (Hin y Hy) as [_ Hny]. apply Hny. rewrite Hfy. by left.
      * intros y Hy. apply elem_of_cons in Hy as [->|Hy]; [split; [by left|done]|].
        destruct (Hin y Hy) as [Hyl Hny]. split; [by right|].
        intros Hm. apply Hny. by right.
Qed.

Lemma uniqBy_NoDup l : NoDup (f <$> uniqBy f l).
Proof. apply uniqByFrom_keys. Qed.

Lemma uniqBy_elem x l : x ∈ uniqBy f l → x ∈ l.
Proof. intros Hx. by apply (uniqByFrom_keys [] l). Qed.

Lemma uniqByFrom_fixed met l :
  NoDup (f <$> l) → (∀ x, x ∈ l → f x ∉ met) → uniqByFrom f met l = l.
Proof.
  revert met. induction l as [|x l IH]; intros met Hnd Hmet; simpl; [done|].
  rewrite fmap_cons in Hnd. apply NoDup_cons in Hnd as [Hx Hnd].
  rewrite bool_decide_eq_false_2 by (apply Hmet; by left).
  f_equal. apply IH; [done|].
  intros y Hy Hin. apply elem_of_cons in Hin as [Heq|Hin].
  - apply Hx. rewrite <- Heq. by apply list_elem_of_fmap_2.
  - apply (Hmet y); [by right | done].
Qed.

Lemma uniqBy_fixed l : NoDup (f <$> l) → uniqBy f l = l.
Proof. intros Hnd. apply uniqByFrom_fixed; [done|]. intros x _ Hx. inversion Hx. Qed.

Lemma uniqBy_Forall (P : A → Prop) l : Forall P l → Forall P (uniqBy f l).
Proof.
  rewrite !Forall_forall. intros HP x Hx. apply HP. by apply uniqBy_elem.
Qed.

Lemma hasKey_false k l : hasKey f k l = false → k ∉ f <$> l.
Proof.
  unfold hasKey. induction l as [|x l IH]; intros Hk Hin.
  - inversion Hin.
  - simpl in Hk. apply orb_false_iff in Hk as [Hx Hl]. rewrite fmap_cons in Hin.
    apply elem_of_cons in Hin as [->|Hin]; [|by apply IH].
    by rewrite bool_decide_eq_true_2 in Hx.
Qed.
End RamdaFacts.

Section SortByFacts.
Context {A : Type} (key : A → Z).

Lemma insertBy_perm x l : insertBy Z.ltb key x l ≡ₚ x :: l.
Proof.
  induction l as [|y l IH]; simpl; [done|].
  destruct (key y <? key x); [|done].
  rewrite IH. apply Permutation_swap.
Qed.

Lemma sortBy_perm l : sortBy Z.ltb key l ≡ₚ l.
Proof.
  induction l as [|x l IH]; simpl; [done|].
  unfold sortBy in *. simpl. rewrite insertBy_perm. by rewrite IH.
Qed.
End SortByFacts.

(* ================================================================== *)
(** * Facts about sorting and about the store of replies *)
(* ================================================================== *)

Section SortedFacts.
Lemma sortBy_created_at_sorted (l : list DisplayEvent) :
  sortedDescending (sortBy Z.ltb (λ e, - created_at (event e)) l).
Proof.
  unfold sortedDescending, sortBy.
  induction l as [|x l IH]; simpl; [constructor|].
  revert IH. generalize (foldr (insertBy Z.ltb (λ e, - created_at (event e))) [] l).
  intros s Hs. induction Hs as [|y s Hs IH Hy]; simpl.
  - repeat constructor.
  - destruct (Z.ltb_spec (- created_at (event y)) (- created_at (event x))) as [Hlt|Hge].
    + constructor; [done|].
      rewrite insertBy_perm.
      constructor; [unfold newerFirst; lia | done].
    + constructor; [by constructor|].
      constructor; [unfold newerFirst; lia|].
      eapply Forall_impl; [exact Hy|]. unfold newerFirst. intros z Hz. lia.
Qed.
End SortedFacts.

Section StoreFacts.
Context `{env : FeedEnv}.

Lemma repliesAt_push_eq h p e :
  repliesAt (pushToKey h p e) (slot p) = repliesAt h (slot p) ++ [e].
Proof. unfold repliesAt, pushToKey. by rewrite lookup_insert_eq. Qed.

Lemma repliesAt_push_ne h p e s :
  s ≠ slot p → repliesAt (pushToKey h p e) s = repliesAt h s.
Proof. intros Hs. unfold repliesAt, pushToKey. by rewrite lookup_insert_ne. Qed.

Lemma pushToKey_unique h p e :
  repliesUnique h →
  hasKey eid (eid e) (repliesAt h (slot p)) = false →
  repliesUnique (pushToKey h p e).
Proof.
  intros Hh Hnew s. destruct (decide (s = slot p)) as [->|Hne].
  - rewrite repliesAt_push_eq. unfold uniqueIds. rewrite fmap_app.
    apply NoDup_app. split; [apply Hh|]. split; [|apply NoDup_singleton].
    intros k Hk Hk'. apply list_elem_of_singleton in Hk'. subst k.
    by apply hasKey_false in Hnew.
  - rewrite repliesAt_push_ne by done. apply Hh.
Qed.

Lemma onlyNotesAdded_refl h : onlyNotesAdded h h.
Proof. intros s r Hr. by left. Qed.

Lemma onlyNotesAdded_trans h1 h2 h3 :
  onlyNotesAdded h1 h2 → onlyNotesAdded h2 h3 → onlyNotesAdded h1 h3.
Proof.
  intros H12 H23 s r Hr. destruct (H23 s r Hr) as [Hr2|Hn]; [|by right].
  by apply H12.
Qed.

Lemma pushToKey_onlyNotes h p e :
  isNote e = true → onlyNotesAdded h (pushToKey h p e).
Proof.
  intros Hn s r Hr. destruct (decide (s = slot p)) as [->|Hne].
  - rewrite repliesAt_push_eq in Hr. apply elem_of_app in Hr as [Hr|Hr]; [by left|].
    apply list_elem_of_singleton in Hr. subst r. by right.
  - rewrite repliesAt_push_ne in Hr by done. by left.
Qed.

(** One turn of the loop and all that follow keep both properties. *)
Lemma climb_store fuel ps h e h' top :
  climb fuel ps h e = Some (h', top) →
  (repliesUnique h → repliesUnique h') ∧ onlyNotesAdded h h'.
Proof.
  revert h e. induction fuel as [|fuel IH]; intros h e Hc; simpl in Hc; [done|].
  destruct (negb (truthy (findReplyId (event e)))).
  { inversion Hc; subst. split; [done | apply onlyNotesAdded_refl]. }
  destruct (ps !! default ""%string (findReplyId (event e))) as [parent|].
  2:{ inversion Hc; subst. split; [done | apply onlyNotesAdded_refl]. }
  destruct (includes (kind (event e)) noteKinds) eqn:Hkind; simpl in Hc.
  - destruct (hasKey eid (eid e) (repliesAt h (slot parent))) eqn:Hhas;
      simpl in Hc.
    + by apply IH in Hc.
    + apply IH in Hc as [Hu Ho]. split.
      * intros Hh. apply Hu. by apply pushToKey_unique.
      * eapply onlyNotesAdded_trans; [|exact Ho]. by apply pushToKey_onlyNotes.
  - by apply IH in Hc.
Qed.

Lemma climbAll_store fuel ps l : ∀ h h' tops,
  climbAll fuel ps h l = Some (h', tops) →
  (repliesUnique h → repliesUnique h') ∧ onlyNotesAdded h h'.
Proof.
  induction l as [|e l IH]; intros h h' tops Hc; simpl in Hc.
  - inversion Hc; subst. split; [done | apply onlyNotesAdded_refl].
  - destruct (climb fuel ps h e) as [[h1 top]|] eqn:H1; [|done].
    destruct (climbAll fuel ps h1 l) as [[h2 tops2]|] eqn:H2; [|done].
    inversion Hc; subst. apply climb_store in H1 as [Hu1 Ho1].
    apply IH in H2 as [Hu2 Ho2]. split; [auto|].
    by eapply onlyNotesAdded_trans.
Qed.

Lemma uniqReplies_at h e s :
  repliesAt (uniqReplies h e) s
  = if decide (s = slot e) then uniqBy eid (repliesAt h s) else repliesAt h s.
Proof.
  unfold uniqReplies, repliesAt. destruct (h !! slot e) as [rs|] eqn:Hrs.
  - case_decide as Hs.
    + subst s. by rewrite lookup_insert_eq, Hrs.
    + by rewrite lookup_insert_ne.
  - case_decide as Hs; [|done]. subst s. by rewrite Hrs.
Qed.

Lemma uniqReplies_store h e :
  (repliesUnique h → repliesUnique (uniqReplies h e))
  ∧ onlyNotesAdded h (uniqReplies h e).
Proof.
  split.
  - intros Hh s. rewrite uniqReplies_at. case_decide; [|apply Hh].
    apply uniqBy_NoDup.
  - intros s r. rewrite uniqReplies_at. case_decide; [|by left].
    intros Hr. left. by apply uniqBy_elem in Hr.
Qed.

Lemma foldl_uniqReplies_store l : ∀ h,
  (repliesUnique h → repliesUnique (foldl uniqReplies h l))
  ∧ onlyNotesAdded h (foldl uniqReplies h l).
Proof.
  induction l as [|e l IH]; intros h; simpl.
  - split; [done | apply onlyNotesAdded_refl].
  - destruct (uniqReplies_store h e) as [Hu1 Ho1].
    destruct (IH (uniqReplies h e)) as [Hu2 Ho2]. split; [auto|].
    by eapply onlyNotesAdded_trans.
Qed.
End StoreFacts.

(* ================================================================== *)
(** * Feed chunks *)
(* ================================================================== *)

Section ChunkFacts.
Context `{env : FeedEnv}.

Lemma keepInChunk_true seen e :
  keepInChunk seen e = true → (eid e ∉ seen) ∧ isReaction e = false.
Proof.
  unfold keepInChunk, isReaction. case_bool_decide; [done|].
  destruct (includes (kind (event e)) reactionKinds); [done|]. by split.
Qed.

Lemma buildFeedChunk_spec fuel st new_notes h chunk :
  buildFeedChunk fuel st new_notes = Some (h, chunk) →
  uniqueIds chunk
  ∧ (∀ e, e ∈ chunk → (eid e ∉ eid <$> notes st) ∧ isReaction e = false)
  ∧ sortedDescending chunk
  ∧ (repliesUnique (store st) → repliesUnique h)
  ∧ onlyNotesAdded (store st) h.
Proof.
  unfold buildFeedChunk.
  destruct (climbAll fuel (parents st) (store st) new_notes) as [[h1 tops]|] eqn:Hc;
    [|done].
  intros Hb. inversion Hb; subst; clear Hb.
  apply climbAll_store in Hc as [Hu1 Ho1].
  set (kept := List.filter (keepInChunk (eid <$> notes st)) (tops ++ [])).
  destruct (foldl_uniqReplies_store kept h1) as [Hu2 Ho2].
  split; [|split; [|split; [|split]]].
  - unfold uniqueIds. rewrite sortBy_perm. apply uniqBy_NoDup.
  - intros e He. rewrite sortBy_perm in He. apply uniqBy_elem in He.
    apply list_elem_of_In, filter_In in He as [_ Hk].
    by apply keepInChunk_true.
  - apply sortBy_created_at_sorted.
  - auto.
  - by eapply onlyNotesAdded_trans.
Qed.
End ChunkFacts.

(* ================================================================== *)
(** * One action at a time *)
(* ================================================================== *)

Section StepFacts.
Context `{env : FeedEnv}.

(** [buildFeedChunk] reads the feed, the parents and the store only. *)
Lemma buildFeedChunk_reads fuel st1 st2 l :
  notes st1 = notes st2 → parents st1 = parents st2 → store st1 = store st2 →
  buildFeedChunk fuel st1 l = buildFeedChunk fuel st2 l.
Proof. unfold buildFeedChunk. by intros -> -> ->. Qed.

Lemma addToFeed_appends fuel l st st' :
  feedInvariant st → addToFeed fuel l st = Some st' →
  ∃ h chunk,
    buildFeedChunk fuel st l = Some (h, chunk)
    ∧ st' = set_notes (notes st ++ chunk) (set_store h st)
    ∧ feedInvariant st' ∧ sortedDescending chunk.
Proof.
  intros (Hids & Hkinds & Hreplies). unfold addToFeed.
  destruct (buildFeedChunk fuel st l) as [[h chunk]|] eqn:Hb; [|done].
  intros Hst. inversion Hst; subst; clear Hst.
  apply buildFeedChunk_spec in Hb as Hspec.
  destruct Hspec as (Hcu & Hce & Hcs & Hcr & _).
  assert (Hall : uniqueIds (notes st ++ chunk)).
  { unfold uniqueIds. rewrite fmap_app. apply NoDup_app.
    split; [done|]. split; [|done].
    intros k Hk Hk'. apply list_elem_of_fmap in Hk' as (e & -> & He).
    by apply Hce in He as [He _]. }
  exists h, chunk. rewrite (uniqBy_fixed _ _ Hall).
  split; [done|]. split; [done|]. split; [|done].
  split; [exact Hall|]. split; [|by apply Hcr].
  simpl. apply Forall_app. split; [done|].
  apply Forall_forall. intros e He. by apply Hce in He as [_ He].
Qed.

Lemma deferOrphans_frame l st :
  let st' := (deferOrphans l st).2 in
  opts st' = opts st ∧ notes st' = notes st ∧ parents st' = parents st
  ∧ store st' = store st ∧ deferred st' = deferred st
  ∧ stopped st' = stopped st.
Proof.
  unfold deferOrphans. destruct (negb (shouldLoadParents (opts st))); [done|].
  by destruct (List.partition (isOrphan (parents st)) l).
Qed.

Lemma deferAncient_frame now l st :
  let st' := (deferAncient now l st).2 in
  opts st' = opts st ∧ notes st' = notes st ∧ parents st' = parents st
  ∧ store st' = store st ∧ deferred st' = deferred st
  ∧ stopped st' = stopped st.
Proof. unfold deferAncient. by destruct (List.partition _ l). Qed.

Lemma addToFeed_step fuel l st0 st st' :
  sameFeed st0 st → feedInvariant st → addToFeed fuel l st0 = Some st' →
  feedInvariant st'
  ∧ ∃ chunk, notes st' = notes st ++ chunk ∧ sortedDescending chunk.
Proof.
  intros (Hn & Hp & Hs) Hinv Hadd.
  assert (Hinv0 : feedInvariant st0).
  { unfold feedInvariant. by rewrite Hn, Hs. }
  apply addToFeed_appends in Hadd as (h & chunk & _ & -> & Hinv' & Hsorted); [|done].
  split; [done|]. exists chunk. simpl. by rewrite Hn.
Qed.

Lemma load_step fuel n now new_subs events st st' :
  feedInvariant st → load fuel n now new_subs events st = Some st' →
  feedInvariant st'
  ∧ ∃ chunk, notes st' = notes st ++ chunk ∧ sortedDescending chunk.
Proof.
  intros Hinv. unfold load. destruct (n <? length events)%nat; [done|].
  cbn [receive]. destruct (shouldDefer (opts st)).
  - destruct (deferOrphans _ _) as [ok1 st4] eqn:H4.
    destruct (deferAncient now ok1 st4) as [ok2 st5] eqn:H5.
    pose proof (deferOrphans_frame
      (discardEvents (opts st)
         (imap (λ i e, mkDisplay e (next_slot st + i)%nat) events)
       ++ deferred (addSubs new_subs
            (set_next_slot (next_slot st + length events)%nat st)))
      (set_deferred [] (addSubs new_subs
            (set_next_slot (next_slot st + length events)%nat st)))) as Hf4.
    rewrite H4 in Hf4. simpl in Hf4.
    pose proof (deferAncient_frame now ok1 st4) as Hf5.
    rewrite H5 in Hf5. simpl in Hf5.
    apply addToFeed_step; [|done].
    destruct Hf4 as (_ & Hn4 & Hp4 & Hs4 & _), Hf5 as (_ & Hn5 & Hp5 & Hs5 & _).
    unfold sameFeed. by rewrite Hn5, Hp5, Hs5, Hn4, Hp4, Hs4.
  - by apply addToFeed_step.
Qed.

Lemma exec_step fuel a st st' :
  feedInvariant st → exec fuel a st = Some st' →
  feedInvariant st'
  ∧ ∃ chunk, notes st' = notes st ++ chunk ∧ sortedDescending chunk.
Proof.
  intros Hinv. assert (Hnil : sortedDescending []) by constructor.
  destruct a as [n now new_subs events| | |events|events|s|i]; simpl.
  - by apply load_step.
  - unfold loadBuffer. destruct (addToFeed fuel (buffer st) st) as [st1|] eqn:Ha; [|done].
    intros Hst; inversion Hst; subst; clear Hst.
    apply addToFeed_step with (st := st) in Ha as [Hinv1 Hch]; done.
  - intros Hst; inversion Hst; subst. split; [done|].
    exists []. by rewrite app_nil_r.
  - unfold onLiveBatch. destruct (listening st); [|done]. cbn [receive].
    intros Hst; inversion Hst; subst. split; [done|].
    exists []. by rewrite app_nil_r.
  - unfold onParentBatch. destruct (shouldLoadParents (opts st)); [|done].
    cbn [receive]. intros Hst; inversion Hst; subst. split; [done|].
    exists []. by rewrite app_nil_r.
  - intros Hst; inversion Hst; subst. split; [done|].
    exists []. by rewrite app_nil_r.
  - unfold onTimer. destruct (timers st !! i) as [[d defer]|]; [|done].
    by apply addToFeed_step.
Qed.

Lemma construct_invariant o live_sub cursor_subs :
  feedInvariant (construct o live_sub cursor_subs).
Proof.
  split; [constructor|]. split; [constructor|].
  intros s. unfold repliesAt. simpl. rewrite lookup_empty. constructor.
Qed.

Lemma run_invariant fuel acts : ∀ st st',
  feedInvariant st → run fuel acts st = Some st' → feedInvariant st'.
Proof.
  induction acts as [|a acts IH]; intros st st' Hinv Hrun; simpl in Hrun.
  - by inversion Hrun; subst.
  - destruct (exec fuel a st) as [st1|] eqn:Hexec; [|done].
    apply exec_step in Hexec as [Hinv1 _]; [|done]. by eapply IH.
Qed.
End StepFacts.

(* ================================================================== *)
(** * Fuel *)
(* ================================================================== *)

Section FuelFacts.
Context `{env : FeedEnv}.

(** A loop that has ended within [fuel] turns ends the same way within
    more. *)
Lemma climb_more_fuel fuel : ∀ fuel' ps h e r,
  climb fuel ps h e = Some r → (fuel ≤ fuel')%nat → climb fuel' ps h e = Some r.
Proof.
  induction fuel as [|fuel IH]; intros fuel' ps h e r Hc Hle; [done|].
  destruct fuel' as [|fuel']; [lia|]. simpl in *.
  destruct (negb (truthy (findReplyId (event e)))); [done|].
  destruct (ps !! default ""%string (findReplyId (event e))) as [parent|]; [|done].
  apply IH; [done | lia].
Qed.

Lemma climbAll_more_fuel fuel fuel' ps l : ∀ h r,
  climbAll fuel ps h l = Some r → (fuel ≤ fuel')%nat →
  climbAll fuel' ps h l = Some r.
Proof.
  induction l as [|e l IH]; intros h r Hc Hle; simpl in *; [done|].
  destruct (climb fuel ps h e) as [[h1 top]|] eqn:H1; [|done].
  rewrite (climb_more_fuel _ _ _ _ _ _ H1 Hle).
  destruct (climbAll fuel ps h1 l) as [[h2 tops]|] eqn:H2; [|done].
  by rewrite (IH _ _ H2 Hle).
Qed.

Lemma addToFeed_more_fuel fuel fuel' l st st' :
  addToFeed fuel l st = Some st' → (fuel ≤ fuel')%nat →
  addToFeed fuel' l st = Some st'.
Proof.
  unfold addToFeed, buildFeedChunk. intros Ha Hle.
  destruct (climbAll fuel (parents st) (store st) l) as [[h1 tops]|] eqn:Hc; [|done].
  by rewrite (climbAll_more_fuel _ _ _ _ _ _ Hc Hle).
Qed.

Lemma exec_more_fuel fuel fuel' a st st' :
  exec fuel a st = Some st' → (fuel ≤ fuel')%nat → exec fuel' a st = Some st'.
Proof.
  intros Hexec Hle.
  destruct a as [n now new_subs events| | |events|events|s|i]; simpl in *; try done.
  - unfold load in *. destruct (n <? length events)%nat; [done|].
    cbn [receive] in *. destruct (shouldDefer (opts st)).
    + destruct (deferOrphans _ _) as [ok1 st4].
      destruct (deferAncient now ok1 st4) as [ok2 st5].
      by eapply addToFeed_more_fuel.
    + by eapply addToFeed_more_fuel.
  - unfold loadBuffer in *.
    destruct (addToFeed fuel (buffer st) st) as [st1|] eqn:Ha; [|done].
    by rewrite (addToFeed_more_fuel _ _ _ _ _ Ha Hle).
  - unfold onTimer in *. destruct (timers st !! i) as [[d defer]|]; [|done].
    by eapply addToFeed_more_fuel.
Qed.

Lemma run_more_fuel fuel fuel' acts : ∀ st st',
  run fuel acts st = Some st' → (fuel ≤ fuel')%nat → run fuel' acts st = Some st'.
Proof.
  induction acts as [|a acts IH]; intros st st' Hrun Hle; simpl in *; [done|].
  destruct (exec fuel a st) as [st1|] eqn:Hexec; [|done].
  rewrite (exec_more_fuel _ _ _ _ _ Hexec Hle). by apply IH.
Qed.

(** Without known parents the loop ends at its first turn, and so does
    every chunk. *)
Lemma climbAll_without_parents h l :
  climbAll 1 ∅ h l = Some (h, l).
Proof.
  induction l as [|e l IH]; simpl; [done|].
  destruct (negb (truthy (findReplyId (event e)))); rewrite ?lookup_empty;
    simpl in IH; by rewrite IH.
Qed.

Lemma addToFeed_without_parents l st :
  parents st = ∅ → is_Some (addToFeed 1 l st).
Proof.
  intros Hps. unfold addToFeed, buildFeedChunk.
  rewrite Hps, climbAll_without_parents. by eexists.
Qed.
Lemma addToFeed_keeps fuel l st st' :
  addToFeed fuel l st = Some st' → opts st' = opts st ∧ parents st' = parents st.
Proof.
  unfold addToFeed. destruct (buildFeedChunk fuel st l) as [[h chunk]|]; [|done].
  by intros Hst; inversion Hst; subst.
Qed.

(** A loader that does not load parents never knows one. *)
Lemma exec_keeps_no_parents fuel a st st' :
  shouldLoadParents (opts st) = false → parents st = ∅ →
  exec fuel a st = Some st' →
  shouldLoadParents (opts st') = false ∧ parents st' = ∅.
Proof.
  intros Ho Hp Hexec.
  destruct a as [n now new_subs events| | |events|events|s|i]; simpl in Hexec.
  - unfold load in Hexec. destruct (n <? length events)%nat; [done|].
    cbn [receive] in Hexec. destruct (shouldDefer (opts st)).
    + destruct (deferOrphans _ _) as [ok1 st4] eqn:H4.
      destruct (deferAncient now ok1 st4) as [ok2 st5] eqn:H5.
      apply addToFeed_keeps in Hexec as [-> ->].
      pose proof (deferAncient_frame now ok1 st4) as Hf5. rewrite H5 in Hf5.
      simpl in Hf5. destruct Hf5 as (-> & _ & -> & _).
      match type of H4 with deferOrphans ?l ?s = _ =>
        pose proof (deferOrphans_frame l s) as Hf4 end.
      rewrite H4 in Hf4. simpl in Hf4. by destruct Hf4 as (-> & _ & -> & _).
    + by apply addToFeed_keeps in Hexec as [-> ->].
  - unfold loadBuffer in Hexec.
    destruct (addToFeed fuel (buffer st) st) as [st1|] eqn:Ha; [|done].
    inversion Hexec; subst. apply addToFeed_keeps in Ha as [Ho1 Hp1].
    simpl. by rewrite Ho1, Hp1.
  - by inversion Hexec; subst.
  - unfold onLiveBatch in Hexec. destruct (listening st); [|done].
    by inversion Hexec; subst.
  - unfold onParentBatch in Hexec. by rewrite Ho in Hexec.
  - by inversion Hexec; subst.
  - unfold onTimer in Hexec. destruct (timers st !! i) as [[d defer]|]; [|done].
    by apply addToFeed_keeps in Hexec as [-> ->].
Qed.

(** Without known parents, [load], [loadBuffer] and the timers return,
    and do so at the first turn of every loop. *)
Lemma calls_return_without_parents st :
  parents st = ∅ →
  (∀ n now new_subs events,
     (length events ≤ n)%nat → is_Some (load 1 n now new_subs events st))
  ∧ is_Some (loadBuffer 1 st)
  ∧ (∀ i, is_Some (timers st !! i) → is_Some (onTimer 1 i st)).
Proof.
  intros Hp. split; [|split].
  - intros n now new_subs events Hn. unfold load.
    replace (n <? length events)%nat with false by (symmetry; apply Nat.ltb_ge; lia).
    cbn [receive]. destruct (shouldDefer (opts st)).
    + destruct (deferOrphans _ _) as [ok1 st4] eqn:H4.
      destruct (deferAncient now ok1 st4) as [ok2 st5] eqn:H5.
      apply addToFeed_without_parents.
      pose proof (deferAncient_frame now ok1 st4) as Hf5. rewrite H5 in Hf5.
      simpl in Hf5. destruct Hf5 as (_ & _ & -> & _).
      match type of H4 with deferOrphans ?l ?s = _ =>
        pose proof (deferOrphans_frame l s) as Hf4 end.
      rewrite H4 in Hf4. simpl in Hf4. by destruct Hf4 as (_ & _ & -> & _).
    + by apply addToFeed_without_parents.
  - unfold loadBuffer.
    destruct (addToFeed_without_parents (buffer st) st Hp) as [st1 ->]. by eexists.
  - intros i [[d defer] Hi]. unfold onTimer. rewrite Hi.
    by apply addToFeed_without_parents.
Qed.
End FuelFacts.

(* ================================================================== *)
(** * Claims about the feed *)
(* ================================================================== *)

Section FeedClaims.
Context `{env : FeedEnv}.

Lemma run_deferred_nil fuel acts : ∀ st st',
  deferred st = [] → run fuel acts st = Some st' → deferred st' = [].
Proof.
  assert (Hadd : ∀ l st st', addToFeed fuel l st = Some st' →
                             deferred st' = deferred st).
  { intros l st st'. unfold addToFeed.
    destruct (buildFeedChunk fuel st l) as [[h chunk]|]; [|done].
    by intros Hst; inversion Hst; subst. }
  induction acts as [|a acts IH]; intros st st' Hd Hrun; simpl in Hrun.
  { by inversion Hrun; subst. }
  destruct (exec fuel a st) as [st1|] eqn:Hexec; [|done].
  apply (IH st1); [|done]. clear IH Hrun.
  destruct a as [n now new_subs events| | |events|events|s|i]; simpl in Hexec.
  - unfold load in Hexec. destruct (n <? length events)%nat; [done|].
    cbn [receive] in Hexec. destruct (shouldDefer (opts st)).
    + destruct (deferOrphans _ _) as [ok1 st4] eqn:H4.
      destruct (deferAncient now ok1 st4) as [ok2 st5] eqn:H5.
      apply Hadd in Hexec. rewrite Hexec.
      pose proof (deferAncient_frame now ok1 st4) as Hf5. rewrite H5 in Hf5.
      simpl in Hf5. destruct Hf5 as (_ & _ & _ & _ & -> & _).
      match type of H4 with deferOrphans ?l ?s = _ =>
        pose proof (deferOrphans_frame l s) as Hf4 end.
      rewrite H4 in Hf4. simpl in Hf4.
      by destruct Hf4 as (_ & _ & _ & _ & -> & _).
    + apply Hadd in Hexec. by rewrite Hexec.
  - unfold loadBuffer in Hexec.
    destruct (addToFeed fuel (buffer st) st) as [st2|] eqn:Ha; [|done].
    inversion Hexec; subst. apply Hadd in Ha. simpl. by rewrite Ha.
  - by inversion Hexec; subst.
  - unfold onLiveBatch in Hexec. destruct (listening st); [|done].
    by inversion Hexec; subst.
  - unfold onParentBatch in Hexec. destruct (shouldLoadParents (opts st)); [|done].
    by inversion Hexec; subst.
  - by inversion Hexec; subst.
  - unfold onTimer in Hexec. destruct (timers st !! i) as [[d defer]|]; [|done].
    apply Hadd in Hexec. by rewrite Hexec.
Qed.

(** The part of the feed invariant that every run keeps.  After every
    sequence of actions on a new loader, the feed has no two entries
    with one id and no entry of a reaction kind, no [replies] array has
    two entries with one id, and whatever the next action does to the
    feed is to append a chunk that is sorted by [created_at], most recent
    first, ties allowed. *)
Theorem feed_invariant_after_every_action o live_sub cursor_subs fuel acts st :
  run fuel acts (construct o live_sub cursor_subs) = Some st →
  uniqueIds (notes st)
  ∧ Forall (λ e, isReaction e = false) (notes st)
  ∧ repliesUnique (store st)
  ∧ ∀ a st', exec fuel a st = Some st' →
      ∃ chunk, notes st' = notes st ++ chunk ∧ sortedDescending chunk.
Proof.
  intros Hrun.
  assert (Hinv : feedInvariant st).
  { eapply run_invariant; [apply construct_invariant | exact Hrun]. }
  destruct Hinv as (Hids & Hkinds & Hreplies) eqn:Heq. clear Heq.
  repeat split; try done.
  intros a st' Hexec. by apply exec_step in Hexec as [_ Hchunk].
Qed.

(** C1 (what the code does).  The feed is not kept in order.  On a
    loader that listens, a live event that [discardEvents] lets through,
    that is no reply and of no reaction kind, and whose id is not in the
    feed, is put by [loadBuffer] at the end of the feed, behind every
    note the feed holds: when one of these is older, the feed is no more
    sorted by [created_at], most recent first, even with ties allowed. *)
Theorem live_event_lands_behind_older_notes
    o live_sub cursor_subs fuel acts st e older :
  run fuel acts (construct o live_sub cursor_subs) = Some st →
  listening st = true → buffer st = [] →
  isEventMuted e = false →
  truthy (findReplyId e) = false →
  includes (kind e) reactionKinds = false →
  id e ∉ eid <$> notes st →
  older ∈ notes st → created_at (event older) < created_at e →
  ∃ st', run 1 [LiveBatch [e]; CallLoadBuffer] st = Some st'
         ∧ notes st' = notes st ++ [mkDisplay e (next_slot st)]
         ∧ ¬ sortedDescending (notes st').
Proof.
  intros Hrun Hl Hb Hm Hr Hk Hid Hold Hlt.
  assert (Hinv : feedInvariant st).
  { eapply run_invariant; [apply construct_invariant | exact Hrun]. }
  destruct Hinv as (Hids & _ & _).
  set (e' := mkDisplay e (next_slot st)).
  assert (Hnotes : uniqBy eid (notes st ++ [e']) = notes st ++ [e']).
  { apply uniqBy_fixed. rewrite fmap_app. apply NoDup_app.
    split; [exact Hids|]. split; [|apply NoDup_singleton].
    intros x Hx Hx'. apply list_elem_of_singleton in Hx'. by subst x. }
  assert (Hlive : onLiveBatch [e] st
                  = Some (set_buffer [e'] (set_next_slot (next_slot st + 1)%nat st))).
  { unfold onLiveBatch. rewrite Hl. cbn [receive imap length].
    unfold discardEvents. cbn [List.filter event buffer set_next_slot].
    rewrite Hm, Hr, andb_false_r, Hb, Nat.add_0_r. done. }
  assert (Hload : ∃ st', loadBuffer 1
                    (set_buffer [e'] (set_next_slot (next_slot st + 1)%nat st))
                  = Some st'
                  ∧ notes st' = notes st ++ [e']).
  { unfold loadBuffer, addToFeed, buildFeedChunk.
    cbn [buffer set_buffer set_next_slot notes parents store climbAll climb event].
    change (event e') with e. rewrite Hr. cbn [negb app List.filter].
    unfold keepInChunk. change (eid e') with (id e). change (event e') with e.
    rewrite (bool_decide_eq_false_2 _ Hid), Hk.
    unfold uniqBy. cbn [uniqByFrom].
    rewrite bool_decide_eq_false_2 by (by intros H; inversion H).
    cbn [uniqByFrom sortBy foldr insertBy].
    eexists. split; [reflexivity|]. cbn [notes set_buffer set_notes]. exact Hnotes. }
  destruct Hload as (st' & Hload & Hn'). exists st'.
  split; [|split; [exact Hn'|]].
  - cbn [run exec]. rewrite Hlive. cbn [exec]. by rewrite Hload.
  - rewrite Hn'. intros Hsorted.
    pose proof (StronglySorted_app_1_elem_of _ _ _ older e' Hsorted Hold
                  ltac:(by left)) as Hle.
    unfold newerFirst in Hle. simpl in Hle. lia.
Qed.

(** C10.  Whatever [buildFeedChunk] leaves in a [replies] array was
    there before or is an event of a note kind. *)
Theorem replies_gain_only_notes fuel st new_notes h chunk :
  buildFeedChunk fuel st new_notes = Some (h, chunk) →
  ∀ s r, r ∈ repliesAt h s → r ∈ repliesAt (store st) s ∨ isNote r = true.
Proof. intros Hb. by apply buildFeedChunk_spec in Hb as (_ & _ & _ & _ & Ho). Qed.

(** C5 (as the code has it).  The list of previously deferred events
    is empty at all times.  A timer that fires adds its events to the
    feed as one chunk, sets no new timer and defers nothing.  With
    [shouldDefer], [load] sends what it took through the orphan pass
    (when parents are loaded) and then the ancient pass, sets one timer
    per pass for what the pass holds back, and adds the rest. *)
Theorem deferred_events_are_added_directly o live_sub cursor_subs fuel acts st :
  run fuel acts (construct o live_sub cursor_subs) = Some st →
  deferred st = []
  ∧ (∀ i st', onTimer fuel i st = Some st' →
       ∃ delay defer h chunk,
         timers st !! i = Some (delay, defer)
         ∧ buildFeedChunk fuel st defer = Some (h, chunk)
         ∧ notes st' = notes st ++ chunk
         ∧ timers st' = delete i (timers st)
         ∧ deferred st' = [])
  ∧ (∀ n now new_subs events st',
       shouldDefer (opts st) = true →
       load fuel n now new_subs events st = Some st' →
       let fresh := discardEvents (opts st) (receive events st).1 in
       let rest :=
         if shouldLoadParents (opts st)
         then List.filter (λ e, negb (isOrphan (parents st) e)) fresh
         else fresh in
       let cutoff := now - guessFilterDelta (filters (opts st)) in
       timers st'
       = timers st
         ++ (if shouldLoadParents (opts st)
             then [(1500%nat, List.filter (isOrphan (parents st)) fresh)]
             else [])
         ++ [(4000%nat, List.filter (λ e, created_at (event e) <? cutoff) rest)]
       ∧ ∃ h chunk,
           buildFeedChunk fuel st
             (List.filter (λ e, negb (created_at (event e) <? cutoff)) rest)
           = Some (h, chunk)
           ∧ notes st' = notes st ++ chunk).
Proof.
  intros Hrun.
  assert (Hinv : feedInvariant st).
  { eapply run_invariant; [apply construct_invariant | exact Hrun]. }
  assert (Hd : deferred st = []).
  { eapply run_deferred_nil; [|exact Hrun]. done. }
  split; [done|]. split.
  - intros i st'. unfold onTimer.
    destruct (timers st !! i) as [[delay defer]|] eqn:Hi; [|done].
    intros Hadd.
    apply addToFeed_appends in Hadd as (h & chunk & Hb & -> & _ & _); [|done].
    exists delay, defer, h, chunk. repeat split; try done.
  - intros n now new_subs events st' Hdefer. unfold load.
    destruct (n <? length events)%nat; [done|].
    unfold deferOrphans, deferAncient.
    destruct st as [o' stp sbs buf nts ps dfr lst sto nxt tms cls].
    simpl in Hd, Hdefer. subst dfr. cbn -[discardEvents buildFeedChunk addToFeed].
    rewrite Hdefer, app_nil_r.
    destruct (shouldLoadParents o'); cbn [negb];
      rewrite !partition_as_filter; cbn -[discardEvents buildFeedChunk addToFeed];
      intros Hadd;
      apply addToFeed_appends in Hadd as (h & chunk & Hb & -> & _ & _); try done.
    + split; [by rewrite <- app_assoc|].
      exists h, chunk. split; [|done]. rewrite <- Hb.
      by apply buildFeedChunk_reads.
    + split; [done|].
      exists h, chunk. split; [|done]. rewrite <- Hb.
      by apply buildFeedChunk_reads.
Qed.
End FeedClaims.

(* ================================================================== *)
(** * The feed claims on the example data *)
(* ================================================================== *)

Open Scope string_scope.
Open Scope list_scope.

Lemma feed_invariant_after_every_action_witness :
  let st := after threadedPage deferringLoader in
  uniqueIds (notes st)
  ∧ Forall (λ e, isReaction (env:=exampleEnv) e = false) (notes st)
  ∧ repliesUnique (store st)
  ∧ ∀ a st', exec (env:=exampleEnv) 3 a st = Some st' →
      ∃ chunk, notes st' = notes st ++ chunk ∧ sortedDescending chunk.
Proof.
  apply (feed_invariant_after_every_action (env:=exampleEnv)
           (exampleOpts true true) 0%nat [1%nat] 3 threadedPage).
  vm_compute. reflexivity.
Defined.

(** Two live events that are moved to the feed one after the other
    stay in the order of their arrival: the older one is in front.  Two
    events of the same second that arrive together are both in the feed,
    neither strictly before the other. *)
Lemma feed_out_of_order_after_two_buffers :
  (∃ st, run (env:=exampleEnv) 1 twoBuffers plainLoader = Some st
         ∧ created_at ∘ event <$> notes st = [100; 200]
         ∧ ¬ strictlyDescending (notes st)
         ∧ ¬ sortedDescending (notes st))
  ∧ (∃ st, run (env:=exampleEnv) 1 tiedBuffer plainLoader = Some st
           ∧ created_at ∘ event <$> notes st = [100; 100]
           ∧ ¬ strictlyDescending (notes st)).
Proof.
  split.
  - eexists. split; [vm_compute; reflexivity|]. split; [reflexivity|].
    split; intros Hs; inversion Hs as [|? ? _ Hall]; subst;
      apply Forall_cons in Hall as [Hlt _];
      unfold strictlyNewerFirst, newerFirst in Hlt; simpl in Hlt; lia.
  - eexists. split; [vm_compute; reflexivity|]. split; [reflexivity|].
    intros Hs; inversion Hs as [|? ? _ Hall]; subst.
    apply Forall_cons in Hall as [Hlt _].
    unfold strictlyNewerFirst in Hlt; simpl in Hlt; lia.
Qed.

Lemma live_event_lands_behind_older_notes_witness :
  let st := after firstBuffer plainLoader in
  feedIds st = ["a"]
  ∧ ∃ st', run (env:=exampleEnv) 1 [LiveBatch [note "b" 200]; CallLoadBuffer] st
           = Some st'
           ∧ notes st' = notes st ++ [mkDisplay (note "b" 200) (next_slot st)]
           ∧ ¬ sortedDescending (notes st').
Proof.
  split; [vm_compute; reflexivity|].
  apply (live_event_lands_behind_older_notes (env:=exampleEnv)
           (exampleOpts false false) 0%nat [1%nat] 3 firstBuffer
           (after firstBuffer plainLoader) (note "b" 200)
           (mkDisplay (note "a" 100) 0)).
  - vm_compute. reflexivity.
  - reflexivity.
  - reflexivity.
  - reflexivity.
  - reflexivity.
  - reflexivity.
  - compute_done.
  - left.
  - simpl. lia.
Defined.

(** C2 (what the code does).  A live event is in the buffer when
    [stop] is called; [loadBuffer] then puts it in the feed.  A [load]
    after [stop] whose cursor answers with a handle and an event tracks
    the handle and adds the event. *)
Theorem calls_after_stop_change_the_loader :
  let stopped_loader :=
    run (env:=exampleEnv) 1 [LiveBatch [note "a" 100]; CallStop] plainLoader in
  stopped <$> stopped_loader = Some true
  ∧ feedIds <$> stopped_loader = Some []
  ∧ feedIds <$> (stopped_loader ≫= loadBuffer (env:=exampleEnv) 1)
    = Some ["a"]
  ∧ subs <$> stopped_loader = Some [0%nat; 1%nat]
  ∧ (λ st, (subs st, feedIds st))
      <$> (stopped_loader ≫= load (env:=exampleEnv) 1 10 1000 [7%nat] [note "b" 900])
    = Some ([0%nat; 1%nat; 7%nat], ["b"]).
Proof. vm_compute. repeat split. Qed.

(** C3 (what the code does).  [load] holds back an event older than
    the span of the filters; [stop] is called; the timer of the ancient
    pass fires and puts the event in the feed. *)
Theorem timer_after_stop_changes_the_feed :
  let stopped_loader :=
    run (env:=exampleEnv) 1 [CallLoad 10 100000 [] [note "old" 10]; CallStop]
      (construct (exampleOpts true false) 0%nat [1%nat]) in
  stopped <$> stopped_loader = Some true
  ∧ feedIds <$> stopped_loader = Some []
  ∧ timerIds <$> stopped_loader
    = Some [(4000%nat, ["old"])]
  ∧ (λ st, (stopped st, feedIds st))
      <$> (stopped_loader ≫= onTimer (env:=exampleEnv) 1 0)
    = Some (true, ["old"]).
Proof. vm_compute. repeat split. Qed.

(** C5, against the second run through the passes.  The reply [c] is
    held back as an orphan.  When its timer fires its parent is still
    unknown: the code puts [c] in the feed, a second run through the
    orphan pass would hold it back again. *)
Lemma fired_timer_skips_the_passes :
  let loaded := run (env:=exampleEnv) 3 threadedPage deferringLoader in
  timerIds <$> loaded
  = Some [(1500%nat, ["c"]); (4000%nat, [])]
  ∧ feedIds <$> loaded = Some ["b"; "p"]
  ∧ feedIds <$> (loaded ≫= onTimer (env:=exampleEnv) 3 0)
    = Some ["b"; "p"; "c"]
  ∧ feedIds <$> (loaded ≫= onTimerReentering (env:=exampleEnv) 3 1002 0)
    = Some ["b"; "p"]
  ∧ (loaded ≫= onTimer (env:=exampleEnv) 3 0)
    ≠ (loaded ≫= onTimerReentering (env:=exampleEnv) 3 1002 0).
Proof.
  vm_compute. repeat split. intros Heq. discriminate Heq.
Qed.

Lemma deferred_events_are_added_directly_witness :
  let st := after threadedPage deferringLoader in
  deferred st = []
  ∧ ∀ i st', onTimer (env:=exampleEnv) 3 i st = Some st' →
      ∃ delay defer h chunk,
        timers st !! i = Some (delay, defer)
        ∧ buildFeedChunk (env:=exampleEnv) 3 st defer = Some (h, chunk)
        ∧ notes st' = notes st ++ chunk
        ∧ timers st' = delete i (timers st)
        ∧ deferred st' = [].
Proof.
  assert (Hrun : run (env:=exampleEnv) 3 threadedPage deferringLoader
                 = Some (after threadedPage deferringLoader))
    by (vm_compute; reflexivity).
  destruct (deferred_events_are_added_directly (env:=exampleEnv)
              (exampleOpts true true) 0%nat [1%nat] 3 threadedPage _ Hrun)
    as (Hnone & Htimer & _).
  split; [exact Hnone | exact Htimer].
Defined.

Lemma replies_gain_only_notes_witness :
  buildFeedChunk (env:=exampleEnv) 3 parentLoaded replyAndReaction
  = Some (chunkOn parentLoaded replyAndReaction)
  ∧ ∀ s r, r ∈ repliesAt (chunkOn parentLoaded replyAndReaction).1 s →
           r ∈ repliesAt (store parentLoaded) s
           ∨ isNote (env:=exampleEnv) r = true.
Proof.
  assert (Hb : buildFeedChunk (env:=exampleEnv) 3 parentLoaded replyAndReaction
               = Some ((chunkOn parentLoaded replyAndReaction).1,
                       (chunkOn parentLoaded replyAndReaction).2))
    by (vm_compute; reflexivity).
  split.
  - rewrite Hb. by destruct (chunkOn parentLoaded replyAndReaction).
  - exact (replies_gain_only_notes (env:=exampleEnv) 3 parentLoaded
             replyAndReaction _ _ Hb).
Defined.

(** The reply is under its parent, the reaction is not. *)
Example reaction_is_not_attached :
  eid <$> repliesAt (chunkOn parentLoaded replyAndReaction).1 0 = ["a"].
Proof. vm_compute. reflexivity. Qed.

Close Scope string_scope.

(* ================================================================== *)
(** * Facts about the selection *)
(* ================================================================== *)

Section SelectFacts.
Context `{renv : RelayEnv}.

(** What the loop keeps true of its two lists. *)
Lemma scanHints_lists limit urls : ∀ seen ok bad ok' bad',
  scanHints limit urls seen ok bad = (ok', bad') →
  Forall (λ u, relayIsLowQuality u = false) ok →
  Forall (λ u, relayIsLowQuality u = true) bad →
  Forall (λ u, isShareableRelay u = true) (ok ++ bad) →
  Forall (λ u, relayIsLowQuality u = false) ok'
  ∧ Forall (λ u, relayIsLowQuality u = true) bad'
  ∧ Forall (λ u, isShareableRelay u = true) (ok' ++ bad').
Proof.
  induction urls as [|url rest IH]; intros seen ok bad ok' bad' Hscan Hok Hbad Hsh;
    simpl in Hscan.
  - by inversion Hscan; subst.
  - case_bool_decide; [by eapply IH|].
    destruct (isShareableRelay url) eqn:Hurl; simpl in Hscan; [|by eapply IH].
    apply Forall_app in Hsh as [Hsh1 Hsh2].
    destruct (relayIsLowQuality url) eqn:Hq.
    + assert (Hbad1 : Forall (λ u, relayIsLowQuality u = true) (bad ++ [url])).
      { apply Forall_app. split; [done|]. by constructor. }
      assert (Hsh' : Forall (λ u, isShareableRelay u = true) (ok ++ bad ++ [url])).
      { rewrite !Forall_app. repeat split; try done. by constructor. }
      destruct (limit <? length ok)%nat; [by inversion Hscan; subst|].
      by eapply IH.
    + assert (Hok1 : Forall (λ u, relayIsLowQuality u = false) (ok ++ [url])).
      { apply Forall_app. split; [done|]. by constructor. }
      assert (Hsh' : Forall (λ u, isShareableRelay u = true) ((ok ++ [url]) ++ bad)).
      { rewrite !Forall_app. repeat split; try done. by constructor. }
      destruct (limit <? length (ok ++ [url]))%nat; [by inversion Hscan; subst|].
      by eapply IH.
Qed.

Lemma scanHints_grows limit urls : ∀ seen ok bad ok' bad',
  scanHints limit urls seen ok bad = (ok', bad') →
  (length ok + length bad ≤ length ok' + length bad')%nat.
Proof.
  induction urls as [|url rest IH]; intros seen ok bad ok' bad' Hscan;
    simpl in Hscan.
  - by inversion Hscan; subst.
  - case_bool_decide; [by eapply IH|].
    destruct (isShareableRelay url); simpl in Hscan; [|by eapply IH].
    destruct (relayIsLowQuality url).
    + destruct (limit <? length ok)%nat.
      * inversion Hscan; subst. rewrite length_app. simpl. lia.
      * apply IH in Hscan. rewrite length_app in Hscan. simpl in Hscan. lia.
    + destruct (limit <? length (ok ++ [url]))%nat.
      * inversion Hscan; subst. rewrite length_app. simpl. lia.
      * apply IH in Hscan. rewrite length_app in Hscan. simpl in Hscan. lia.
Qed.

(** The lists stay empty exactly when no URL of the scan is shareable. *)
Lemma scanHints_nil limit urls : ∀ seen,
  Forall (λ u, isShareableRelay u = false) seen →
  scanHints limit urls seen [] [] = ([], [])
  ↔ Forall (λ u, isShareableRelay u = false) urls.
Proof.
  induction urls as [|url rest IH]; intros seen Hseen; simpl.
  - split; [constructor | done].
  - case_bool_decide as Hin.
    + rewrite IH by done. split.
      * intros Hrest. constructor; [|done].
        rewrite Forall_forall in Hseen. by apply Hseen.
      * intros Hall. by apply Forall_cons in Hall as [_ Hall].
    + destruct (isShareableRelay url) eqn:Hurl; simpl.
      * split.
        2:{ intros Hall. apply Forall_cons in Hall as [Hall _]. congruence. }
        intros Hscan. exfalso.
        destruct (relayIsLowQuality url); simpl in Hscan.
        -- apply scanHints_grows in Hscan. simpl in Hscan. lia.
        -- destruct (limit <? 1)%nat; [done|].
           apply scanHints_grows in Hscan. simpl in Hscan. lia.
      * rewrite IH by (by constructor). split.
        -- intros Hrest. by constructor.
        -- intros Hall. by apply Forall_cons in Hall as [_ Hall].
Qed.

Lemma selectHints_split hints limit :
  ∃ ok bad,
    scanHints (orElse limit relay_limit)
      (hints ++ userReadRelayUrls ++ DEFAULT_RELAYS) [] [] [] = (ok, bad)
    ∧ selectHints hints limit = take (orElse limit relay_limit) (ok ++ bad).
Proof.
  unfold selectHints.
  destruct (scanHints _ _ [] [] []) as [ok bad]. by exists ok, bad.
Qed.

Lemma selectHints_shareable hints limit :
  Forall (λ u, isShareableRelay u = true) (selectHints hints limit).
Proof.
  destruct (selectHints_split hints limit) as (ok & bad & Hscan & ->).
  apply scanHints_lists in Hscan as (_ & _ & Hsh); try by constructor.
  by apply Forall_take.
Qed.
End SelectFacts.

(* ================================================================== *)
(** * Facts about the weights *)
(* ================================================================== *)

Section ScoreFacts.
Open Scope R_scope.

Lemma Rltb_true a b : a < b → Rltb a b = true.
Proof. intros Hab. unfold Rltb. by destruct (Rlt_dec a b). Qed.

Lemma Rltb_false a b : ¬ a < b → Rltb a b = false.
Proof. intros Hab. unfold Rltb. by destruct (Rlt_dec a b). Qed.

Lemma ln_monotone x y : 0 < x → x <= y → ln x <= ln y.
Proof.
  intros Hx [Hlt | ->]; [|lra]. apply Rlt_le. by apply ln_increasing.
Qed.

(** With the same count, the final weight grows with the score. *)
Lemma finalWeight_grows n t1 t2 :
  count t1 = count t2 → score t1 < score t2 →
  finalWeight n t1 < finalWeight n t2.
Proof.
  intros Hc Hs. unfold finalWeight. rewrite Hc.
  apply Rplus_lt_compat_l, ln_increasing.
  - pose proof (exp_pos (score t1 - IZR (Z.of_nat (count t2)))). lra.
  - apply Rplus_lt_compat_l, exp_increasing. lra.
Qed.

Lemma finalWeight_same n t1 t2 :
  count t1 = count t2 → score t1 = score t2 →
  finalWeight n t1 = finalWeight n t2.
Proof. intros Hc Hs. unfold finalWeight. by rewrite Hc, Hs. Qed.

(** A URL counted at least as often as there are lists, with a score
    below its count, weighs less than [ln 2]. *)
Lemma finalWeight_below n t :
  (0 < n)%nat → (n ≤ count t)%nat → score t < IZR (Z.of_nat (count t)) →
  finalWeight n t < ln 2.
Proof.
  intros Hn Hc Hs. unfold finalWeight.
  assert (Hn' : 0 < IZR (Z.of_nat n)) by (apply IZR_lt; lia).
  assert (Hc' : IZR (Z.of_nat n) <= IZR (Z.of_nat (count t))) by (apply IZR_le; lia).
  assert (Hq : 0 < IZR (Z.of_nat n) / IZR (Z.of_nat (count t)) <= 1).
  { split.
    - apply Rdiv_lt_0_compat; lra.
    - replace 1 with (IZR (Z.of_nat (count t)) / IZR (Z.of_nat (count t)))
        by (field; lra).
      apply Rmult_le_compat_r; [|lra].
      apply Rlt_le, Rinv_0_lt_compat. lra. }
  assert (Hl : ln (IZR (Z.of_nat n) / IZR (Z.of_nat (count t))) <= 0).
  { rewrite <- ln_1. apply ln_monotone; lra. }
  assert (He : exp (score t - IZR (Z.of_nat (count t))) < 1).
  { rewrite <- exp_0. apply exp_increasing. lra. }
  pose proof (exp_pos (score t - IZR (Z.of_nat (count t)))) as Hp.
  assert (ln (1 + exp (score t - IZR (Z.of_nat (count t)))) < ln 2).
  { apply ln_increasing; lra. }
  lra.
Qed.

(** A URL counted once among at least two lists weighs more than
    [ln 2]. *)
Lemma finalWeight_above n t :
  (2 ≤ n)%nat → count t = 1%nat → ln 2 < finalWeight n t.
Proof.
  intros Hn Hc. unfold finalWeight. rewrite Hc.
  change (Z.of_nat 1) with 1%Z.
  assert (Hn' : 2 <= IZR (Z.of_nat n)) by (apply IZR_le; lia).
  assert (Hl : ln 2 <= ln (IZR (Z.of_nat n) / 1)).
  { apply ln_monotone; lra. }
  pose proof (exp_pos (score t - 1)) as Hp.
  assert (0 < ln (1 + exp (score t - 1))).
  { rewrite <- ln_1. apply ln_increasing; lra. }
  lra.
Qed.
Lemma exp_minus_two : exp (-2) < / 2.
Proof.
  replace (-2) with (- (2)) by lra.
  rewrite exp_Ropp. apply Rinv_lt_contravar.
  - pose proof (exp_pos 2). lra.
  - pose proof (exp_ineq1 2). lra.
Qed.

(** A URL counted at least three times for two lists, with a score two
    below its count, has a negative weight. *)
Lemma finalWeight_negative n t :
  (0 < n)%nat → (3 * n ≤ 2 * count t)%nat →
  score t - IZR (Z.of_nat (count t)) <= -2 →
  finalWeight n t < 0.
Proof.
  intros Hn Hc Hs. unfold finalWeight.
  assert (Hn' : 0 < IZR (Z.of_nat n)) by (apply IZR_lt; lia).
  assert (Hc' : 3 * IZR (Z.of_nat n) <= 2 * IZR (Z.of_nat (count t))).
  { rewrite <- !mult_IZR. apply IZR_le. lia. }
  set (q := IZR (Z.of_nat n) / IZR (Z.of_nat (count t))).
  set (e := exp (score t - IZR (Z.of_nat (count t)))).
  assert (Hq : 0 < q <= 2 / 3).
  { unfold q. split; [apply Rdiv_lt_0_compat; lra|].
    apply Rmult_le_reg_r with (IZR (Z.of_nat (count t))); [lra|].
    unfold Rdiv. rewrite Rmult_assoc, Rinv_l by lra. lra. }
  assert (He : 0 < e < / 2).
  { unfold e. split; [apply exp_pos|].
    destruct Hs as [Hs|Hs].
    - eapply Rlt_trans; [apply exp_increasing, Hs | apply exp_minus_two].
    - rewrite Hs. apply exp_minus_two. }
  rewrite <- ln_mult by lra. rewrite <- ln_1.
  apply ln_increasing; nra.
Qed.

Lemma finalWeight_positive n t :
  (0 < n)%nat → count t = n → 0 < finalWeight n t.
Proof.
  intros Hn Hc. unfold finalWeight. rewrite Hc.
  assert (Hn' : 0 < IZR (Z.of_nat n)) by (apply IZR_lt; lia).
  replace (IZR (Z.of_nat n) / IZR (Z.of_nat n)) with 1 by (field; lra).
  rewrite ln_1, Rplus_0_l.
  pose proof (exp_pos (score t - IZR (Z.of_nat n))).
  rewrite <- ln_1 at 1. apply ln_increasing; lra.
Qed.
End ScoreFacts.

(* ================================================================== *)
(** * Facts about the tally *)
(* ================================================================== *)

Section TallyFacts.
Lemma tallyFrom_fold len hints : ∀ i scores,
  tallyFrom len i hints scores = foldl bumpWith scores (contribsFrom len i hints).
Proof. induction hints as [|h hints IH]; intros i scores; simpl; [done|]. apply IH. Qed.

Lemma tally_fold groups :
  tally groups = foldl bumpWith [] (contributions groups).
Proof.
  unfold tally, contributions. generalize (@nil (string * Tally)).
  induction groups as [|g groups IH]; intros scores; simpl; [done|].
  by rewrite foldl_app, <- tallyFrom_fold.
Qed.

Lemma entryOf_bump_eq hint s scores :
  inheritedName hint = false →
  entryOf (bump hint s scores) hint = bumpEntry (entryOf scores hint) s.
Proof.
  intros Hown. unfold bump. rewrite Hown.
  unfold entryOf. induction scores as [|[h t] scores IH]; simpl.
  - by rewrite bool_decide_eq_true_2.
  - case_bool_decide as Hh; simpl.
    + by rewrite bool_decide_eq_true_2.
    + by rewrite bool_decide_eq_false_2.
Qed.

Lemma entryOf_bump_ne hint other s scores :
  other ≠ hint → entryOf (bump hint s scores) other = entryOf scores other.
Proof.
  intros Hne. unfold bump. destruct (inheritedName hint); [done|].
  unfold entryOf. induction scores as [|[h t] scores IH]; simpl.
  - by rewrite bool_decide_eq_false_2.
  - case_bool_decide as Hh; simpl.
    + subst h. by rewrite !bool_decide_eq_false_2 by done.
    + case_bool_decide; [done | apply IH].
Qed.

(** The entry of a name that is not inherited: one addition for every
    time the name is written. *)
Lemma entryOf_fold url ps : ∀ scores,
  inheritedName url = false →
  entryOf (foldl bumpWith scores ps) url
  = foldl bumpEntry (entryOf scores url) (hitsOf ps url).
Proof.
  unfold hitsOf. induction ps as [|[h s] ps IH]; intros scores Hown; simpl; [done|].
  rewrite IH by done. unfold bumpWith. simpl. case_bool_decide as Hh; simpl.
  - subst h. by rewrite entryOf_bump_eq.
  - by rewrite entryOf_bump_ne.
Qed.

(** An inherited name never gets an entry. *)
Lemma entryOf_fold_inherited url ps : ∀ scores,
  inheritedName url = true →
  entryOf (foldl bumpWith scores ps) url = entryOf scores url.
Proof.
  induction ps as [|[h s] ps IH]; intros scores Hin; simpl; [done|].
  rewrite IH by done. unfold bumpWith. simpl.
  destruct (decide (url = h)) as [<-|Hne]; [|by apply entryOf_bump_ne].
  unfold bump. by rewrite Hin.
Qed.

(** Without an array index among the keys, [Object.entries] lists the
    own properties in insertion order. *)
Lemma objectEntries_ordinary {V : Type} (own : list (string * V)) :
  Forall (λ p, isArrayIndex p.1 = false) own → objectEntries own = own.
Proof.
  intros Hall. unfold objectEntries.
  assert (H1 : List.filter (λ p : string * V, isArrayIndex p.1) own = []).
  { induction Hall as [|p l Hp Hl IH]; simpl; [done|]. by rewrite Hp. }
  assert (H2 : List.filter (λ p : string * V, negb (isArrayIndex p.1)) own = own).
  { clear H1. induction Hall as [|p l Hp Hl IH]; simpl; [done|]. rewrite Hp.
    simpl. by rewrite IH. }
  by rewrite H1, H2.
Qed.

Lemma foldl_bumpEntry ss : ∀ o,
  ss ≠ [] →
  ∃ t, foldl bumpEntry o ss = Some t
       ∧ count t = (from_option count 0 o + length ss)%nat
       ∧ score t = (from_option score 0 o + sumR ss)%R.
Proof.
  induction ss as [|s ss IH]; intros o Hne; [done|]. simpl.
  destruct ss as [|s' ss].
  - simpl. eexists. split; [done|]. destruct o; simpl; split; try lia; lra.
  - destruct (IH (bumpEntry o s)) as (t & Ht & Hc & Hs); [done|].
    exists t. split; [done|]. rewrite Hc, Hs.
    destruct o; simpl; split; try lia; lra.
Qed.

Lemma sumR_bound ss :
  Forall (λ s, s <= 1)%R ss → (sumR ss <= IZR (Z.of_nat (length ss)))%R.
Proof.
  induction 1 as [|s ss Hs Hss IH]; simpl.
  { change (Z.of_nat 0) with 0%Z. lra. }
  rewrite Nat2Z.inj_succ, succ_IZR. lra.
Qed.

Lemma sumR_strict ss s :
  Forall (λ s, s <= 1)%R ss → s ∈ ss → (s < 1)%R →
  (sumR ss < IZR (Z.of_nat (length ss)))%R.
Proof.
  intros Hall Hin Hs. induction Hall as [|s' ss Hs' Hss IH]; [by inversion Hin|].
  simpl. rewrite Nat2Z.inj_succ, succ_IZR.
  apply elem_of_cons in Hin as [<-|Hin].
  - apply sumR_bound in Hss. lra.
  - apply IH in Hin. lra.
Qed.

Lemma contribsFrom_hints len hints : ∀ i,
  (contribsFrom len i hints).*1 = hints.
Proof. induction hints as [|h hints IH]; intros i; simpl; [done|]. by rewrite IH. Qed.

Lemma contribution_bound len i :
  (1 ≤ len)%nat →
  (1 / IZR (Z.of_nat i + 1) / IZR (Z.of_nat len) <= 1 / IZR (Z.of_nat len) <= 1)%R.
Proof.
  intros Hlen.
  assert (1 <= IZR (Z.of_nat len))%R by (apply IZR_le; lia).
  assert (1 <= IZR (Z.of_nat i + 1))%R by (apply IZR_le; lia).
  assert (0 < / IZR (Z.of_nat len) <= 1)%R.
  { split; [apply Rinv_0_lt_compat; lra|].
    rewrite <- Rinv_1. apply Rinv_le_contravar; lra. }
  assert (0 < / IZR (Z.of_nat i + 1) <= 1)%R.
  { split; [apply Rinv_0_lt_compat; lra|].
    rewrite <- Rinv_1. apply Rinv_le_contravar; lra. }
  unfold Rdiv. rewrite !Rmult_1_l. split; [|lra].
  rewrite <- (Rmult_1_l (/ IZR (Z.of_nat len))) at 2.
  apply Rmult_le_compat_r; lra.
Qed.

Lemma contribsFrom_bound len hints : ∀ i,
  (1 ≤ len)%nat → Forall (λ p, p.2 <= 1)%R (contribsFrom len i hints).
Proof.
  induction hints as [|h hints IH]; intros i Hlen; simpl; constructor; [|by apply IH].
  simpl. pose proof (contribution_bound len i Hlen). lra.
Qed.

Lemma contributions_bound groups :
  Forall (λ p, p.2 <= 1)%R (contributions groups).
Proof.
  unfold contributions. induction groups as [|g groups IH]; simpl; [constructor|].
  apply Forall_app. split; [|done].
  destruct g as [|h g]; [constructor|]. apply contribsFrom_bound. simpl. lia.
Qed.

Lemma contributions_hints groups : (contributions groups).*1 = concat groups.
Proof.
  unfold contributions. induction groups as [|g groups IH]; [done|].
  rewrite fmap_cons. cbn [concat]. by rewrite fmap_app, contribsFrom_hints, IH.
Qed.

Lemma hitsOf_length ps url :
  length (hitsOf ps url)
  = length (List.filter (λ h, bool_decide (h = url)) ps.*1).
Proof.
  unfold hitsOf. rewrite length_fmap.
  induction ps as [|[h s] ps IH]; simpl; [done|].
  case_bool_decide; simpl; by rewrite IH.
Qed.

Lemma hitsOf_bound ps url :
  Forall (λ p, p.2 <= 1)%R ps → Forall (λ s, s <= 1)%R (hitsOf ps url).
Proof.
  unfold hitsOf. induction 1 as [|[h s] ps Hs Hps IH]; simpl; [constructor|].
  case_bool_decide; simpl; [by constructor | done].
Qed.

Lemma hitsOf_app ps qs url : hitsOf (ps ++ qs) url = hitsOf ps url ++ hitsOf qs url.
Proof. unfold hitsOf. by rewrite List.filter_app, fmap_app. Qed.

Lemma occurrences_hits groups url :
  length (hitsOf (contributions groups) url) = occurrences groups url.
Proof. by rewrite hitsOf_length, contributions_hints. Qed.

(** The URL at the head of every list is written at least once per
    list. *)
Lemma topOfEvery_occurrences groups url :
  topOfEvery groups url → (length groups ≤ occurrences groups url)%nat.
Proof.
  unfold topOfEvery, occurrences.
  induction 1 as [|g groups Hg Hgs IH]; simpl; [lia|].
  rewrite List.filter_app, length_app.
  destruct g as [|h g]; [done|]. simpl in Hg. inversion Hg; subst.
  simpl. rewrite bool_decide_eq_true_2 by done. simpl. lia.
Qed.

(** In a list of two or more, the head adds less than one. *)
Lemma long_list_hit groups g url :
  g ∈ groups → head g = Some url → (2 ≤ length g)%nat →
  ∃ s, s ∈ hitsOf (contributions groups) url ∧ (s < 1)%R.
Proof.
  intros Hin Hhead Hlen. unfold contributions.
  induction groups as [|g' groups IH]; [by inversion Hin|].
  simpl. rewrite hitsOf_app.
  apply elem_of_cons in Hin as [<-|Hin].
  - destruct g as [|h rest]; [done|]. simpl in Hhead. inversion Hhead; subst.
    exists (1 / IZR (Z.of_nat 0 + 1) / IZR (Z.of_nat (length (url :: rest))))%R.
    split.
    + apply elem_of_app. left. unfold hitsOf. simpl.
      rewrite bool_decide_eq_true_2 by done. simpl. by left.
    + assert (2 <= IZR (Z.of_nat (length (url :: rest))))%R by (apply IZR_le; lia).
      change (Z.of_nat 0 + 1)%Z with 1%Z. unfold Rdiv. rewrite Rmult_1_l, Rinv_1, Rmult_1_l.
      rewrite <- Rinv_1. apply Rinv_lt_contravar; lra.
  - destruct (IH Hin) as (s & Hs & Hlt). exists s. split; [|done].
    apply elem_of_app. by right.
Qed.

Lemma weightOf_entry groups url :
  weightOf groups url = finalWeight (length groups) <$> entryOf (tally groups) url.
Proof.
  unfold weightOf, entryOf, weigh. generalize (length groups). intros n.
  induction (tally groups) as [|[h t] scores IH]; simpl; [done|].
  case_bool_decide; simpl; [done | apply IH].
Qed.
End TallyFacts.

(* ================================================================== *)
(** * Claims about the relays *)
(* ================================================================== *)

Section RelayClaims.
Context `{renv : RelayEnv}.

(** C8.  A selection is a run of healthy URLs followed by a run of
    low-quality URLs. *)
Theorem healthy_before_low_quality hints limit :
  ∃ healthy low,
    selectHints hints limit = healthy ++ low
    ∧ Forall (λ u, relayIsLowQuality u = false) healthy
    ∧ Forall (λ u, relayIsLowQuality u = true) low.
Proof.
  destruct (selectHints_split hints limit) as (ok & bad & Hscan & ->).
  apply scanHints_lists in Hscan as (Hok & Hbad & _); try by constructor.
  exists (take (orElse limit relay_limit) ok),
         (take (orElse limit relay_limit - length ok) bad).
  split; [apply take_app|]. split; by apply Forall_take.
Qed.

(** C7 (as the code has it).  With a limit of one or more, selecting
    from merged lists gives at most that many URLs, all shareable. *)
Theorem merge_then_select_bounded groups mergeLimit k :
  (1 ≤ k)%nat →
  (length (selectHints (mergeHints groups mergeLimit) (Some k)) ≤ k)%nat
  ∧ Forall (λ u, isShareableRelay u = true)
      (selectHints (mergeHints groups mergeLimit) (Some k)).
Proof.
  intros Hk. split; [|apply selectHints_shareable].
  destruct (selectHints_split (mergeHints groups mergeLimit) (Some k))
    as (ok & bad & _ & ->).
  rewrite length_take. destruct k as [|k]; [lia|]. unfold orElse. lia.
Qed.

(** C6 (as the code has it).  Merging no lists gives no URL.
    Selecting from no candidates is selecting from the read relays of
    the user and the default relays; it gives no URL exactly when the
    limit in force is zero or none of those URLs is shareable. *)
Theorem empty_input_results limit :
  mergeHints [] limit = []
  ∧ (selectHints [] limit = []
     ↔ orElse limit relay_limit = 0%nat
       ∨ Forall (λ u, isShareableRelay u = false)
           (userReadRelayUrls ++ DEFAULT_RELAYS)).
Proof.
  split.
  { unfold mergeHints, rankHints, weigh, tally. simpl. by rewrite take_nil. }
  destruct (selectHints_split [] limit) as (ok & bad & Hscan & ->).
  simpl in Hscan.
  pose proof (scanHints_nil (orElse limit relay_limit)
                (userReadRelayUrls ++ DEFAULT_RELAYS) []) as Hnil.
  rewrite Hscan in Hnil. rewrite <- Hnil by constructor.
  destruct (orElse limit relay_limit) as [|m]; [by split; [left|]|].
  split.
  - intros Htake. right. destruct ok, bad; simpl in Htake; done.
  - intros [Hm|Heq]; [done|]. by inversion Heq.
Qed.
End RelayClaims.

Section ScoreClaims.
Open Scope R_scope.

(** C4 (what the code does).  For the lists [x, y, z] and [x, z, y] the
    ranking is [y], [z], [x]: [y] and [z] tie and [x], at the top of
    both lists, has the largest weight and comes last.  The three are
    distinct keys that an object lists where they were inserted, as
    every URL is: no name inherited from [Object.prototype], for which
    there is no entry, and no array index, which [Object.entries] moves
    to the front. *)
Theorem top_of_both_lists_ranks_last (x y z : string) :
  ordinaryKey x = true → ordinaryKey y = true → ordinaryKey z = true →
  x ≠ y → x ≠ z → y ≠ z →
  ∃ w wx, rankHints [[x; y; z]; [x; z; y]] = [(y, w); (z, w); (x, wx)]
          ∧ w < wx.
Proof.
  intros Hx Hy Hz Hxy Hxz Hyz.
  apply andb_true_iff in Hx as [Hx Hix], Hy as [Hy Hiy], Hz as [Hz Hiz].
  apply negb_true_iff in Hx, Hy, Hz, Hix, Hiy, Hiz.
  set (ty := mkTally (0 + 1 / IZR (Z.of_nat 1 + 1) / IZR (Z.of_nat 3)
                        + 1 / IZR (Z.of_nat 2 + 1) / IZR (Z.of_nat 3)) (0 + 1 + 1)).
  set (tz := mkTally (0 + 1 / IZR (Z.of_nat 2 + 1) / IZR (Z.of_nat 3)
                        + 1 / IZR (Z.of_nat 1 + 1) / IZR (Z.of_nat 3)) (0 + 1 + 1)).
  set (tx := mkTally (0 + 1 / IZR (Z.of_nat 0 + 1) / IZR (Z.of_nat 3)
                        + 1 / IZR (Z.of_nat 0 + 1) / IZR (Z.of_nat 3)) (0 + 1 + 1)).
  assert (Ht : tally [[x; y; z]; [x; z; y]] = [(x, tx); (y, ty); (z, tz)]).
  { unfold tally. cbn [foldl tallyFrom length]. unfold bump.
    rewrite Hx, Hy, Hz. cbn [addToEntry].
    repeat first
      [ rewrite bool_decide_eq_true_2 by done
      | rewrite bool_decide_eq_false_2 by congruence
      | progress cbn [addToEntry score count] ].
    done. }
  assert (Hyz' : finalWeight 2 tz = finalWeight 2 ty).
  { apply finalWeight_same; [done|]. simpl. lra. }
  assert (Hyx : finalWeight 2 ty < finalWeight 2 tx).
  { apply finalWeight_grows; [done|]. simpl.
    change (Z.of_nat 0 + 1)%Z with 1%Z. change (Z.of_nat 1 + 1)%Z with 2%Z.
    change (Z.of_nat 2 + 1)%Z with 3%Z. change (Z.of_nat 3) with 3%Z. lra. }
  exists (finalWeight 2 ty), (finalWeight 2 tx). split; [|done].
  unfold rankHints, weigh. rewrite Ht. cbn [fmap list_fmap length].
  rewrite objectEntries_ordinary by (by repeat constructor).
  cbn [sortBy foldr insertBy snd].
  rewrite (Rltb_false (finalWeight 2 tz) (finalWeight 2 ty)) by lra.
  cbn [insertBy snd].
  rewrite (Rltb_true (finalWeight 2 ty) (finalWeight 2 tx)) by done.
  rewrite (Rltb_true (finalWeight 2 tz) (finalWeight 2 tx)) by lra.
  by rewrite Hyz'.
Qed.

(** C9 (as the code has it).  Among two lists or more, the URL at the
    top of every list weighs less than a URL written once in all the
    lists.  Neither of the two is a name inherited from
    [Object.prototype], for which the scores have no entry and no
    weight; no URL is such a name. *)
Theorem top_of_every_list_beats_single groups u v :
  inheritedName u = false → inheritedName v = false →
  (2 ≤ length groups)%nat → topOfEvery groups u → occurrences groups v = 1%nat →
  ranksBetter groups u v.
Proof.
  intros Hou Hov Hn Htop Hv.
  pose proof (topOfEvery_occurrences _ _ Htop) as Hu.
  assert (Huv : u ≠ v) by (intros ->; lia).
  (* the list that holds [v] has [u] in front of it *)
  assert (Hlong : ∃ g, g ∈ groups ∧ head g = Some u ∧ (2 ≤ length g)%nat).
  { assert (Hin : v ∈ concat groups).
    { unfold occurrences in Hv.
      destruct (List.filter _ (concat groups)) as [|h l] eqn:Hf; [done|].
      assert (Hh : In h (List.filter (λ h, bool_decide (h = v)) (concat groups)))
        by (rewrite Hf; by left).
      apply filter_In in Hh as [Hh Heq]. apply bool_decide_eq_true in Heq.
      subst h. by apply list_elem_of_In. }
    apply list_elem_of_In, in_concat in Hin as (g & Hg & Hvg).
    apply list_elem_of_In in Hg, Hvg.
    exists g. split; [done|].
    unfold topOfEvery in Htop. rewrite Forall_forall in Htop.
    pose proof (Htop g Hg) as Hhead. split; [done|].
    destruct g as [|h [|h' g]]; simpl in *; try lia.
    - by inversion Hvg.
    - inversion Hhead; subst. apply list_elem_of_singleton in Hvg. congruence. }
  destruct Hlong as (g & Hg & Hhead & Hlen).
  destruct (long_list_hit groups g u Hg Hhead Hlen) as (s & Hs & Hs1).
  pose proof (contributions_bound groups) as Hbound.
  unfold ranksBetter. rewrite !weightOf_entry, !tally_fold, !entryOf_fold by done.
  change (entryOf [] u) with (@None Tally). change (entryOf [] v) with (@None Tally).
  destruct (foldl_bumpEntry (hitsOf (contributions groups) u) None)
    as (tu & -> & Hcu & Hsu).
  { intros Hnil. by rewrite Hnil in Hs; inversion Hs. }
  destruct (foldl_bumpEntry (hitsOf (contributions groups) v) None)
    as (tv & -> & Hcv & Hsv).
  { intros Hnil. pose proof (occurrences_hits groups v) as Hl.
    rewrite Hnil, Hv in Hl. done. }
  rewrite occurrences_hits in Hcu, Hcv. simpl in Hcu, Hcv, Hsu.
  exists (finalWeight (length groups) tu), (finalWeight (length groups) tv).
  split; [done|]. split; [done|].
  apply Rlt_trans with (ln 2).
  - apply finalWeight_below; [lia | lia |].
    rewrite Hsu, Hcu, <- occurrences_hits, Rplus_0_l.
    eapply sumR_strict; [by apply hitsOf_bound | exact Hs | exact Hs1].
  - apply finalWeight_above; [done | lia].
Qed.
End ScoreClaims.

(* ================================================================== *)
(** * The relay claims on the example data *)
(* ================================================================== *)

Open Scope string_scope.
Open Scope list_scope.

Example shareable_examples :
  isShareableRelay "wss://relay.damus.io/" = true
  ∧ isShareableRelay "wss://nos.lol/" = true
  ∧ isShareableRelay "ws://relay.damus.io/" = false
  ∧ isShareableRelay "wss://localhost/" = false
  ∧ isShareableRelay "wss://relay.damus.io:4848/" = false
  ∧ isShareableRelay "wss://127.0.0.1/" = false
  ∧ isShareableRelay "wss://a.example/ wss://b.example/" = false
  ∧ isShareableRelay "wss://a.example/wss://b.example/" = false
  ∧ isShareableRelay "wss://a.example/%20" = false
  ∧ isShareableRelay "wss://filter.nostr.wine/npub1abc" = false.
Proof. vm_compute. repeat split. Qed.

Lemma top_of_both_lists_ranks_last_witness :
  ∃ w wx,
    rankHints [["wss://x.example/"; "wss://y.example/"; "wss://z.example/"];
               ["wss://x.example/"; "wss://z.example/"; "wss://y.example/"]]
    = [("wss://y.example/", w); ("wss://z.example/", w); ("wss://x.example/", wx)]
    ∧ (w < wx)%R.
Proof.
  apply (top_of_both_lists_ranks_last
           "wss://x.example/" "wss://y.example/" "wss://z.example/"); done.
Defined.

(** The keys of the [scores] object.  A name inherited from
    [Object.prototype] gets no entry and is not returned; array indices
    are listed first, in ascending order, whenever they were inserted;
    a decimal with a leading zero is no array index. *)
Example keys_of_the_scores_object :
  mergeHints (renv:=exampleRelayEnv []) [["toString"]] None = []
  ∧ mergeHints (renv:=exampleRelayEnv []) [["__proto__"; "wss://a.example/"]] None
    = ["wss://a.example/"]
  ∧ weightOf [["toString"; "wss://a.example/"]] "toString" = None
  ∧ (objectEntries
       [("wss://b.example/", 1%nat); ("7", 2%nat); ("10", 3%nat);
        ("07", 4%nat); ("3", 5%nat)]).*1
    = ["3"; "7"; "10"; "wss://b.example/"; "07"].
Proof. repeat split; reflexivity. Qed.

(** Two hints that tie: the array index comes first, although it was
    inserted second. *)
Example array_index_is_listed_first :
  (rankHints [["wss://b.example/"; "1"]; ["1"; "wss://b.example/"]]).*1
  = ["1"; "wss://b.example/"].
Proof.
  set (tb := mkTally (0 + 1 / IZR (Z.of_nat 0 + 1) / IZR (Z.of_nat 2)
                        + 1 / IZR (Z.of_nat 1 + 1) / IZR (Z.of_nat 2)) (0 + 1 + 1)).
  set (t1 := mkTally (0 + 1 / IZR (Z.of_nat 1 + 1) / IZR (Z.of_nat 2)
                        + 1 / IZR (Z.of_nat 0 + 1) / IZR (Z.of_nat 2)) (0 + 1 + 1)).
  assert (He : objectEntries
                 (weigh [["wss://b.example/"; "1"]; ["1"; "wss://b.example/"]])
               = [("1", finalWeight 2 t1); ("wss://b.example/", finalWeight 2 tb)])
    by reflexivity.
  assert (Hsame : finalWeight 2 tb = finalWeight 2 t1).
  { apply finalWeight_same; [done|]. simpl. lra. }
  unfold rankHints. rewrite He. cbn [sortBy foldr insertBy snd].
  rewrite Rltb_false by lra. reflexivity.
Qed.

(** C6, against the empty selection.  With one shareable default relay,
    selecting from no candidates gives that relay. *)
Lemma empty_candidates_fall_back_to_defaults :
  selectHints (renv:=exampleRelayEnv ["wss://relay.damus.io/"]) [] None
  = ["wss://relay.damus.io/"]
  ∧ selectHints (renv:=exampleRelayEnv ["wss://relay.damus.io/"]) [] None ≠ [].
Proof. vm_compute. split; [reflexivity | discriminate]. Qed.

(** C7, against the limit zero.  A limit of zero counts as no limit: the
    [relay_limit] of three is in force and one URL is returned. *)
Lemma limit_zero_is_no_limit :
  selectHints (renv:=exampleRelayEnv [])
    (mergeHints (renv:=exampleRelayEnv []) [["wss://nos.lol/"]] None) (Some 0%nat)
  = ["wss://nos.lol/"]
  ∧ ¬ (length (selectHints (renv:=exampleRelayEnv [])
                 (mergeHints (renv:=exampleRelayEnv []) [["wss://nos.lol/"]] None)
                 (Some 0%nat)) ≤ 0)%nat.
Proof.
  assert (Hm : mergeHints (renv:=exampleRelayEnv []) [["wss://nos.lol/"]] None
               = ["wss://nos.lol/"]) by reflexivity.
  rewrite Hm. vm_compute. split; [reflexivity | lia].
Qed.

Lemma merge_then_select_bounded_witness :
  (length (selectHints (renv:=exampleRelayEnv ["wss://relay.damus.io/"])
             (mergeHints (renv:=exampleRelayEnv ["wss://relay.damus.io/"])
                [["wss://nos.lol/"; "wss://a.example/"]; ["wss://nos.lol/"]] None)
             (Some 2%nat)) ≤ 2)%nat
  ∧ Forall (λ u, isShareableRelay u = true)
      (selectHints (renv:=exampleRelayEnv ["wss://relay.damus.io/"])
         (mergeHints (renv:=exampleRelayEnv ["wss://relay.damus.io/"])
            [["wss://nos.lol/"; "wss://a.example/"]; ["wss://nos.lol/"]] None)
         (Some 2%nat)).
Proof.
  apply (merge_then_select_bounded (renv:=exampleRelayEnv ["wss://relay.damus.io/"])).
  lia.
Defined.

Lemma top_of_every_list_beats_single_witness :
  ranksBetter [["wss://nos.lol/"; "wss://a.example/"]; ["wss://nos.lol/"]]
    "wss://nos.lol/" "wss://a.example/".
Proof.
  apply top_of_every_list_beats_single.
  - reflexivity.
  - reflexivity.
  - simpl. lia.
  - repeat constructor.
  - vm_compute. reflexivity.
Defined.

(** C9, against a single list and against a repeated URL.  In the one
    list [x, y], [x] is at the top of every list and [y] is written once,
    and [y] has the smaller weight.  In the lists [x, y, y, y] and [x],
    [y] is in one list only, and again it is not [x] that has the
    smaller weight. *)
Lemma top_of_every_list_can_lose :
  (topOfEvery [["wss://x.example/"; "wss://y.example/"]] "wss://x.example/"
   ∧ occurrences [["wss://x.example/"; "wss://y.example/"]] "wss://y.example/" = 1%nat
   ∧ ranksBetter [["wss://x.example/"; "wss://y.example/"]]
       "wss://y.example/" "wss://x.example/"
   ∧ ¬ ranksBetter [["wss://x.example/"; "wss://y.example/"]]
         "wss://x.example/" "wss://y.example/")
  ∧ (topOfEvery [["wss://x.example/"; "wss://y.example/"; "wss://y.example/";
                  "wss://y.example/"]; ["wss://x.example/"]] "wss://x.example/"
     ∧ ("wss://y.example/" ∉ ["wss://x.example/"])
     ∧ ¬ ranksBetter [["wss://x.example/"; "wss://y.example/"; "wss://y.example/";
                       "wss://y.example/"]; ["wss://x.example/"]]
           "wss://x.example/" "wss://y.example/").
Proof.
  set (x := "wss://x.example/"). set (y := "wss://y.example/"). split.
  - set (tx := mkTally (0 + 1 / IZR (Z.of_nat 0 + 1) / IZR (Z.of_nat 2)) (0 + 1)).
    set (ty := mkTally (0 + 1 / IZR (Z.of_nat 1 + 1) / IZR (Z.of_nat 2)) (0 + 1)).
    assert (Hx : weightOf [[x; y]] x = Some (finalWeight 1 tx)) by reflexivity.
    assert (Hy : weightOf [[x; y]] y = Some (finalWeight 1 ty)) by reflexivity.
    assert (Hlt : (finalWeight 1 ty < finalWeight 1 tx)%R).
    { apply finalWeight_grows; [done|]. simpl.
      change (Z.of_nat 0 + 1)%Z with 1%Z. change (Z.of_nat 1 + 1)%Z with 2%Z.
      change (Z.of_nat 2) with 2%Z. lra. }
    split; [repeat constructor|]. split; [vm_compute; reflexivity|]. split.
    + by exists (finalWeight 1 ty), (finalWeight 1 tx).
    + intros (wx & wy & Hwx & Hwy & Hw). rewrite Hx in Hwx. rewrite Hy in Hwy.
      inversion Hwx; inversion Hwy; subst. lra.
  - set (tx := mkTally (0 + 1 / IZR (Z.of_nat 0 + 1) / IZR (Z.of_nat 4)
                          + 1 / IZR (Z.of_nat 0 + 1) / IZR (Z.of_nat 1)) (0 + 1 + 1)).
    set (ty := mkTally (0 + 1 / IZR (Z.of_nat 1 + 1) / IZR (Z.of_nat 4)
                          + 1 / IZR (Z.of_nat 2 + 1) / IZR (Z.of_nat 4)
                          + 1 / IZR (Z.of_nat 3 + 1) / IZR (Z.of_nat 4))
                 (0 + 1 + 1 + 1)).
    assert (Hx : weightOf [[x; y; y; y]; [x]] x = Some (finalWeight 2 tx))
      by reflexivity.
    assert (Hy : weightOf [[x; y; y; y]; [x]] y = Some (finalWeight 2 ty))
      by reflexivity.
    assert (Hpos : (0 < finalWeight 2 tx)%R)
      by (apply finalWeight_positive; [lia | reflexivity]).
    assert (Hneg : (finalWeight 2 ty < 0)%R).
    { apply finalWeight_negative; [lia | simpl; lia |]. simpl.
      change (Z.of_nat 1 + 1)%Z with 2%Z. change (Z.of_nat 2 + 1)%Z with 3%Z.
      change (Z.of_nat 3 + 1)%Z with 4%Z. change (Z.of_nat 4) with 4%Z.
      change (Z.of_nat 3) with 3%Z. lra. }
    split; [repeat constructor|]. split.
    + intros Hin. apply list_elem_of_singleton in Hin. discriminate Hin.
    + intros (wx & wy & Hwx & Hwy & Hw). rewrite Hx in Hwx. rewrite Hy in Hwy.
      inversion Hwx; inversion Hwy; subst. lra.
Qed.

Close Scope string_scope.

(* ================================================================== *)
(** * What the selection returns *)
(* ================================================================== *)

Section ScanFacts.
Context `{renv : RelayEnv}.

(** The loop against the lists it could return: what it adds to [ok] is a
    prefix of the healthy URLs it may take, and unless it breaks it adds
    all of them, and all the low-quality ones to [bad]. *)
Lemma scanHints_prefix limit urls : ∀ seen ok bad ok' bad',
  scanHints limit urls seen ok bad = (ok', bad') →
  let E := List.filter isShareableRelay (uniqByFrom (λ u : string, u) seen urls) in
  ∃ taken,
    ok' = ok ++ taken
    ∧ taken `prefix_of` healthyOf E
    ∧ ((taken = healthyOf E ∧ bad' = bad ++ lowQualityOf E)
       ∨ (limit < length ok')%nat).
Proof.
  unfold healthyOf, lowQualityOf.
  induction urls as [|url rest IH]; intros seen ok bad ok' bad' Hscan; simpl in *.
  - inversion Hscan; subst. exists []. rewrite !app_nil_r. by split; [|split; [|left]].
  - case_bool_decide as Hseen; [by apply IH|].
    destruct (isShareableRelay url) eqn:Hurl; simpl in *; rewrite ?Hurl;
      [|by apply IH].
    destruct (relayIsLowQuality url) eqn:Hq; simpl in *; rewrite ?Hq; simpl.
    + destruct (limit <? length ok)%nat eqn:Hlim.
      * inversion Hscan; subst. apply Nat.ltb_lt in Hlim.
        exists []. rewrite app_nil_r. split; [done|]. split; [apply prefix_nil|].
        by right.
      * apply IH in Hscan as (taken & -> & Hpre & Hcase). exists taken.
        split; [done|]. split; [done|].
        destruct Hcase as [[-> ->]|Hbreak]; [left|by right].
        split; [done|]. by rewrite <- app_assoc.
    + destruct (limit <? length (ok ++ [url]))%nat eqn:Hlim.
      * inversion Hscan; subst. apply Nat.ltb_lt in Hlim.
        exists [url]. split; [done|]. split; [|by right].
        by eexists.
      * apply IH in Hscan as (taken & -> & Hpre & Hcase). exists (url :: taken).
        split; [by rewrite <- app_assoc|].
        split; [destruct Hpre as [k ->]; by exists k|].
        destruct Hcase as [[-> ->]|Hbreak]; [by left | right].
        rewrite !length_app in *. simpl in *. lia.
Qed.

(** The loop and the cut together: the first [limit] of the healthy
    eligible URLs followed by the low-quality ones. *)
Lemma scanHints_take limit urls ok bad :
  scanHints limit urls [] [] [] = (ok, bad) →
  take limit (ok ++ bad)
  = take limit (healthyOf (List.filter isShareableRelay (uniq urls))
                ++ lowQualityOf (List.filter isShareableRelay (uniq urls))).
Proof.
  intros Hscan. apply scanHints_prefix in Hscan as (taken & -> & [k Hk] & Hcase).
  simpl in *. unfold uniq, uniqBy, healthyOf in *.
  destruct Hcase as [[-> ->]|Hbreak]; [done|].
  rewrite Hk. rewrite <- app_assoc.
  rewrite !take_app_le by lia. done.
Qed.
End ScanFacts.

Section ListFilterFacts.
Context {A : Type}.

Lemma ListFilter_sublist (p : A → bool) l : List.filter p l `sublist_of` l.
Proof.
  induction l as [|x l IH]; simpl; [constructor|].
  destruct (p x); by constructor.
Qed.

Lemma ListFilter_NoDup (p : A → bool) l : NoDup l → NoDup (List.filter p l).
Proof. intros Hl. eapply sublist_NoDup; [done | apply ListFilter_sublist]. Qed.

Lemma ListFilter_elem (p : A → bool) l x :
  x ∈ List.filter p l ↔ x ∈ l ∧ p x = true.
Proof. rewrite !(list_elem_of_In). apply filter_In. Qed.

Lemma ListFilter_split_length (p : A → bool) l :
  (length (List.filter (λ x, negb (p x)) l) + length (List.filter p l)
   = length l)%nat.
Proof.
  induction l as [|x l IH]; simpl; [done|]. destruct (p x); simpl; lia.
Qed.

Lemma ListFilter_split_NoDup (p : A → bool) l :
  NoDup l → NoDup (List.filter (λ x, negb (p x)) l ++ List.filter p l).
Proof.
  intros Hl. apply NoDup_app. split; [by apply ListFilter_NoDup|].
  split; [|by apply ListFilter_NoDup].
  intros x Hx Hx'. apply ListFilter_elem in Hx as [_ Hx].
  apply ListFilter_elem in Hx' as [_ Hx']. rewrite Hx' in Hx. done.
Qed.
End ListFilterFacts.

Lemma uniq_NoDup l : NoDup (uniq l).
Proof.
  pose proof (uniqBy_NoDup (λ u : string, u) l) as Hnd.
  assert (Hid : ∀ k : list string, (λ u : string, u) <$> k = k)
    by (intros k; induction k as [|x k IH]; [done|];
        rewrite fmap_cons; by rewrite IH).
  by rewrite Hid in Hnd.
Qed.

Lemma uniq_elem u l : u ∈ uniq l → u ∈ l.
Proof. apply uniqBy_elem. Qed.

(** Every member has its first occurrence kept. *)
Lemma uniqByFrom_complete (met l : list string) u :
  u ∈ l → u ∉ met → u ∈ uniqByFrom (λ u : string, u) met l.
Proof.
  revert met. induction l as [|x l IH]; intros met Hin Hmet; [by inversion Hin|].
  simpl. apply elem_of_cons in Hin as [->|Hin].
  - rewrite bool_decide_eq_false_2 by done. by left.
  - case_bool_decide as Hx; [by apply IH|].
    destruct (decide (u = x)) as [->|Hne]; [by left|].
    right. apply IH; [done|]. intros Hm. apply elem_of_cons in Hm as [?|?]; done.
Qed.

Lemma uniq_complete u l : u ∈ l → u ∈ uniq l.
Proof. intros Hin. apply uniqByFrom_complete; [done|]. intros H; inversion H. Qed.

Section SelectTheorems.
Context `{renv : RelayEnv}.

Lemma eligible_NoDup hints : NoDup (eligible hints).
Proof. apply ListFilter_NoDup, uniq_NoDup. Qed.

Lemma healthy_low_NoDup hints :
  NoDup (healthyOf (eligible hints) ++ lowQualityOf (eligible hints)).
Proof. apply (ListFilter_split_NoDup relayIsLowQuality), eligible_NoDup. Qed.

Lemma healthy_low_length hints :
  length (healthyOf (eligible hints) ++ lowQualityOf (eligible hints))
  = length (eligible hints).
Proof.
  rewrite length_app.
  apply (ListFilter_split_length relayIsLowQuality (eligible hints)).
Qed.

Lemma selectHints_cut hints limit :
  selectHints hints limit
  = take (orElse limit relay_limit)
      (healthyOf (eligible hints) ++ lowQualityOf (eligible hints)).
Proof.
  destruct (selectHints_split hints limit) as (ok & bad & Hscan & ->).
  by apply scanHints_take.
Qed.

(** X1.  [selectHints] returns the first [limit] URLs of this list: the
    shareable first occurrences among the hints, the read relays of the
    user and the default relays, the ones that are not low-quality first,
    each group in the order of the candidates.  The [break] of the loop
    changes nothing in what is returned. *)
Theorem selectHints_is_cut_of_eligible hints limit :
  selectHints hints limit
  = take (orElse limit relay_limit)
      (healthyOf (eligible hints) ++ lowQualityOf (eligible hints)).
Proof.
  destruct (selectHints_split hints limit) as (ok & bad & Hscan & ->).
  by apply scanHints_take.
Qed.

(** X2.  [selectHints] returns no URL twice, and every URL it returns is
    one of the hints, of the read relays of the user or of the default
    relays. *)
Theorem selectHints_distinct_candidates hints limit :
  NoDup (selectHints hints limit)
  ∧ ∀ u, u ∈ selectHints hints limit → u ∈ candidates hints.
Proof.
  rewrite selectHints_cut. split.
  - eapply sublist_NoDup; [apply healthy_low_NoDup | apply sublist_take].
  - intros u Hu. apply (subseteq_take _ _ u) in Hu.
    apply uniq_elem.
    apply elem_of_app in Hu as [Hu|Hu]; apply ListFilter_elem in Hu as [Hu _];
      by apply ListFilter_elem in Hu as [Hu _].
Qed.

(** X3.  [selectHints] returns as many URLs as the limit in force allows:
    the limit, or all the eligible URLs when they are fewer. *)
Theorem selectHints_length hints limit :
  length (selectHints hints limit)
  = (orElse limit relay_limit `min` length (eligible hints))%nat.
Proof. by rewrite selectHints_cut, length_take, healthy_low_length. Qed.

(** X4.  When the candidates hold at least [limit] eligible URLs that are
    not low-quality, [selectHints] returns the first [limit] of them and
    no low-quality URL. *)
Theorem enough_healthy_excludes_low_quality hints limit :
  (orElse limit relay_limit ≤ length (healthyOf (eligible hints)))%nat →
  selectHints hints limit
  = take (orElse limit relay_limit) (healthyOf (eligible hints))
  ∧ Forall (λ u, relayIsLowQuality u = false) (selectHints hints limit).
Proof.
  intros Hlen. rewrite selectHints_cut, take_app_le by done. split; [done|].
  apply Forall_take, Forall_forall. intros u Hu.
  apply ListFilter_elem in Hu as [_ Hu]. by apply negb_true_iff.
Qed.

(** X5.  A shareable URL among the candidates is returned whenever the
    eligible URLs are no more than the limit in force: nothing eligible is
    left out without need. *)
Theorem selectHints_complete hints limit u :
  (length (eligible hints) ≤ orElse limit relay_limit)%nat →
  u ∈ candidates hints → isShareableRelay u = true →
  u ∈ selectHints hints limit.
Proof.
  intros Hlen Hu Hs. rewrite selectHints_cut, take_ge
    by (rewrite healthy_low_length; lia).
  assert (He : u ∈ eligible hints).
  { apply ListFilter_elem. split; [by apply uniq_complete | done]. }
  apply elem_of_app. destruct (relayIsLowQuality u) eqn:Hq.
  - right. by apply ListFilter_elem.
  - left. apply ListFilter_elem. split; [done|]. by rewrite Hq.
Qed.
End SelectTheorems.

(* ================================================================== *)
(** * What the merge returns *)
(* ================================================================== *)

Section SortByAny.
Context {A K : Type} (lt : K → K → bool) (key : A → K).

Lemma insertBy_permutation x l : insertBy lt key x l ≡ₚ x :: l.
Proof.
  induction l as [|y l IH]; simpl; [done|].
  destruct (lt (key y) (key x)); [|done].
  rewrite IH. apply Permutation_swap.
Qed.

Lemma sortBy_permutation l : sortBy lt key l ≡ₚ l.
Proof.
  induction l as [|x l IH]; [done|].
  unfold sortBy in *. simpl. by rewrite insertBy_permutation, IH.
Qed.

(** When everything in the list is below [x], [x] goes to the end. *)
Lemma insertBy_back x l :
  Forall (λ y, lt (key y) (key x) = true) l → insertBy lt key x l = l ++ [x].
Proof.
  induction 1 as [|y l Hy Hl IH]; simpl; [done|]. by rewrite Hy, IH.
Qed.
End SortByAny.

Section WeightOrder.
Open Scope R_scope.

Lemma sortBy_weight_sorted {A : Type} (key : A → R) (l : list A) :
  StronglySorted (λ a b, key a <= key b) (sortBy Rltb key l).
Proof.
  unfold sortBy. induction l as [|x l IH]; simpl; [constructor|].
  revert IH. generalize (foldr (insertBy Rltb key) [] l). intros s Hs.
  induction Hs as [|y s Hs IH Hy]; simpl; [repeat constructor|].
  unfold Rltb at 1. destruct (Rlt_dec (key y) (key x)) as [Hlt|Hge].
  - constructor; [done|]. rewrite insertBy_permutation.
    constructor; [lra | done].
  - constructor; [by constructor|]. constructor; [lra|].
    eapply Forall_impl; [exact Hy|]. simpl. intros z Hz. lra.
Qed.
End WeightOrder.

Section TallyKeys.
Lemma addToEntry_keys hint s scores :
  (addToEntry hint s scores).*1
  = if bool_decide (hint ∈ scores.*1) then scores.*1 else scores.*1 ++ [hint].
Proof.
  induction scores as [|[h t] scores IH]; [done|].
  cbn [addToEntry]. rewrite fmap_cons. cbn [fst].
  destruct (decide (h = hint)) as [->|Hne].
  - rewrite !bool_decide_eq_true_2; [done | by left | done].
  - rewrite (bool_decide_eq_false_2 (h = hint)) by done.
    rewrite fmap_cons, IH. cbn [fst].
    destruct (decide (hint ∈ scores.*1)) as [Hin|Hin].
    + rewrite !bool_decide_eq_true_2; [done | by right | done].
    + rewrite !bool_decide_eq_false_2; [done | | done].
      intros Hc. apply elem_of_cons in Hc as [?|?]; [by subst | done].
Qed.

Lemma bump_keys hint s scores :
  (bump hint s scores).*1
  = if inheritedName hint || bool_decide (hint ∈ scores.*1)
    then scores.*1 else scores.*1 ++ [hint].
Proof.
  unfold bump. destruct (inheritedName hint); [done|]. apply addToEntry_keys.
Qed.

Lemma foldl_bumpWith_keys ps : ∀ scores,
  NoDup scores.*1 →
  NoDup (foldl bumpWith scores ps).*1
  ∧ ∀ h, h ∈ (foldl bumpWith scores ps).*1
         ↔ h ∈ scores.*1 ∨ (h ∈ ps.*1 ∧ inheritedName h = false).
Proof.
  induction ps as [|[h s] ps IH]; intros scores Hnd; simpl.
  - split; [done|]. intros h.
    split; [by left | intros [?|[Hin _]]; [done | inversion Hin]].
  - assert (Hnd' : NoDup (bumpWith scores (h, s)).*1).
    { unfold bumpWith. simpl. rewrite bump_keys.
      destruct (inheritedName h); [done|]. simpl. case_bool_decide; [done|].
      apply NoDup_app. split; [done|]. split; [|apply NoDup_singleton].
      intros x Hx Hx'. apply list_elem_of_singleton in Hx'. by subst. }
    destruct (IH _ Hnd') as [Hnd2 Hin2]. split; [done|].
    intros h'. rewrite Hin2. unfold bumpWith. simpl. rewrite bump_keys.
    destruct (inheritedName h) eqn:Hh; simpl.
    + rewrite elem_of_cons. split; [intros [?|[? ?]]; auto|].
      intros [?|[[-> | ?] ?]]; [auto | congruence | auto].
    + case_bool_decide as Hin.
      * rewrite elem_of_cons. split; [intros [?|[? ?]]; auto|].
        intros [?|[[-> | ?] ?]]; auto.
      * rewrite elem_of_app, list_elem_of_singleton, elem_of_cons.
        split; [intros [[? | ->] | [? ?]]; auto|].
        intros [?|[[-> | ?] ?]]; auto.
Qed.

(** The keys of the scores: the hints that are written in the lists,
    but for the inherited names. *)
Lemma tally_keys groups :
  NoDup (tally groups).*1
  ∧ ∀ h, h ∈ (tally groups).*1 ↔ h ∈ concat groups ∧ inheritedName h = false.
Proof.
  rewrite tally_fold.
  destruct (foldl_bumpWith_keys (contributions groups) []) as [Hnd Hin];
    [constructor|].
  split; [done|]. intros h. rewrite Hin, contributions_hints.
  split; [intros [Hn|?]; [inversion Hn | done] | by right].
Qed.

Lemma weigh_keys groups : (weigh groups).*1 = (tally groups).*1.
Proof.
  unfold weigh. rewrite <- list_fmap_compose.
  apply list_fmap_ext. by intros i [h t].
Qed.

Lemma ListFilter_split_permutation {A : Type} (p : A → bool) l :
  List.filter p l ++ List.filter (λ x, negb (p x)) l ≡ₚ l.
Proof.
  induction l as [|x l IH]; simpl; [done|].
  destruct (p x); simpl; [by rewrite IH|].
  by rewrite <- Permutation_middle, IH.
Qed.

Lemma objectEntries_permutation {V : Type} (own : list (string * V)) :
  objectEntries own ≡ₚ own.
Proof.
  unfold objectEntries. rewrite sortBy_permutation.
  apply (ListFilter_split_permutation (λ p, isArrayIndex p.1)).
Qed.

Lemma rankHints_keys groups : (rankHints groups).*1 ≡ₚ (tally groups).*1.
Proof.
  unfold rankHints. rewrite <- weigh_keys.
  apply fmap_Permutation. by rewrite sortBy_permutation, objectEntries_permutation.
Qed.

Lemma tally_keys_length groups :
  length (tally groups).*1 = length (scoredHints groups).
Proof.
  destruct (tally_keys groups) as [Hnd Hin].
  apply Permutation_length, NoDup_Permutation; [done | apply uniq_NoDup |].
  intros h. rewrite Hin. unfold scoredHints. split.
  - intros [Hh Hown]. apply uniq_complete, ListFilter_elem.
    split; [done | by rewrite Hown].
  - intros Hh. apply uniq_elem, ListFilter_elem in Hh as [Hh Hown].
    split; [done | by apply negb_true_iff].
Qed.
End TallyKeys.

Section MergeTheorems.
Context `{renv : RelayEnv}.

(** X6.  [mergeHints] returns no URL twice, returns only hints that are
    written in one of the lists and are no name inherited from
    [Object.prototype], and returns as many as the limit in force
    allows: the limit, or all the distinct such hints when they are
    fewer. *)
Theorem mergeHints_distinct_from_lists groups limit :
  NoDup (mergeHints groups limit)
  ∧ (∀ u, u ∈ mergeHints groups limit →
          u ∈ concat groups ∧ inheritedName u = false)
  ∧ length (mergeHints groups limit)
    = (orElse limit relay_limit `min` length (scoredHints groups))%nat.
Proof.
  destruct (tally_keys groups) as [Hnd Hin]. unfold mergeHints.
  split; [|split].
  - eapply sublist_NoDup; [|apply sublist_take]. by rewrite rankHints_keys.
  - intros u Hu. apply (subseteq_take _ _ u) in Hu.
    rewrite rankHints_keys in Hu. by apply Hin.
  - by rewrite length_take, rankHints_keys, tally_keys_length.
Qed.

(** X7.  When the distinct hints of the lists, the inherited names left
    out, are no more than the limit in force, [mergeHints] returns every
    one of them. *)
Theorem mergeHints_keeps_all_within_limit groups limit u :
  (length (scoredHints groups) ≤ orElse limit relay_limit)%nat →
  u ∈ concat groups → inheritedName u = false → u ∈ mergeHints groups limit.
Proof.
  intros Hlen Hu Hown. unfold mergeHints.
  rewrite take_ge by (by rewrite rankHints_keys, tally_keys_length).
  rewrite rankHints_keys. by apply tally_keys.
Qed.
End MergeTheorems.

(** X8.  The ranking behind [mergeHints] is in ascending order of final
    weight: no URL is ranked before one of smaller weight. *)
Theorem rankHints_ascending groups :
  StronglySorted (λ a b, (a.2 <= b.2)%R) (rankHints groups).
Proof. apply (sortBy_weight_sorted snd). Qed.

Section TallyValues.
Open Scope R_scope.

Lemma contribution_pos len i :
  (1 ≤ len)%nat → 0 < 1 / IZR (Z.of_nat i + 1) / IZR (Z.of_nat len).
Proof.
  intros Hlen.
  assert (1 <= IZR (Z.of_nat len)) by (apply IZR_le; lia).
  assert (1 <= IZR (Z.of_nat i + 1)) by (apply IZR_le; lia).
  apply Rdiv_lt_0_compat; [|lra]. apply Rdiv_lt_0_compat; lra.
Qed.

Lemma contribsFrom_pos len hints : ∀ i,
  (1 ≤ len)%nat → Forall (λ p, 0 < p.2) (contribsFrom len i hints).
Proof.
  induction hints as [|h hints IH]; intros i Hlen; simpl; constructor; [|by apply IH].
  by apply contribution_pos.
Qed.

Lemma contributions_pos groups : Forall (λ p, 0 < p.2) (contributions groups).
Proof.
  unfold contributions. induction groups as [|g groups IH]; simpl; [constructor|].
  apply Forall_app. split; [|done].
  destruct g as [|h g]; [constructor|]. apply contribsFrom_pos. simpl. lia.
Qed.

Lemma hitsOf_pos ps url :
  Forall (λ p, 0 < p.2) ps → Forall (λ s, 0 < s) (hitsOf ps url).
Proof.
  unfold hitsOf. induction 1 as [|[h s] ps Hs Hps IH]; simpl; [constructor|].
  case_bool_decide; simpl; [by constructor | done].
Qed.

Lemma sumR_pos ss : ss ≠ [] → Forall (λ s, 0 < s) ss → 0 < sumR ss.
Proof.
  intros Hne Hall. destruct Hall as [|s ss Hs Hss]; [done|]. simpl.
  assert (0 <= sumR ss); [|lra].
  clear Hne Hs. induction Hss as [|s' ss Hs' Hss IH]; simpl; lra.
Qed.

(** X9.  A hint has an entry in the scores exactly when it is written
    in the lists and is no name inherited from [Object.prototype]; the
    count of the entry is the number of times the hint is written, and
    its accumulated score is positive and at most the count. *)
Theorem tally_counts_occurrences groups url :
  match entryOf (tally groups) url with
  | Some t =>
      inheritedName url = false
      ∧ count t = occurrences groups url
      ∧ (0 < count t)%nat
      ∧ 0 < score t <= IZR (Z.of_nat (count t))
  | None => inheritedName url = true ∨ occurrences groups url = 0%nat
  end.
Proof.
  rewrite tally_fold. destruct (inheritedName url) eqn:Hown.
  { rewrite entryOf_fold_inherited by done. by left. }
  rewrite entryOf_fold by done. change (entryOf [] url) with (@None Tally).
  pose proof (occurrences_hits groups url) as Hlen.
  pose proof (hitsOf_bound _ url (contributions_bound groups)) as Hle.
  pose proof (hitsOf_pos _ url (contributions_pos groups)) as Hpos.
  destruct (hitsOf (contributions groups) url) as [|s ss] eqn:Hhits.
  - simpl in *. by right.
  - destruct (foldl_bumpEntry (s :: ss) None) as (t & -> & Hc & Hs); [done|].
    simpl in Hc, Hs. rewrite Hc, Hs, Rplus_0_l. simpl in Hlen.
    split; [done|]. split; [lia|]. split; [lia|]. split.
    + assert (0 < sumR (s :: ss)) by (by apply sumR_pos). done.
    + pose proof (sumR_bound (s :: ss) Hle) as Hb. done.
Qed.
End TallyValues.

Section SingleList.
Open Scope R_scope.

Lemma sortBy_reverses {A K : Type} (lt : K → K → bool) (key : A → K) l :
  StronglySorted (λ a b, lt (key b) (key a) = true) l →
  sortBy lt key l = reverse l.
Proof.
  induction 1 as [|x l Hl IH Hx]; [done|].
  unfold sortBy in *. simpl. rewrite IH, reverse_cons.
  apply insertBy_back. by apply Forall_reverse.
Qed.

(** In a list that goes down strictly, a key is the key of one item. *)
Lemma falling_keys_differ {A : Type} (key : A → R) l x y :
  StronglySorted (λ a b, key b < key a) l →
  x ∈ l → y ∈ l → key x = key y → x = y.
Proof.
  induction 1 as [|z l Hl IH Hz]; intros Hx Hy Hk; [by inversion Hx|].
  rewrite Forall_forall in Hz.
  apply elem_of_cons in Hx as [->|Hx]; apply elem_of_cons in Hy as [->|Hy].
  - done.
  - apply Hz in Hy. lra.
  - apply Hz in Hx. lra.
  - by apply IH.
Qed.

Lemma StronglySorted_weaken {A : Type} (R1 R2 : A → A → Prop) l :
  (∀ a b, R1 a b → R2 a b) → StronglySorted R1 l → StronglySorted R2 l.
Proof.
  intros Himp. induction 1 as [|x l Hl IH Hx]; constructor; [done|].
  eapply Forall_impl; [exact Hx|]. apply Himp.
Qed.

(** Sorting by a key that differs from item to item does not depend on
    the order the items come in. *)
Lemma sortBy_any_order {A : Type} (key : A → R) l l' :
  StronglySorted (λ a b, key b < key a) l → l' ≡ₚ l →
  sortBy Rltb key l' = reverse l.
Proof.
  intros Hfall Hperm.
  rewrite <- (sortBy_reverses Rltb key l).
  2:{ eapply StronglySorted_weaken; [|exact Hfall]. intros a b Hab. by apply Rltb_true. }
  apply (StronglySorted_unique_strong (λ a b, key a <= key b)).
  - intros x1 x2 Hx1 Hx2 H12 H21.
    apply (falling_keys_differ key l); [done | | | lra].
    + by rewrite <- Hperm, <- (sortBy_permutation Rltb key l').
    + by rewrite <- (sortBy_permutation Rltb key l).
  - apply sortBy_weight_sorted.
  - apply sortBy_weight_sorted.
  - by rewrite !sortBy_permutation.
Qed.

Lemma addToEntry_fresh hint s scores :
  hint ∉ scores.*1 →
  addToEntry hint s scores = scores ++ [(hint, mkTally (0 + s) (0 + 1))].
Proof.
  induction scores as [|[h t] scores IH]; intros Hnew; [done|].
  simpl. rewrite fmap_cons in Hnew. apply not_elem_of_cons in Hnew as [Hne Hnew].
  rewrite bool_decide_eq_false_2 by done. by rewrite IH.
Qed.

Lemma tallyFrom_fresh len hints : ∀ i scores,
  NoDup hints → (∀ h, h ∈ hints → h ∉ scores.*1) →
  tallyFrom len i hints scores
  = scores ++ ((λ p : string * R, (p.1, mkTally (0 + p.2) (0 + 1)))
               <$> List.filter (λ p, negb (inheritedName p.1))
                     (contribsFrom len i hints)).
Proof.
  induction hints as [|h hints IH]; intros i scores Hnd Hnew; simpl.
  - by rewrite app_nil_r.
  - apply NoDup_cons in Hnd as [Hh Hnd]. unfold bump.
    destruct (inheritedName h); simpl.
    + apply IH; [done|]. intros h' Hin. apply Hnew. by right.
    + rewrite addToEntry_fresh by (apply Hnew; by left).
      rewrite IH; [by rewrite <- app_assoc | done |].
      intros h' Hin. rewrite fmap_app. intros Hc.
      apply elem_of_app in Hc as [Hc|Hc].
      * by apply (Hnew h'); [right|].
      * apply list_elem_of_singleton in Hc. simpl in Hc. by subst.
Qed.

Lemma contribsFrom_own_hints len hints : ∀ i,
  (List.filter (λ p : string * R, negb (inheritedName p.1))
     (contribsFrom len i hints)).*1
  = List.filter (λ u, negb (inheritedName u)) hints.
Proof.
  induction hints as [|h hints IH]; intros i; simpl; [done|].
  destruct (inheritedName h); simpl; [apply IH|]. by rewrite IH.
Qed.

(** Along one list the additions go down. *)
Lemma contribsFrom_below len hints : ∀ i k,
  (1 ≤ len)%nat → (i < k)%nat →
  Forall (λ p, p.2 < 1 / IZR (Z.of_nat i + 1) / IZR (Z.of_nat len))
    (contribsFrom len k hints).
Proof.
  induction hints as [|h hints IH]; intros i k Hlen Hik; simpl; constructor.
  - simpl. assert (1 <= IZR (Z.of_nat len)) by (apply IZR_le; lia).
    assert (1 <= IZR (Z.of_nat i + 1)) by (apply IZR_le; lia).
    assert (IZR (Z.of_nat i + 1) < IZR (Z.of_nat k + 1)) by (apply IZR_lt; lia).
    apply Rmult_lt_compat_r; [apply Rinv_0_lt_compat; lra|].
    unfold Rdiv. rewrite !Rmult_1_l. apply Rinv_lt_contravar; [|done].
    apply Rmult_lt_0_compat; lra.
  - apply IH; [done | lia].
Qed.

Lemma contribsFrom_falling len hints : ∀ i,
  (1 ≤ len)%nat →
  StronglySorted (λ a b : string * R, b.2 < a.2) (contribsFrom len i hints).
Proof.
  induction hints as [|h hints IH]; intros i Hlen; simpl; constructor.
  - by apply IH.
  - simpl. apply contribsFrom_below; [done | lia].
Qed.

Lemma ListFilter_StronglySorted {A : Type} (R' : A → A → Prop) (p : A → bool) l :
  StronglySorted R' l → StronglySorted R' (List.filter p l).
Proof.
  induction 1 as [|x l Hl IH Hx]; simpl; [constructor|].
  destruct (p x); [|done]. constructor; [done|].
  rewrite Forall_forall in *. intros y Hy. apply Hx.
  apply list_elem_of_In, filter_In in Hy as [Hy _]. by apply list_elem_of_In.
Qed.
End SingleList.

Section SingleListTheorem.
Context `{renv : RelayEnv}.

(** X10.  For one list without a repeated hint, [mergeHints] returns
    the hints of the list in reverse order, the names inherited from
    [Object.prototype] left out, cut at the limit in force: within one
    list the final weight goes down with the position, so that the first
    hint of the list is ranked last. *)
Theorem mergeHints_reverses_single_list hints limit :
  NoDup hints →
  mergeHints [hints] limit
  = take (orElse limit relay_limit)
      (reverse (List.filter (λ u, negb (inheritedName u)) hints)).
Proof.
  intros Hnd. unfold mergeHints. f_equal.
  destruct hints as [|h0 hints0] eqn:Hh; [done|]. rewrite <- Hh in *.
  assert (Hlen : (1 ≤ length hints)%nat) by (subst; simpl; lia).
  clear Hh.
  unfold rankHints, weigh, tally. cbn [foldl length].
  rewrite tallyFrom_fresh; [|done|intros h' _ Hc; inversion Hc].
  rewrite app_nil_l, <- list_fmap_compose.
  pose proof (ListFilter_StronglySorted _ (λ p : string * R, negb (inheritedName p.1)) _
                (contribsFrom_falling (length hints) hints 0 Hlen)) as Hfall.
  pose proof (contribsFrom_own_hints (length hints) hints 0) as Hkeys.
  revert Hfall Hkeys.
  generalize (List.filter (λ p : string * R, negb (inheritedName p.1))
                (contribsFrom (length hints) 0 hints)).
  intros ps Hfall Hkeys.
  match goal with
  | |- context [objectEntries ?L] =>
      rewrite (sortBy_any_order snd L (objectEntries L));
        [| |apply objectEntries_permutation]
  end.
  - rewrite fmap_reverse. f_equal. rewrite <- Hkeys, <- list_fmap_compose.
    apply list_fmap_ext. by intros i [h c].
  - clear Hkeys. induction Hfall as [|[h c] ps Hps IH Hc]; simpl; [constructor|].
    constructor; [done|]. rewrite Forall_fmap.
    eapply Forall_impl; [exact Hc|]. intros [h' c'] Hlt. simpl in *.
    apply finalWeight_grows; [done|]. simpl. lra.
Qed.
End SingleListTheorem.

(* ================================================================== *)
(** * Searchable relays and hints by role *)
(* ================================================================== *)

Lemma uniqByFrom_app_prefix (met a b : list string) :
  uniqByFrom (λ u : string, u) met a
  `prefix_of` uniqByFrom (λ u : string, u) met (a ++ b).
Proof.
  revert met. induction a as [|x a IH]; intros met; simpl; [apply prefix_nil|].
  case_bool_decide; [apply IH|]. destruct (IH (x :: met)) as [k ->]. by exists k.
Qed.

(** X11.  [getSearchableRelays] returns at most eight URLs, none twice;
    each is one of [SEARCH_RELAYS] or the url of a given relay that lists
    NIP 50; and the first eight distinct [SEARCH_RELAYS] come first. *)
Theorem getSearchableRelays_bounded_distinct SEARCH_RELAYS relays :
  (length (getSearchableRelays SEARCH_RELAYS relays) ≤ 8)%nat
  ∧ NoDup (getSearchableRelays SEARCH_RELAYS relays)
  ∧ (∀ u, u ∈ getSearchableRelays SEARCH_RELAYS relays →
          u ∈ SEARCH_RELAYS
          ∨ ∃ r, r ∈ relays ∧ url r = u ∧ supportsSearch r = true)
  ∧ take 8 (uniq SEARCH_RELAYS)
    `prefix_of` getSearchableRelays SEARCH_RELAYS relays.
Proof.
  unfold getSearchableRelays. split; [|split; [|split]].
  - rewrite length_take. lia.
  - eapply sublist_NoDup; [apply uniq_NoDup | apply sublist_take].
  - intros u Hu. apply (subseteq_take _ _ u), uniq_elem in Hu.
    apply elem_of_app in Hu as [Hu|Hu]; [by left | right].
    apply list_elem_of_fmap in Hu as (r & -> & Hr).
    apply ListFilter_elem in Hr as [Hr Hs]. by exists r.
  - destruct (uniqByFrom_app_prefix [] SEARCH_RELAYS
                (url <$> List.filter supportsSearch relays)) as [k Hk].
    unfold uniq, uniqBy. rewrite Hk, take_app. by eexists.
Qed.

Section RoleFacts.
Context `{renv : RelayEnv} `{penv : PeopleEnv}.

Lemma selectHints_elem hints limit u :
  u ∈ selectHints hints limit →
  u ∈ candidates hints ∧ isShareableRelay u = true.
Proof.
  intros Hu. split.
  - rewrite selectHints_cut in Hu. apply (subseteq_take _ _ u) in Hu.
    apply uniq_elem.
    apply elem_of_app in Hu as [Hu|Hu]; apply ListFilter_elem in Hu as [Hu _];
      by apply ListFilter_elem in Hu as [Hu _].
  - pose proof (selectHints_shareable hints limit) as Hall.
    rewrite Forall_forall in Hall. by apply Hall.
Qed.

Lemma mergeHints_elem groups limit u :
  u ∈ mergeHints groups limit → u ∈ concat groups.
Proof.
  unfold mergeHints. intros Hu. apply (subseteq_take _ _ u) in Hu.
  rewrite rankHints_keys in Hu. by apply tally_keys.
Qed.

Lemma getPubkeyRelayUrls_elem pubkey mode u :
  u ∈ getPubkeyRelayUrls pubkey (Some mode) → mode ≠ ""%string →
  ∃ r, r ∈ default [] (relaysOf pubkey) ∧ Policy.has r mode = true ∧ Policy.url r = u.
Proof.
  unfold getPubkeyRelayUrls, getPubkeyRelays. intros Hu Hmode. simpl in Hu.
  assert (Hne : String.eqb mode "" = false) by (by apply String.eqb_neq).
  rewrite Hne in Hu. simpl in Hu.
  apply list_elem_of_fmap in Hu as (r & -> & Hr).
  apply ListFilter_elem in Hr as [Hr Hm]. by exists r.
Qed.

Lemma eligible_nil hints :
  eligible hints = [] ↔ Forall (λ u, isShareableRelay u = false) (candidates hints).
Proof.
  unfold eligible. rewrite Forall_forall. split.
  - intros Hnil u Hu. destruct (isShareableRelay u) eqn:Hs; [|done].
    assert (He : u ∈ List.filter isShareableRelay (uniq (candidates hints))).
    { apply ListFilter_elem. split; [by apply uniq_complete | done]. }
    rewrite Hnil in He. inversion He.
  - intros Hall.
    destruct (List.filter isShareableRelay (uniq (candidates hints))) as [|u l] eqn:Hf;
      [done|].
    assert (He : u ∈ List.filter isShareableRelay (uniq (candidates hints)))
      by (rewrite Hf; by left).
    apply ListFilter_elem in He as [He Hs]. apply uniq_elem, Hall in He. congruence.
Qed.

(** X12.  [getEventHint] gives the empty string exactly when none of the
    write relays of the author, of the relays the event was seen on, of the
    read relays of the user and of the default relays is shareable;
    otherwise it gives one of these URLs, a shareable one. *)
Theorem getEventHint_empty_or_shareable e :
  let sources :=
    getPubkeyRelayUrls (pubkey (seen e)) (Some RelayMode_Write)
    ++ seen_on e ++ userReadRelayUrls ++ DEFAULT_RELAYS in
  (getEventHint e = ""%string
   ↔ Forall (λ u, isShareableRelay u = false) sources)
  ∧ (getEventHint e ≠ ""%string →
     isShareableRelay (getEventHint e) = true ∧ getEventHint e ∈ sources).
Proof.
  intros sources.
  assert (Hsrc : ∀ u, u ∈ candidates (eventHintsOf e) → u ∈ sources).
  { intros u. unfold candidates, eventHintsOf, sources.
    rewrite !elem_of_app, ListFilter_elem. tauto. }
  assert (Hall : Forall (λ u, isShareableRelay u = false) sources
                 ↔ Forall (λ u, isShareableRelay u = false)
                     (candidates (eventHintsOf e))).
  { rewrite !Forall_forall. split.
    - intros H u Hu. by apply H, Hsrc.
    - intros H u Hu. destruct (isShareableRelay u) eqn:Hs; [|done].
      rewrite <- Hs. apply H. revert Hu. unfold candidates, eventHintsOf, sources.
      rewrite !elem_of_app, ListFilter_elem. tauto. }
  unfold getEventHint, getHints.
  destruct (head (selectHints (eventHintsOf e) (Some 1%nat))) as [u|] eqn:Hhead; simpl.
  - apply head_Some_elem_of, selectHints_elem in Hhead as [Hcand Hs].
    assert (Hu : u ≠ ""%string) by (intros ->; vm_compute in Hs; done).
    split; [|by split; [|apply Hsrc]].
    split; [done|]. rewrite Hall, Forall_forall. intros H.
    apply H in Hcand. congruence.
  - split; [|done]. split; [|done]. intros _. rewrite Hall, <- eligible_nil.
    apply head_None in Hhead. rewrite selectHints_cut in Hhead.
    change (orElse (Some 1%nat) relay_limit) with 1%nat in Hhead.
    destruct (healthyOf (eligible (eventHintsOf e))
              ++ lowQualityOf (eligible (eventHintsOf e))) as [|x l] eqn:Hl;
      [|done].
    apply (f_equal length) in Hl. rewrite healthy_low_length in Hl.
    by destruct (eligible (eventHintsOf e)).
Qed.

(** X13.  [getInboxHints] returns no URL twice, and every URL it returns
    is shareable and is the url of a relay that one of the given people
    advertises with a truthy [read], or a read relay of the user, or a
    default relay. *)
Theorem getInboxHints_sources pubkeys :
  NoDup (getInboxHints pubkeys)
  ∧ ∀ u, u ∈ getInboxHints pubkeys →
      isShareableRelay u = true
      ∧ ((∃ pk r, pk ∈ pubkeys ∧ r ∈ default [] (relaysOf pk)
                  ∧ Policy.has r "read" = true ∧ Policy.url r = u)
         ∨ u ∈ userReadRelayUrls ∨ u ∈ DEFAULT_RELAYS).
Proof.
  unfold getInboxHints, hintSelector, getHints. split.
  - rewrite selectHints_cut.
    eapply sublist_NoDup; [apply healthy_low_NoDup | apply sublist_take].
  - intros u Hu. apply selectHints_elem in Hu as [Hu Hs]. split; [done|].
    unfold candidates in Hu. rewrite !elem_of_app in Hu.
    destruct Hu as [Hu|[Hu|Hu]]; [|by right; left|by right; right].
    unfold inboxHintsOf in Hu. apply mergeHints_elem in Hu.
    apply list_elem_of_In, in_concat in Hu as (g & Hg & Hug).
    apply list_elem_of_In in Hg, Hug.
    apply list_elem_of_fmap in Hg as (pk & -> & Hpk).
    unfold getPubkeyHints, hintSelector, getHints in Hug.
    apply selectHints_elem in Hug as [Hug _].
    unfold candidates in Hug. rewrite !elem_of_app in Hug.
    destruct Hug as [Hug|[Hug|Hug]]; [|by right; left|by right; right].
    apply getPubkeyRelayUrls_elem in Hug as (r & Hr & Hm & Hurl); [|done].
    left. exists pk, r. by repeat split.
Qed.
End RoleFacts.

Section FirstHint.
Context `{renv : RelayEnv} `{penv : PeopleEnv}.

(** X14.  With a [relay_limit] of at least one, [getEventHint] is the
    first of the hints [getEventHints] gives for the event, or the empty
    string when there is none. *)
Theorem getEventHint_is_first_event_hint e :
  (1 ≤ relay_limit)%nat →
  getEventHint e = default ""%string (head (getEventHints e)).
Proof.
  intros Hl. unfold getEventHint, getEventHints, hintSelector, getHints.
  rewrite !selectHints_cut.
  destruct relay_limit as [|k] eqn:Hk; [lia|]. simpl.
  by destruct (healthyOf (eligible (eventHintsOf e))
               ++ lowQualityOf (eligible (eventHintsOf e))).
Qed.
End FirstHint.

(* ================================================================== *)
(** * Shareable relays *)
(* ================================================================== *)

Section ShareableFacts.
Open Scope char_scope.

Lemma chars_append (a b : string) :
  chars (String.append a b) = chars a ++ chars b.
Proof. unfold chars. induction a as [|c a IH]; simpl; [done|]. by rewrite IH. Qed.

Lemma stripPrefix_spec p : ∀ s t, stripPrefix p s = Some t ↔ s = p ++ t.
Proof.
  induction p as [|a p IH]; intros s t; simpl.
  - split; [by intros [= ->] | by intros ->].
  - destruct s as [|b s]; [done|].
    destruct (Ascii.eqb_spec a b) as [->|Hne].
    + rewrite IH. split; [by intros -> | by intros [= ->]].
    + split; [done|]. intros [= -> _]. done.
Qed.

Lemma somewhere_spec atHead s :
  somewhere atHead s = true ↔ ∃ pre suf, s = pre ++ suf ∧ atHead suf = true.
Proof.
  induction s as [|c s IH]; simpl.
  - rewrite orb_false_r. split.
    + intros H. by exists [], [].
    + intros (pre & suf & Hs & H). symmetry in Hs.
      apply app_eq_nil in Hs as [_ ->]. done.
  - rewrite orb_true_iff, IH. split.
    + intros [H|(pre & suf & -> & H)].
      * by exists [], (c :: s).
      * by exists (c :: pre), suf.
    + intros (pre & suf & Hs & H). destruct pre as [|c' pre]; simpl in Hs.
      * left. by subst suf.
      * right. injection Hs as -> ->. by exists pre, suf.
Qed.

Lemma dotThenAny_dot s : dotThenAny s = true → "." ∈ s.
Proof.
  induction s as [|c s IH]; simpl; [done|].
  destruct (isLineTerminator c); [done|].
  destruct (Ascii.eqb_spec c ".") as [->|Hne]; simpl.
  - intros _. by left.
  - intros H. right. by apply IH.
Qed.

(** One step of the global match of [://]. *)
Lemma countSchemeSeparators_cons c rest :
  countSchemeSeparators (c :: rest)
  = if Ascii.eqb c ":" && bool_decide (is_Some (stripPrefix (chars "//") rest))
    then S (countSchemeSeparators (drop 2 rest))
    else countSchemeSeparators rest.
Proof.
  cbn [countSchemeSeparators].
  destruct (stripPrefix (chars "//") rest) as [t|] eqn:Hs.
  - apply stripPrefix_spec in Hs. subst rest.
    rewrite bool_decide_eq_true_2 by by eexists.
    rewrite andb_true_r. by destruct (Ascii.eqb c ":").
  - rewrite bool_decide_eq_false_2 by (by intros [? ?]). by rewrite andb_false_r.
Qed.

Lemma countSchemeSeparators_slash s :
  countSchemeSeparators ("/" :: s) = countSchemeSeparators s.
Proof.
  rewrite countSchemeSeparators_cons.
  change (Ascii.eqb "/" ":") with false. by cbn [andb].
Qed.

Lemma countSchemeSeparators_app n : ∀ x y,
  (length x ≤ n)%nat →
  (countSchemeSeparators x + countSchemeSeparators y
   ≤ countSchemeSeparators (x ++ y))%nat.
Proof.
  induction n as [|n IH]; intros x y Hn.
  { destruct x; [done | simpl in Hn; lia]. }
  destruct x as [|c rest]; [done|]. simpl in Hn.
  rewrite <- app_comm_cons, !countSchemeSeparators_cons.
  destruct (Ascii.eqb_spec c ":") as [->|Hc]; cbn [andb].
  2:{ apply IH; lia. }
  destruct (decide (is_Some (stripPrefix (chars "//") rest))) as [Hr|Hr].
  - rewrite (bool_decide_eq_true_2 _ Hr). destruct Hr as [t Hr]. apply stripPrefix_spec in Hr. subst rest.
    rewrite bool_decide_eq_true_2.
    2:{ exists (t ++ y). apply stripPrefix_spec. by rewrite <- app_assoc. }
    rewrite <- app_assoc. change (drop 2 (chars "//" ++ t)) with t.
    change (drop 2 (chars "//" ++ t ++ y)) with (t ++ y).
    specialize (IH t y). rewrite length_app in Hn. simpl in Hn.
    lia.
  - rewrite (bool_decide_eq_false_2 _ Hr).
    destruct (decide (is_Some (stripPrefix (chars "//") (rest ++ y)))) as [Hry|Hry].
    2:{ rewrite (bool_decide_eq_false_2 _ Hry). apply IH; lia. }
    rewrite (bool_decide_eq_true_2 _ Hry). destruct Hry as [t Hry]. apply stripPrefix_spec in Hry.
    destruct rest as [|d [|e rest]].
    + simpl in Hry. subst y. change (drop 2 ([] ++ chars "//" ++ t)) with t.
      change (chars "//" ++ t) with ("/" :: "/" :: t).
      rewrite !countSchemeSeparators_slash. simpl. rewrite ?drop_0. lia.
    + injection Hry as -> Hy. subst y.
      change (drop 2 (["/"] ++ "/" :: t)) with t.
      rewrite !countSchemeSeparators_slash. simpl. rewrite ?drop_0. lia.
    + injection Hry as -> -> _. exfalso. apply Hr. exists rest.
      by apply stripPrefix_spec.
Qed.

Lemma isShareableRelay_parts url :
  isShareableRelay url = true →
  looksLikeWebsocket (chars url) = true
  ∧ countSchemeSeparators (chars url) = 1%nat
  ∧ existsb isSpace (chars url) = false
  ∧ existsb (Ascii.eqb "%") (chars url) = false
  ∧ (∃ c t, chars url = chars "wss://" ++ c :: t)
  ∧ somewhere portAtHead (drop 6 (chars url)) = false
  ∧ somewhere ipv4AtHead (drop 6 (chars url)) = false
  ∧ somewhere (hasPrefix "/npub") (drop 6 (chars url)) = false.
Proof.
  unfold isShareableRelay. cbv zeta. intros H.
  repeat (apply andb_true_iff in H as [H ?]).
  repeat match goal with
  | H : negb _ = true |- _ => apply negb_true_iff in H
  end.
  split; [done|]. split; [by apply Nat.eqb_eq|]. split; [done|]. split; [done|].
  split; [|done].
  destruct (stripPrefix (chars "wss://") (chars url)) as [t|] eqn:Hs; [|done].
  apply stripPrefix_spec in Hs. destruct t as [|c t]; [done|]. by exists c, t.
Qed.

(** X15.  Two shareable URLs written one after the other, which a bug
    elsewhere may produce, are not a shareable URL. *)
Theorem concatenated_relays_are_not_shareable a b :
  isShareableRelay a = true → isShareableRelay b = true →
  isShareableRelay (String.append a b) = false.
Proof.
  intros Ha Hb.
  apply isShareableRelay_parts in Ha as (_ & Ha & _).
  apply isShareableRelay_parts in Hb as (_ & Hb & _).
  pose proof (countSchemeSeparators_app (length (chars a)) (chars a) (chars b)
                ltac:(done)) as Hab.
  rewrite <- chars_append, Ha, Hb in Hab.
  unfold isShareableRelay. cbv zeta.
  replace (countSchemeSeparators (chars (String.append a b)) =? 1)%nat with false
    by (symmetry; apply Nat.eqb_neq; lia).
  by rewrite andb_false_r.
Qed.

(** X16.  A shareable URL is [wss://] followed by a host part; the URL
    has a dot, no whitespace and no [%], and the host part has no colon
    in front of a digit and no [/npub]. *)
Theorem shareable_relay_shape url :
  isShareableRelay url = true →
  ∃ host,
    chars url = chars "wss://" ++ host
    ∧ host ≠ []
    ∧ "." ∈ host
    ∧ Forall (λ c, isSpace c = false ∧ c ≠ "%") (chars url)
    ∧ (∀ pre d post, host = pre ++ ":" :: d :: post → isDigit d = false)
    ∧ (∀ pre post, host ≠ pre ++ chars "/npub" ++ post).
Proof.
  intros H.
  apply isShareableRelay_parts in H
    as (Hws & _ & Hsp & Hpc & (c & t & Hurl) & Hport & _ & Hnpub).
  exists (c :: t). rewrite Hurl in *. split; [done|]. split; [done|].
  change (drop 6 (chars "wss://" ++ c :: t)) with (c :: t) in *.
  split; [|split; [|split]].
  - unfold looksLikeWebsocket in Hws.
    replace (stripPrefix (chars "wss://") (chars "wss://" ++ c :: t))
      with (Some (c :: t)) in Hws by (symmetry; by apply stripPrefix_spec).
    apply andb_true_iff in Hws as [_ Hdot]. right. by apply dotThenAny_dot.
  - apply Forall_forall. intros x Hx. apply list_elem_of_In in Hx. split.
    + destruct (isSpace x) eqn:Hx'; [|done].
      assert (existsb isSpace (chars "wss://" ++ c :: t) = true)
        by (apply existsb_exists; by exists x).
      congruence.
    + intros ->.
      assert (existsb (Ascii.eqb "%") (chars "wss://" ++ c :: t) = true)
        by (apply existsb_exists; by exists "%").
      congruence.
  - intros pre d post Hhost. destruct (isDigit d) eqn:Hd; [|done].
    assert (somewhere portAtHead (c :: t) = true); [|congruence].
    apply somewhere_spec. exists pre, (":" :: d :: post). split; [done|].
    simpl. by rewrite Hd.
  - intros pre post Hhost.
    assert (somewhere (hasPrefix "/npub") (c :: t) = true); [|congruence].
    apply somewhere_spec. exists pre, (chars "/npub" ++ post). split; [done|].
    unfold hasPrefix. apply bool_decide_eq_true_2. exists post.
    by apply stripPrefix_spec.
Qed.
End ShareableFacts.

(* ================================================================== *)
(** * What a chunk does to the feed and to the replies *)
(* ================================================================== *)

Section KeyFacts.
Context {A K : Type} `{EqDecision K} (f : A → K).

(** [uniqBy] keeps every key. *)
Lemma uniqByFrom_keeps_keys met l k :
  k ∈ f <$> l → k ∉ met → k ∈ f <$> uniqByFrom f met l.
Proof.
  revert met. induction l as [|x l IH]; intros met Hin Hmet; [by inversion Hin|].
  rewrite fmap_cons in Hin. simpl.
  destruct (decide (k = f x)) as [->|Hne].
  - rewrite bool_decide_eq_false_2 by done. rewrite fmap_cons. by left.
  - apply elem_of_cons in Hin as [?|Hin]; [done|].
    case_bool_decide; [by apply IH|]. rewrite fmap_cons. right.
    apply IH; [done|]. intros Hc. apply elem_of_cons in Hc as [?|?]; done.
Qed.

Lemma uniqBy_keeps_keys l k : k ∈ f <$> l → k ∈ f <$> uniqBy f l.
Proof. intros Hin. apply uniqByFrom_keeps_keys; [done|]. intros H; inversion H. Qed.

Lemma hasKey_true k l : hasKey f k l = true → k ∈ f <$> l.
Proof.
  unfold hasKey. induction l as [|x l IH]; intros Hk; [done|].
  simpl in Hk. rewrite fmap_cons. apply orb_true_iff in Hk as [Hx|Hl].
  - apply bool_decide_eq_true in Hx. subst. by left.
  - right. by apply IH.
Qed.
End KeyFacts.

Section ClimbFacts.
Context `{env : FeedEnv}.

Lemma repliesKept_refl h : repliesKept h h.
Proof. by intros s k. Qed.

Lemma repliesKept_trans h1 h2 h3 :
  repliesKept h1 h2 → repliesKept h2 h3 → repliesKept h1 h3.
Proof. intros H12 H23 s k Hk. by apply H23, H12. Qed.

Lemma pushToKey_kept h p e : repliesKept h (pushToKey h p e).
Proof.
  intros s k Hk. destruct (decide (s = slot p)) as [->|Hne].
  - rewrite repliesAt_push_eq, fmap_app. apply elem_of_app. by left.
  - by rewrite repliesAt_push_ne.
Qed.

(** The loop ends where [topOf] says, and takes nothing out of the
    [replies] arrays. *)
Lemma climb_top fuel ps : ∀ h e h' t,
  climb fuel ps h e = Some (h', t) →
  topOf fuel ps e = Some t ∧ repliesKept h h'.
Proof.
  induction fuel as [|fuel IH]; intros h e h' t Hc; simpl in *; [done|].
  destruct (negb (truthy (findReplyId (event e)))).
  { inversion Hc; subst. split; [done | apply repliesKept_refl]. }
  destruct (ps !! default ""%string (findReplyId (event e))) as [parent|].
  2:{ inversion Hc; subst. split; [done | apply repliesKept_refl]. }
  apply IH in Hc as [Ht Hk]. split; [done|].
  eapply repliesKept_trans; [|exact Hk].
  destruct (_ && _); [apply pushToKey_kept | apply repliesKept_refl].
Qed.

(** An event of a note kind with a resolved parent is in the [replies]
    of the parent when the loop has ended. *)
Lemma climb_attaches fuel ps h e h' t p :
  climb fuel ps h e = Some (h', t) →
  resolvedParent ps e = Some p → isNote e = true →
  eid e ∈ eid <$> repliesAt h' (slot p).
Proof.
  unfold resolvedParent, isNote. intros Hc Hp Hn.
  destruct fuel as [|fuel]; simpl in Hc; [done|].
  destruct (truthy (findReplyId (event e))); [|done]. simpl in Hc.
  rewrite Hp, Hn in Hc. simpl in Hc.
  apply climb_top in Hc as [_ Hk]. apply Hk.
  destruct (hasKey eid (eid e) (repliesAt h (slot p))) eqn:Hhas; simpl.
  - by apply hasKey_true.
  - rewrite repliesAt_push_eq, fmap_app. apply elem_of_app. right.
    rewrite list_fmap_singleton. by apply list_elem_of_singleton.
Qed.

Lemma climbAll_tops fuel ps l : ∀ h h' tops,
  climbAll fuel ps h l = Some (h', tops) →
  repliesKept h h'
  ∧ Forall2 (λ e t, topOf fuel ps e = Some t) l tops
  ∧ ∀ e p, e ∈ l → resolvedParent ps e = Some p → isNote e = true →
           eid e ∈ eid <$> repliesAt h' (slot p).
Proof.
  induction l as [|e l IH]; intros h h' tops Hc; simpl in Hc.
  - inversion Hc; subst. split; [apply repliesKept_refl|]. split; [constructor|].
    intros e p He. inversion He.
  - destruct (climb fuel ps h e) as [[h1 t]|] eqn:H1; [|done].
    destruct (climbAll fuel ps h1 l) as [[h2 ts]|] eqn:H2; [|done].
    inversion Hc; subst. apply IH in H2 as (Hk2 & Htops & Hatt).
    pose proof (climb_top _ _ _ _ _ _ H1) as [Ht Hk1].
    split; [by eapply repliesKept_trans|]. split; [by constructor|].
    intros e' p He' Hp Hn. apply elem_of_cons in He' as [->|He'].
    + apply Hk2. by eapply climb_attaches.
    + by eapply Hatt.
Qed.

Lemma uniqReplies_kept h e : repliesKept h (uniqReplies h e).
Proof.
  intros s k. rewrite uniqReplies_at. case_decide; [|done].
  apply uniqBy_keeps_keys.
Qed.

Lemma foldl_uniqReplies_kept l : ∀ h, repliesKept h (foldl uniqReplies h l).
Proof.
  induction l as [|e l IH]; intros h; simpl; [apply repliesKept_refl|].
  eapply repliesKept_trans; [apply uniqReplies_kept | apply IH].
Qed.

Lemma topOf_unresolved fuel ps : ∀ e t,
  topOf fuel ps e = Some t →
  resolvedParent ps t = None ∧ (t = e ∨ ∃ k, ps !! k = Some t).
Proof.
  induction fuel as [|fuel IH]; intros e t Ht; simpl in Ht; [done|].
  unfold resolvedParent in *.
  destruct (truthy (findReplyId (event e))) eqn:Htr; simpl in Ht.
  2:{ inversion Ht; subst. rewrite Htr. split; [done | by left]. }
  destruct (ps !! default ""%string (findReplyId (event e))) as [parent|] eqn:Hp.
  2:{ inversion Ht; subst. rewrite Htr, Hp. split; [done | by left]. }
  destruct (IH _ _ Ht) as (Hnone & Hfrom). split; [done|].
  right. destruct Hfrom as [->|[k Hk]]; eauto.
Qed.

(** X17.  The loop of [buildFeedChunk], when it ends, ends at an event
    without a resolved parent: the event itself, with no [replies] array
    touched, when it has none, otherwise one of the known parents.  Where
    it ends does not depend on the [replies] arrays. *)
Theorem climb_ends_unresolved fuel ps h e h' t :
  climb fuel ps h e = Some (h', t) →
  topOf fuel ps e = Some t
  ∧ resolvedParent ps t = None
  ∧ (t = e ∨ ∃ k, ps !! k = Some t)
  ∧ (resolvedParent ps e = None → t = e ∧ h' = h).
Proof.
  intros Hc. pose proof (climb_top _ _ _ _ _ _ Hc) as [Ht _].
  destruct (topOf_unresolved _ _ _ _ Ht) as [Hnone Hfrom].
  split; [done|]. split; [done|]. split; [done|].
  intros He. destruct fuel as [|fuel]; simpl in Hc; [done|].
  unfold resolvedParent in He.
  destruct (truthy (findReplyId (event e))); simpl in Hc.
  - rewrite He in Hc. by inversion Hc.
  - by inversion Hc.
Qed.

(** X18.  After [buildFeedChunk], every new event of a note kind whose
    parent is resolved is in the [replies] of that parent, and no id that
    was in a [replies] array has left it. *)
Theorem buildFeedChunk_attaches_replies fuel st new_notes h chunk :
  buildFeedChunk fuel st new_notes = Some (h, chunk) →
  (∀ e p, e ∈ new_notes → resolvedParent (parents st) e = Some p →
          isNote e = true → eid e ∈ eid <$> repliesAt h (slot p))
  ∧ ∀ s k, k ∈ eid <$> repliesAt (store st) s → k ∈ eid <$> repliesAt h s.
Proof.
  unfold buildFeedChunk.
  destruct (climbAll fuel (parents st) (store st) new_notes) as [[h1 tops]|] eqn:Hc;
    [|done].
  intros Hb. inversion Hb; subst; clear Hb.
  apply climbAll_tops in Hc as (Hk & _ & Hatt).
  pose proof (foldl_uniqReplies_kept
    (List.filter (keepInChunk (eid <$> notes st)) (tops ++ [])) h1) as Hk2.
  split.
  - intros e p He Hp Hn. by apply Hk2, (Hatt e p).
  - intros s k Hin. by apply Hk2, Hk.
Qed.


(** X20.  A parent that is resolved under its own id as its parent makes
    the loop run for ever: [addToFeed] never returns for a list that holds
    a reply to it. *)
Theorem self_parent_never_returns fuel new_notes st e p :
  e ∈ new_notes →
  resolvedParent (parents st) e = Some p →
  resolvedParent (parents st) p = Some p →
  addToFeed fuel new_notes st = None.
Proof.
  intros He Hep Hpp.
  assert (Hloop : ∀ n h, climb n (parents st) h p = None).
  { induction n as [|n IH]; intros h; simpl; [done|].
    unfold resolvedParent in Hpp.
    destruct (truthy (findReplyId (event p))); [|done]. simpl.
    rewrite Hpp. apply IH. }
  assert (Hclimb : ∀ h, climb fuel (parents st) h e = None).
  { intros h. destruct fuel as [|n]; simpl; [done|].
    unfold resolvedParent in Hep.
    destruct (truthy (findReplyId (event e))); [|done]. simpl.
    rewrite Hep. apply Hloop. }
  assert (Hall : ∀ h, climbAll fuel (parents st) h new_notes = None).
  { clear -He Hclimb. induction new_notes as [|x l IH]; intros h; [by inversion He|].
    simpl. apply elem_of_cons in He as [<-|He]; [by rewrite Hclimb|].
    destruct (climb fuel (parents st) h x) as [[h1 t]|]; [|done].
    by rewrite IH. }
  unfold addToFeed, buildFeedChunk. by rewrite Hall.
Qed.
End ClimbFacts.

(* ================================================================== *)
(** * What a loader never holds *)
(* ================================================================== *)

Lemma ListFilter_Forall {A : Type} (P : A → Prop) (p : A → bool) l :
  Forall P l → Forall P (List.filter p l).
Proof.
  rewrite !Forall_forall. intros H x Hx. apply ListFilter_elem in Hx as [Hx _]. auto.
Qed.

Section FrameFacts.
Context `{env : FeedEnv}.

(** [addToFeed] writes the feed and the store and nothing else. *)
Lemma addToFeed_frame fuel l st st' :
  addToFeed fuel l st = Some st' →
  opts st' = opts st ∧ stopped st' = stopped st ∧ subs st' = subs st
  ∧ buffer st' = buffer st ∧ parents st' = parents st
  ∧ deferred st' = deferred st ∧ timers st' = timers st.
Proof.
  unfold addToFeed. destruct (buildFeedChunk fuel st l) as [[h chunk]|]; [|done].
  by intros Hst; inversion Hst; subst.
Qed.

Lemma exec_opts fuel a st st' : exec fuel a st = Some st' → opts st' = opts st.
Proof.
  intros Hexec.
  destruct a as [n now new_subs events| | |events|events|s|i]; simpl in Hexec.
  - unfold load in Hexec. destruct (n <? length events)%nat; [done|].
    cbn [receive] in Hexec. destruct (shouldDefer (opts st)).
    + destruct (deferOrphans _ _) as [ok1 st4] eqn:H4.
      destruct (deferAncient now ok1 st4) as [ok2 st5] eqn:H5.
      apply addToFeed_frame in Hexec as (-> & _).
      pose proof (deferAncient_frame now ok1 st4) as Hf5. rewrite H5 in Hf5.
      simpl in Hf5. destruct Hf5 as (-> & _).
      match type of H4 with deferOrphans ?l ?s = _ =>
        pose proof (deferOrphans_frame l s) as Hf4 end.
      rewrite H4 in Hf4. simpl in Hf4. by destruct Hf4 as (-> & _).
    + by apply addToFeed_frame in Hexec as (-> & _).
  - unfold loadBuffer in Hexec.
    destruct (addToFeed fuel (buffer st) st) as [st1|] eqn:Ha; [|done].
    inversion Hexec; subst. by apply addToFeed_frame in Ha as (<- & _).
  - by inversion Hexec; subst.
  - unfold onLiveBatch in Hexec. destruct (listening st); [|done].
    by inversion Hexec; subst.
  - unfold onParentBatch in Hexec. destruct (shouldLoadParents (opts st)); [|done].
    by inversion Hexec; subst.
  - by inversion Hexec; subst.
  - unfold onTimer in Hexec. destruct (timers st !! i) as [[d defer]|]; [|done].
    by apply addToFeed_frame in Hexec as (-> & _).
Qed.





End FrameFacts.

Section Screening.
Context `{env : FeedEnv} (P : DisplayEvent → Prop).

Lemma climb_screened fuel ps : ∀ h e h' t,
  (∀ k p, ps !! k = Some p → P p) →
  P e → (∀ s, Forall P (repliesAt h s)) →
  climb fuel ps h e = Some (h', t) →
  P t ∧ ∀ s, Forall P (repliesAt h' s).
Proof.
  intros h e h' t Hps. revert h e.
  induction fuel as [|fuel IH]; intros h e He Hh Hc; simpl in Hc; [done|].
  destruct (negb (truthy (findReplyId (event e)))); [by inversion Hc; subst|].
  destruct (ps !! default ""%string (findReplyId (event e))) as [parent|] eqn:Hp;
    [|by inversion Hc; subst].
  apply IH in Hc; [done | by eapply Hps |].
  destruct (_ && _); [|done].
  intros s. destruct (decide (s = slot parent)) as [->|Hne].
  - rewrite repliesAt_push_eq. apply Forall_app. split; [done | by constructor].
  - by rewrite repliesAt_push_ne.
Qed.

Lemma climbAll_screened fuel ps l : ∀ h h' tops,
  (∀ k p, ps !! k = Some p → P p) →
  Forall P l → (∀ s, Forall P (repliesAt h s)) →
  climbAll fuel ps h l = Some (h', tops) →
  Forall P tops ∧ ∀ s, Forall P (repliesAt h' s).
Proof.
  induction l as [|e l IH]; intros h h' tops Hps Hl Hh Hc; simpl in Hc.
  - by inversion Hc; subst.
  - apply Forall_cons in Hl as [He Hl].
    destruct (climb fuel ps h e) as [[h1 t]|] eqn:H1; [|done].
    destruct (climbAll fuel ps h1 l) as [[h2 ts]|] eqn:H2; [|done].
    inversion Hc; subst.
    apply climb_screened in H1 as [Ht Hh1]; [|done..].
    apply IH in H2 as [Hts Hh2]; [|done..]. split; [by constructor | done].
Qed.

Lemma foldl_uniqReplies_screened l : ∀ h,
  (∀ s, Forall P (repliesAt h s)) →
  ∀ s, Forall P (repliesAt (foldl uniqReplies h l) s).
Proof.
  induction l as [|e l IH]; intros h Hh; simpl; [done|].
  apply IH. intros s. rewrite uniqReplies_at. case_decide; [|done].
  by apply uniqBy_Forall.
Qed.

Lemma addToFeed_screened fuel l st st' :
  screened P st → Forall P l → addToFeed fuel l st = Some st' →
  screened P st'.
Proof.
  intros (Hn & Hb & Hd & Ht & Hp & Hs) Hl Hadd.
  pose proof (addToFeed_frame _ _ _ _ Hadd) as (_ & _ & _ & Hb' & Hp' & Hd' & Ht').
  unfold screened. rewrite Hb', Hp', Hd', Ht'.
  unfold addToFeed, buildFeedChunk in Hadd.
  destruct (climbAll fuel (parents st) (store st) l) as [[h1 tops]|] eqn:Hc; [|done].
  inversion Hadd; subst; clear Hadd. simpl.
  apply climbAll_screened in Hc as [Htops Hh1]; [|done..].
  split; [|split; [done|split; [done|split; [done|split; [done|]]]]].
  - apply uniqBy_Forall, Forall_app. split; [done|].
    rewrite sortBy_perm. apply uniqBy_Forall, ListFilter_Forall.
    by rewrite app_nil_r.
  - by apply foldl_uniqReplies_screened.
Qed.

Lemma foldl_insert_from (l : list DisplayEvent) : ∀ (ps : gmap string DisplayEvent) k p,
  foldl (λ ps e, <[eid e := e]> ps) ps l !! k = Some p →
  ps !! k = Some p ∨ (p ∈ l ∧ eid p = k).
Proof.
  induction l as [|e l IH]; intros ps k p Hk; simpl in Hk; [by left|].
  apply IH in Hk as [Hk|[Hk Hid]].
  - destruct (decide (eid e = k)) as [<-|Hne].
    + rewrite lookup_insert_eq in Hk. inversion Hk; subst. right. split; [by left | done].
    + rewrite lookup_insert_ne in Hk by done. by left.
  - right. split; [by right | done].
Qed.

(** One action keeps the property, when [discardEvents] lets through
    only events that have it. *)
Lemma exec_screened fuel a st st' :
  (∀ l e, e ∈ discardEvents (opts st) l → P e) →
  screened P st → exec fuel a st = Some st' → screened P st'.
Proof.
  intros HP Hsc Hexec.
  assert (Hdisc : ∀ l, Forall P (discardEvents (opts st) l)).
  { intros l. apply Forall_forall. intros e. apply HP. }
  pose proof Hsc as (Hn & Hb & Hd & Ht & Hp & Hs).
  destruct a as [n now new_subs events| | |events|events|s|i]; simpl in Hexec.
  - unfold load in Hexec. destruct (n <? length events)%nat; [done|].
    cbn [receive] in Hexec. destruct (shouldDefer (opts st)).
    + unfold deferOrphans, deferAncient in Hexec.
      destruct st as [o' stp sbs buf nts ps dfr lst sto nxt tms cls].
      cbn -[discardEvents addToFeed] in *.
      set (fresh := discardEvents o' _ ++ dfr) in *.
      assert (Hfresh : Forall P fresh) by (apply Forall_app; split; [apply Hdisc | done]).
      destruct (shouldLoadParents o'); cbn -[discardEvents addToFeed] in Hexec;
        rewrite ?partition_as_filter in Hexec;
        cbn -[discardEvents addToFeed] in Hexec;
        eapply addToFeed_screened in Hexec; try done;
        repeat apply ListFilter_Forall; try done.
      * unfold screened. cbn. repeat split; try done.
        rewrite !Forall_app. repeat split; try done;
          repeat constructor; cbn; by repeat apply ListFilter_Forall.
      * unfold screened. cbn. repeat split; try done.
        rewrite !Forall_app. repeat split; try done;
          repeat constructor; cbn; by repeat apply ListFilter_Forall.
    + eapply addToFeed_screened in Hexec; [done | | apply Hdisc].
      by destruct st.
  - unfold loadBuffer in Hexec.
    destruct (addToFeed fuel (buffer st) st) as [st1|] eqn:Ha; [|done].
    inversion Hexec; subst. eapply addToFeed_screened in Ha; [|done..].
    destruct Ha as (? & ? & ? & ? & ? & ?). by repeat split.
  - inversion Hexec; subst. by destruct st.
  - unfold onLiveBatch in Hexec. destruct (listening st); [|done].
    cbn [receive] in Hexec. inversion Hexec; subst.
    destruct st. cbn in *. repeat split; try done.
    apply Forall_app. split; [done | apply Hdisc].
  - unfold onParentBatch in Hexec. destruct (shouldLoadParents (opts st)); [|done].
    cbn [receive] in Hexec. inversion Hexec; subst.
    destruct st. cbn -[discardEvents] in *. repeat split; try done.
    intros k p Hk. apply foldl_insert_from in Hk as [Hk|[Hk _]]; [by eapply Hp|].
    by eapply HP.
  - inversion Hexec; subst. by destruct st.
  - unfold onTimer in Hexec. destruct (timers st !! i) as [[d defer]|] eqn:Hi; [|done].
    eapply addToFeed_screened in Hexec; [done| |].
    + destruct st. cbn in *. repeat split; try done. by apply Forall_delete.
    + rewrite Forall_forall in Ht. apply (Ht (d, defer)).
      apply list_elem_of_lookup. by exists i.
Qed.

Lemma run_screened fuel acts : ∀ st st',
  (∀ l e, e ∈ discardEvents (opts st) l → P e) →
  screened P st → run fuel acts st = Some st' → screened P st'.
Proof.
  induction acts as [|a acts IH]; intros st st' HP Hsc Hrun; simpl in Hrun.
  - by inversion Hrun; subst.
  - destruct (exec fuel a st) as [st1|] eqn:Hexec; [|done].
    apply (IH st1); [|by eapply exec_screened|done].
    by rewrite (exec_opts _ _ _ _ Hexec).
Qed.

Lemma construct_screened o live_sub cursor_subs :
  screened P (construct o live_sub cursor_subs).
Proof.
  unfold screened. cbn.
  split; [constructor|]. split; [constructor|]. split; [constructor|].
  split; [constructor|]. split.
  - intros k p Hk. by rewrite lookup_empty in Hk.
  - intros s. unfold repliesAt. rewrite lookup_empty. constructor.
Qed.
End Screening.

Section WhereRepliesComeFrom.
Context `{env : FeedEnv}.

Lemma addedUnderParent_refl ps h : addedUnderParent ps h h.
Proof. intros s r Hr. by left. Qed.

Lemma addedUnderParent_trans ps h1 h2 h3 :
  addedUnderParent ps h1 h2 → addedUnderParent ps h2 h3 → addedUnderParent ps h1 h3.
Proof.
  intros H12 H23 s r Hr. destruct (H23 s r Hr) as [Hr2|Hn]; [|by right].
  by apply H12.
Qed.

Lemma climb_addedUnderParent fuel ps : ∀ h e h' t,
  climb fuel ps h e = Some (h', t) → addedUnderParent ps h h'.
Proof.
  induction fuel as [|fuel IH]; intros h e h' t Hc; simpl in Hc; [done|].
  destruct (truthy (findReplyId (event e))) eqn:Htr; simpl in Hc.
  2:{ inversion Hc; subst. apply addedUnderParent_refl. }
  destruct (ps !! default ""%string (findReplyId (event e))) as [parent|] eqn:Hp.
  2:{ inversion Hc; subst. apply addedUnderParent_refl. }
  apply IH in Hc. eapply addedUnderParent_trans; [|exact Hc].
  destruct (includes (kind (event e)) noteKinds) eqn:Hk; simpl;
    [|apply addedUnderParent_refl].
  destruct (negb _); [|apply addedUnderParent_refl].
  intros s r Hr. destruct (decide (s = slot parent)) as [->|Hne].
  - rewrite repliesAt_push_eq in Hr. apply elem_of_app in Hr as [Hr|Hr]; [by left|].
    apply list_elem_of_singleton in Hr. subst r. right. split; [done|].
    exists parent. unfold resolvedParent. by rewrite Htr, Hp.
  - rewrite repliesAt_push_ne in Hr by done. by left.
Qed.

Lemma climbAll_addedUnderParent fuel ps l : ∀ h h' tops,
  climbAll fuel ps h l = Some (h', tops) → addedUnderParent ps h h'.
Proof.
  induction l as [|e l IH]; intros h h' tops Hc; simpl in Hc.
  - inversion Hc; subst. apply addedUnderParent_refl.
  - destruct (climb fuel ps h e) as [[h1 t]|] eqn:H1; [|done].
    destruct (climbAll fuel ps h1 l) as [[h2 ts]|] eqn:H2; [|done].
    inversion Hc; subst. eapply addedUnderParent_trans.
    + by eapply climb_addedUnderParent.
    + by eapply IH.
Qed.

Lemma foldl_uniqReplies_sub l : ∀ h s r,
  r ∈ repliesAt (foldl uniqReplies h l) s → r ∈ repliesAt h s.
Proof.
  induction l as [|e l IH]; intros h s r Hr; simpl in Hr; [done|].
  apply IH in Hr. rewrite uniqReplies_at in Hr.
  case_decide; [by apply uniqBy_elem in Hr | done].
Qed.

Lemma buildFeedChunk_addedUnderParent fuel st l h chunk :
  buildFeedChunk fuel st l = Some (h, chunk) →
  addedUnderParent (parents st) (store st) h.
Proof.
  unfold buildFeedChunk.
  destruct (climbAll fuel (parents st) (store st) l) as [[h1 tops]|] eqn:Hc; [|done].
  intros Hb. inversion Hb; subst; clear Hb.
  apply climbAll_addedUnderParent in Hc.
  intros s r Hr. apply foldl_uniqReplies_sub in Hr. by apply Hc.
Qed.

(** X22.  [buildFeedChunk] puts an event in a [replies] array only when
    the event is of a note kind and the array is that of the parent
    resolved for it; whatever else is in the arrays was there before. *)
Theorem replies_only_under_resolved_parent fuel st new_notes h chunk :
  buildFeedChunk fuel st new_notes = Some (h, chunk) →
  ∀ s r, r ∈ repliesAt h s →
         r ∈ repliesAt (store st) s
         ∨ (isNote r = true
            ∧ ∃ p, resolvedParent (parents st) r = Some p ∧ slot p = s).
Proof. apply buildFeedChunk_addedUnderParent. Qed.

(** Whatever an action does to the store, one chunk built on the loader
    does. *)
Lemma exec_store fuel a st st' :
  exec fuel a st = Some st' →
  store st' = store st
  ∨ ∃ l chunk, buildFeedChunk fuel st l = Some (store st', chunk).
Proof.
  assert (Hadd : ∀ l st0 st1, sameFeed st0 st → addToFeed fuel l st0 = Some st1 →
            ∃ chunk, buildFeedChunk fuel st l = Some (store st1, chunk)).
  { intros l st0 st1 (Hn & Hp & Hs) Ha. unfold addToFeed in Ha.
    rewrite (buildFeedChunk_reads fuel st0 st l Hn Hp Hs) in Ha.
    destruct (buildFeedChunk fuel st l) as [[h chunk]|]; [|done].
    inversion Ha; subst. by exists chunk. }
  intros Hexec.
  destruct a as [n now new_subs events| | |events|events|s|i]; simpl in Hexec.
  - right. unfold load in Hexec. destruct (n <? length events)%nat; [done|].
    cbn [receive] in Hexec. destruct (shouldDefer (opts st)).
    + destruct (deferOrphans _ _) as [ok1 st4] eqn:H4.
      destruct (deferAncient now ok1 st4) as [ok2 st5] eqn:H5.
      exists ok2. eapply Hadd; [|exact Hexec].
      pose proof (deferAncient_frame now ok1 st4) as Hf5. rewrite H5 in Hf5.
      simpl in Hf5. destruct Hf5 as (_ & Hn5 & Hp5 & Hs5 & _).
      match type of H4 with deferOrphans ?l ?s = _ =>
        pose proof (deferOrphans_frame l s) as Hf4 end.
      rewrite H4 in Hf4. simpl in Hf4. destruct Hf4 as (_ & Hn4 & Hp4 & Hs4 & _).
      unfold sameFeed. by rewrite Hn5, Hp5, Hs5, Hn4, Hp4, Hs4.
    + eexists. eapply Hadd; [|exact Hexec]. by repeat split.
  - right. unfold loadBuffer in Hexec.
    destruct (addToFeed fuel (buffer st) st) as [st1|] eqn:Ha; [|done].
    inversion Hexec; subst. exists (buffer st).
    change (store (set_buffer [] st1)) with (store st1).
    eapply (Hadd _ st); [by repeat split | exact Ha].
  - left. by inversion Hexec; subst.
  - left. unfold onLiveBatch in Hexec. destruct (listening st); [|done].
    by inversion Hexec; subst.
  - left. unfold onParentBatch in Hexec.
    destruct (shouldLoadParents (opts st)); [|done]. by inversion Hexec; subst.
  - left. by inversion Hexec; subst.
  - right. unfold onTimer in Hexec.
    destruct (timers st !! i) as [[d defer]|]; [|done].
    exists defer. eapply Hadd; [|exact Hexec]. by repeat split.
Qed.

Lemma run_replies_are_replies fuel acts : ∀ st st',
  (∀ s r, r ∈ repliesAt (store st) s → truthy (findReplyId (event r)) = true) →
  run fuel acts st = Some st' →
  ∀ s r, r ∈ repliesAt (store st') s → truthy (findReplyId (event r)) = true.
Proof.
  induction acts as [|a acts IH]; intros st st' Hst Hrun; simpl in Hrun.
  - by inversion Hrun; subst.
  - destruct (exec fuel a st) as [st1|] eqn:Hexec; [|done].
    apply (IH st1); [|done]. intros s r Hr.
    apply exec_store in Hexec as [Heq|(l & chunk & Hb)].
    + rewrite Heq in Hr. by eapply Hst.
    + apply buildFeedChunk_addedUnderParent in Hb.
      destruct (Hb s r Hr) as [Hold|(_ & p & Hp & _)]; [by eapply Hst|].
      unfold resolvedParent in Hp.
      by destruct (truthy (findReplyId (event r))).
Qed.
End WhereRepliesComeFrom.

Section ScreenTheorems.
Context `{env : FeedEnv}.

Lemma discardEvents_elem o l e :
  e ∈ discardEvents o l →
  e ∈ l ∧ isEventMuted (event e) = false
  ∧ (shouldHideReplies o = true → truthy (findReplyId (event e)) = false).
Proof.
  unfold discardEvents. intros He. apply ListFilter_elem in He as [He Hk].
  split; [done|]. destruct (isEventMuted (event e)); [done|]. split; [done|].
  intros Ho. rewrite Ho in Hk. simpl in Hk.
  by destruct (truthy (findReplyId (event e))).
Qed.

Lemma construct_repliesAt o live_sub cursor_subs s :
  repliesAt (store (construct o live_sub cursor_subs)) s = [].
Proof. unfold repliesAt. simpl. by rewrite lookup_empty. Qed.

(** X23.  No event of a muted author is ever held by a loader: not in
    the feed, not in the buffer, not in a timer, not among the parents
    and not in a [replies] array. *)
Theorem muted_events_are_never_held o live_sub cursor_subs fuel acts st :
  run fuel acts (construct o live_sub cursor_subs) = Some st →
  screened (λ e, isEventMuted (event e) = false) st.
Proof.
  intros Hrun. eapply run_screened; [| apply construct_screened | exact Hrun].
  intros l e He. by apply discardEvents_elem in He as (_ & Hm & _).
Qed.

(** X24.  With [shouldHideReplies], the loader holds no reply: the feed,
    the buffer, the timers and the parents hold only events without a
    reply id, and every [replies] array is empty. *)
Theorem hidden_replies_are_never_held o live_sub cursor_subs fuel acts st :
  shouldHideReplies o = true →
  run fuel acts (construct o live_sub cursor_subs) = Some st →
  screened (λ e, truthy (findReplyId (event e)) = false) st
  ∧ ∀ s, repliesAt (store st) s = [].
Proof.
  intros Ho Hrun.
  assert (Hsc : screened (λ e, truthy (findReplyId (event e)) = false) st).
  { eapply run_screened; [| apply construct_screened | exact Hrun].
    intros l e He. apply discardEvents_elem in He as (_ & _ & Hr). by apply Hr. }
  split; [done|]. intros s.
  destruct (repliesAt (store st) s) as [|r rs] eqn:Hrs; [done|].
  assert (Hin : r ∈ repliesAt (store st) s) by (rewrite Hrs; by left).
  assert (Htrue : truthy (findReplyId (event r)) = true).
  { eapply run_replies_are_replies; [|exact Hrun|exact Hin].
    intros s' r' Hr'. rewrite construct_repliesAt in Hr'. inversion Hr'. }
  destruct Hsc as (_ & _ & _ & _ & _ & Hs). specialize (Hs s).
  rewrite Forall_forall in Hs. apply Hs in Hin. congruence.
Qed.
End ScreenTheorems.

(* ================================================================== *)
(** * Parents, buffer and timers over a run *)
(* ================================================================== *)

Section ParentFacts.
Context `{env : FeedEnv}.

(** What [parents.set(e.id, e)] for the events of a list, one after the
    other, leaves under a key: the last event of the list with that id,
    or what was there when the list has none. *)
Lemma foldl_insert_lookup (l : list DisplayEvent) :
  ∀ (ps : gmap string DisplayEvent) k,
  foldl (λ ps e, <[eid e := e]> ps) ps l !! k
  = match last (List.filter (λ p, bool_decide (eid p = k)) l) with
    | Some p => Some p
    | None => ps !! k
    end.
Proof.
  induction l as [|x l IH] using rev_ind; intros ps k; [done|].
  rewrite foldl_app, List.filter_app. simpl.
  case_bool_decide as Hx.
  - by rewrite Hx, lookup_insert_eq, last_snoc.
  - rewrite lookup_insert_ne by done. rewrite app_nil_r. apply IH.
Qed.

(** Only a batch of parents changes the parents. *)
Lemma exec_parents fuel a st st' :
  exec fuel a st = Some st' →
  parents st' = parents st
  ∨ ∃ l, parents st' = foldl (λ ps e, <[eid e := e]> ps) (parents st) l.
Proof.
  intros Hexec.
  destruct a as [n now new_subs events| | |events|events|s|i]; simpl in Hexec.
  - left. unfold load in Hexec. destruct (n <? length events)%nat; [done|].
    cbn [receive] in Hexec. destruct (shouldDefer (opts st)).
    + destruct (deferOrphans _ _) as [ok1 st4] eqn:H4.
      destruct (deferAncient now ok1 st4) as [ok2 st5] eqn:H5.
      apply addToFeed_frame in Hexec as (_ & _ & _ & _ & -> & _).
      pose proof (deferAncient_frame now ok1 st4) as Hf5. rewrite H5 in Hf5.
      simpl in Hf5. destruct Hf5 as (_ & _ & -> & _).
      match type of H4 with deferOrphans ?l ?s = _ =>
        pose proof (deferOrphans_frame l s) as Hf4 end.
      rewrite H4 in Hf4. simpl in Hf4. by destruct Hf4 as (_ & _ & -> & _).
    + by apply addToFeed_frame in Hexec as (_ & _ & _ & _ & -> & _).
  - left. unfold loadBuffer in Hexec.
    destruct (addToFeed fuel (buffer st) st) as [st1|] eqn:Ha; [|done].
    inversion Hexec; subst. by apply addToFeed_frame in Ha as (_ & _ & _ & _ & <- & _).
  - left. by inversion Hexec; subst.
  - left. unfold onLiveBatch in Hexec. destruct (listening st); [|done].
    by inversion Hexec; subst.
  - right. unfold onParentBatch in Hexec.
    destruct (shouldLoadParents (opts st)); [|done].
    cbn [receive] in Hexec. inversion Hexec; subst. by eexists.
  - left. by inversion Hexec; subst.
  - left. unfold onTimer in Hexec. destruct (timers st !! i) as [[d defer]|]; [|done].
    by apply addToFeed_frame in Hexec as (_ & _ & _ & _ & -> & _).
Qed.

Lemma run_parents_keyed fuel acts : ∀ st st',
  (∀ k p, parents st !! k = Some p → eid p = k) →
  run fuel acts st = Some st' →
  ∀ k p, parents st' !! k = Some p → eid p = k.
Proof.
  induction acts as [|a acts IH]; intros st st' Hst Hrun; simpl in Hrun.
  - by inversion Hrun; subst.
  - destruct (exec fuel a st) as [st1|] eqn:Hexec; [|done].
    apply (IH st1); [|done]. intros k p Hk.
    apply exec_parents in Hexec as [Heq|[l Heq]]; rewrite Heq in Hk.
    + by eapply Hst.
    + apply foldl_insert_from in Hk as [Hk|[_ Hid]]; [by eapply Hst | done].
Qed.

(** X25.  The parents are kept under their own ids: the parent that is
    resolved for an event is an event whose id is the reply id of the
    event. *)
Theorem resolved_parent_has_the_reply_id o live_sub cursor_subs fuel acts st :
  run fuel acts (construct o live_sub cursor_subs) = Some st →
  (∀ k p, parents st !! k = Some p → eid p = k)
  ∧ ∀ e p, resolvedParent (parents st) e = Some p →
           findReplyId (event e) = Some (eid p).
Proof.
  intros Hrun.
  assert (Hkeys : ∀ k p, parents st !! k = Some p → eid p = k).
  { eapply run_parents_keyed; [|exact Hrun]. intros k p Hk. simpl in Hk.
    by rewrite lookup_empty in Hk. }
  split; [done|]. intros e p Hp. unfold resolvedParent in Hp.
  destruct (findReplyId (event e)) as [r|] eqn:Hr; simpl in Hp; [|done].
  destruct (negb (String.eqb r "")); [|done]. apply Hkeys in Hp. by rewrite Hp.
Qed.

(** X26.  A batch of parents leaves the feed, the buffer and the
    [replies] arrays as they are.  Afterwards the entry under an id is
    the last event of the batch with that id that [discardEvents] lets
    through, and is what it was when the batch has no such event. *)
Theorem parent_batch_resolves events st st' :
  onParentBatch events st = Some st' →
  let kept := discardEvents (opts st) (receive events st).1 in
  notes st' = notes st ∧ buffer st' = buffer st ∧ store st' = store st
  ∧ ∀ k, parents st' !! k
         = match last (List.filter (λ p, bool_decide (eid p = k)) kept) with
           | Some p => Some p
           | None => parents st !! k
           end.
Proof.
  unfold onParentBatch. destruct (shouldLoadParents (opts st)); [|done].
  cbn [receive]. intros Hst; inversion Hst; subst; clear Hst. cbn zeta.
  split; [done|]. split; [done|]. split; [done|].
  intros k. apply foldl_insert_lookup.
Qed.
End ParentFacts.

Section RunFacts.
Context `{env : FeedEnv}.

Lemma run_prefix fuel acts : ∀ st st',
  feedInvariant st → run fuel acts st = Some st' →
  notes st `prefix_of` notes st'.
Proof.
  induction acts as [|a acts IH]; intros st st' Hinv Hrun; simpl in Hrun.
  - by inversion Hrun; subst.
  - destruct (exec fuel a st) as [st1|] eqn:Hexec; [|done].
    apply exec_step in Hexec as (Hinv1 & chunk & Hn & _); [|done].
    etrans; [|by eapply IH]. rewrite Hn. by exists chunk.
Qed.

(** X27.  The feed only grows at its end: what a loader shows at some
    point is a prefix of what it shows at any later point. *)
Theorem feed_is_append_only o live_sub cursor_subs fuel acts later st st' :
  run fuel acts (construct o live_sub cursor_subs) = Some st →
  run fuel later st = Some st' →
  notes st `prefix_of` notes st'.
Proof.
  intros Hrun Hlater. eapply run_prefix; [|exact Hlater].
  eapply run_invariant; [|exact Hrun]. apply construct_invariant.
Qed.

Lemma addToFeed_nil fuel st :
  feedInvariant st → addToFeed fuel [] st = Some st.
Proof.
  intros (Hids & _). unfold addToFeed, buildFeedChunk. simpl.
  rewrite app_nil_r, uniqBy_fixed by exact Hids. by destruct st.
Qed.

(** X28.  [loadBuffer] empties the buffer, and on a loader whose buffer
    is empty it changes nothing, whatever the parents are: a second
    [loadBuffer] in a row does nothing. *)
Theorem loadBuffer_on_empty_buffer o live_sub cursor_subs fuel acts st :
  run fuel acts (construct o live_sub cursor_subs) = Some st →
  (buffer st = [] → ∀ fuel', loadBuffer fuel' st = Some st)
  ∧ ∀ st1, loadBuffer fuel st = Some st1 →
           buffer st1 = [] ∧ ∀ fuel', loadBuffer fuel' st1 = Some st1.
Proof.
  intros Hrun.
  assert (Hinv : feedInvariant st).
  { eapply run_invariant; [|exact Hrun]. apply construct_invariant. }
  assert (Hnil : ∀ st0, feedInvariant st0 → buffer st0 = [] →
                        ∀ fuel', loadBuffer fuel' st0 = Some st0).
  { intros st0 Hinv0 Hb fuel'. unfold loadBuffer.
    rewrite Hb, addToFeed_nil by done. destruct st0. simpl in Hb. by subst. }
  split; [by apply Hnil|]. intros st1 H1.
  assert (Hinv1 : feedInvariant st1).
  { by apply (exec_step fuel CallLoadBuffer st st1) in Hinv as [? _]. }
  assert (Hb : buffer st1 = []).
  { unfold loadBuffer in H1. destruct (addToFeed fuel (buffer st) st); [|done].
    by inversion H1; subst. }
  split; [done|]. by apply Hnil.
Qed.

Lemma run_keeps_no_parents fuel acts : ∀ st st',
  shouldLoadParents (opts st) = false → parents st = ∅ →
  (∀ s, repliesAt (store st) s = []) →
  run fuel acts st = Some st' →
  shouldLoadParents (opts st') = false ∧ parents st' = ∅
  ∧ ∀ s, repliesAt (store st') s = [].
Proof.
  induction acts as [|a acts IH]; intros st st' Ho Hp Hs Hrun; simpl in Hrun.
  - by inversion Hrun; subst.
  - destruct (exec fuel a st) as [st1|] eqn:Hexec; [|done].
    pose proof (exec_keeps_no_parents _ _ _ _ Ho Hp Hexec) as [Ho1 Hp1].
    apply (IH st1); try done. intros s.
    apply exec_store in Hexec as [->|(l & chunk & Hb)]; [done|].
    apply buildFeedChunk_addedUnderParent in Hb.
    destruct (repliesAt (store st1) s) as [|r rs] eqn:Hrs; [done|].
    destruct (Hb s r) as [Hold|(_ & p & Hres & _)].
    + rewrite Hrs. by left.
    + rewrite Hs in Hold. inversion Hold.
    + unfold resolvedParent in Hres. rewrite Hp in Hres.
      destruct (truthy _); [|done]. by rewrite lookup_empty in Hres.
Qed.

(** X29.  A loader built without [shouldLoadParents] never knows a
    parent and never nests a reply, and each of its calls ends at the
    first turn of the loop of [buildFeedChunk]. *)
Theorem no_parent_loading_no_nesting o live_sub cursor_subs fuel acts st :
  shouldLoadParents o = false →
  run fuel acts (construct o live_sub cursor_subs) = Some st →
  parents st = ∅
  ∧ (∀ s, repliesAt (store st) s = [])
  ∧ (∀ n now new_subs events,
       (length events ≤ n)%nat → is_Some (load 1 n now new_subs events st))
  ∧ is_Some (loadBuffer 1 st)
  ∧ (∀ i, is_Some (timers st !! i) → is_Some (onTimer 1 i st)).
Proof.
  intros Ho Hrun.
  destruct (run_keeps_no_parents fuel acts (construct o live_sub cursor_subs) st
              Ho eq_refl (construct_repliesAt o live_sub cursor_subs) Hrun)
    as (_ & Hp & Hs).
  split; [done|]. split; [done|]. by apply calls_return_without_parents.
Qed.

Lemma addToFeed_listening fuel l st st' :
  addToFeed fuel l st = Some st' → listening st' = listening st.
Proof.
  unfold addToFeed. destruct (buildFeedChunk fuel st l) as [[h chunk]|]; [|done].
  by intros Hst; inversion Hst; subst.
Qed.

Lemma run_switched_off fuel acts : ∀ st st',
  run fuel acts st = Some st' →
  opts st' = opts st ∧ listening st' = listening st
  ∧ (shouldDefer (opts st) = false → timers st = [] → timers st' = [])
  ∧ (listening st = false → buffer st = [] → buffer st' = []).
Proof.
  induction acts as [|a acts IH]; intros st st' Hrun; simpl in Hrun.
  { by inversion Hrun; subst. }
  destruct (exec fuel a st) as [st1|] eqn:Hexec; [|done].
  apply IH in Hrun as (Ho & Hl & Ht & Hb). clear IH.
  assert (H1 : opts st1 = opts st ∧ listening st1 = listening st
    ∧ (shouldDefer (opts st) = false → timers st = [] → timers st1 = [])
    ∧ (listening st = false → buffer st = [] → buffer st1 = [])).
  { clear Ho Hl Ht Hb.
    destruct a as [n now new_subs events| | |events|events|s|i]; simpl in Hexec.
    - unfold load in Hexec. destruct (n <? length events)%nat; [done|].
      cbn [receive] in Hexec. destruct (shouldDefer (opts st)) eqn:Hd.
      + destruct (deferOrphans _ _) as [ok1 st4] eqn:H4.
        destruct (deferAncient now ok1 st4) as [ok2 st5] eqn:H5.
        pose proof (addToFeed_listening _ _ _ _ Hexec) as Hl.
        apply addToFeed_frame in Hexec as (Ho & _ & _ & Hb & _).
        rewrite Ho, Hl, Hb. clear Ho Hl Hb.
        unfold deferAncient in H5. destruct (List.partition _ ok1).
        inversion H5; subst; clear H5. simpl.
        unfold deferOrphans in H4. simpl in H4.
        destruct (negb (shouldLoadParents (opts st))).
        * by inversion H4; subst.
        * destruct (List.partition _ _). by inversion H4; subst.
      + pose proof (addToFeed_listening _ _ _ _ Hexec) as Hl.
        by apply addToFeed_frame in Hexec as (-> & _ & _ & -> & _ & _ & ->).
    - unfold loadBuffer in Hexec.
      destruct (addToFeed fuel (buffer st) st) as [st0|] eqn:Ha; [|done].
      inversion Hexec; subst. simpl.
      pose proof (addToFeed_listening _ _ _ _ Ha) as Hl.
      by apply addToFeed_frame in Ha as (-> & _ & _ & _ & _ & _ & ->).
    - by inversion Hexec; subst.
    - unfold onLiveBatch in Hexec. destruct (listening st) eqn:Hl; [|done].
      by inversion Hexec; subst.
    - unfold onParentBatch in Hexec. destruct (shouldLoadParents (opts st)); [|done].
      by inversion Hexec; subst.
    - by inversion Hexec; subst.
    - unfold onTimer in Hexec. destruct (timers st !! i) as [[d defer]|] eqn:Hi; [|done].
      pose proof (addToFeed_listening _ _ _ _ Hexec) as Hl.
      apply addToFeed_frame in Hexec as (-> & _ & _ & -> & _ & _ & ->).
      simpl in *. split; [done|]. split; [done|]. split; [|done].
      intros _ Ht. rewrite Ht in Hi. by rewrite lookup_nil in Hi. }
  destruct H1 as (Ho1 & Hl1 & Ht1 & Hb1).
  rewrite Ho, Ho1, Hl, Hl1 in *. repeat split; try done.
  - intros Hd Hnil. apply Ht; [done|]. by apply Ht1.
  - intros Hli Hnil. apply Hb; [done|]. by apply Hb1.
Qed.

(** X30.  What an option switches off stays off: a loader built without
    [shouldDefer] never has a pending timer, and a loader that opened no
    live subscription (no [shouldListen], or a filter with an [until])
    never has an event in its buffer. *)
Theorem switched_off_options_stay_off o live_sub cursor_subs fuel acts st :
  run fuel acts (construct o live_sub cursor_subs) = Some st →
  (shouldDefer o = false → timers st = [])
  ∧ (shouldListen o = false
     ∨ (∃ f t, f ∈ filters o ∧ until f = Some t ∧ t ≠ 0) →
     buffer st = []).
Proof.
  intros Hrun. apply run_switched_off in Hrun as (_ & _ & Ht & Hb).
  split; [by intros Hd; apply Ht|]. intros Hoff. apply Hb; [|done].
  simpl. destruct Hoff as [->|(f & t & Hf & Hu & Ht0)]; [done|].
  apply andb_false_intro2. apply negb_false_iff. apply existsb_exists.
  exists f. split; [by apply list_elem_of_In|]. rewrite Hu.
  apply negb_true_iff. by apply Z.eqb_neq.
Qed.
End RunFacts.

(* ================================================================== *)
(** * The further properties on the example data                       *)
(* ================================================================== *)

Open Scope string_scope.
Open Scope list_scope.

Lemma enough_healthy_excludes_low_quality_witness :
  let hints := ["wss://slow.example/"; "wss://a.example/"; "wss://b.example/"] in
  relayIsLowQuality (renv:=gradedRelayEnv) "wss://slow.example/" = true
  ∧ eligible (renv:=gradedRelayEnv) hints = hints
  ∧ selectHints (renv:=gradedRelayEnv) hints (Some 2%nat)
    = ["wss://a.example/"; "wss://b.example/"]
  ∧ Forall (λ u, relayIsLowQuality (renv:=gradedRelayEnv) u = false)
      (selectHints (renv:=gradedRelayEnv) hints (Some 2%nat)).
Proof.
  split; [vm_compute; reflexivity|]. split; [vm_compute; reflexivity|].
  apply (enough_healthy_excludes_low_quality (renv:=gradedRelayEnv)
           ["wss://slow.example/"; "wss://a.example/"; "wss://b.example/"]
           (Some 2%nat)).
  vm_compute. lia.
Defined.

Lemma selectHints_complete_witness :
  "wss://b.example/"
  ∈ selectHints (renv:=exampleRelayEnv [])
      ["wss://a.example/"; "wss://b.example/"] None.
Proof.
  apply (selectHints_complete (renv:=exampleRelayEnv [])).
  - vm_compute. lia.
  - right. left.
  - vm_compute. reflexivity.
Defined.

Lemma mergeHints_keeps_all_within_limit_witness :
  scoredHints [["wss://a.example/"; "toString"; "wss://b.example/"];
               ["wss://b.example/"]]
  = ["wss://a.example/"; "wss://b.example/"]
  ∧ "wss://a.example/"
    ∈ mergeHints (renv:=exampleRelayEnv [])
        [["wss://a.example/"; "toString"; "wss://b.example/"];
         ["wss://b.example/"]] None.
Proof.
  split; [vm_compute; reflexivity|].
  apply (mergeHints_keeps_all_within_limit (renv:=exampleRelayEnv [])).
  - vm_compute. lia.
  - left.
  - reflexivity.
Defined.

Lemma mergeHints_reverses_single_list_witness :
  mergeHints (renv:=exampleRelayEnv [])
    [["wss://a.example/"; "__proto__"; "wss://b.example/"; "wss://c.example/"]]
    None
  = ["wss://c.example/"; "wss://b.example/"; "wss://a.example/"].
Proof.
  apply (mergeHints_reverses_single_list (renv:=exampleRelayEnv [])
           ["wss://a.example/"; "__proto__"; "wss://b.example/"; "wss://c.example/"]
           None).
  compute_done.
Defined.

Lemma getEventHint_is_first_event_hint_witness :
  getEventHint (renv:=exampleRelayEnv []) (penv:=examplePeople) seenNote
  = default ""
      (head (getEventHints (renv:=exampleRelayEnv []) (penv:=examplePeople)
               seenNote)).
Proof.
  apply (getEventHint_is_first_event_hint (renv:=exampleRelayEnv [])
           (penv:=examplePeople)).
  simpl. lia.
Defined.

Lemma concatenated_relays_are_not_shareable_witness :
  isShareableRelay "wss://a.example/wss://b.example/" = false.
Proof.
  apply (concatenated_relays_are_not_shareable "wss://a.example/" "wss://b.example/");
    vm_compute; reflexivity.
Defined.

Lemma shareable_relay_shape_witness :
  ∃ host,
    chars "wss://relay.damus.io/" = chars "wss://" ++ host
    ∧ host ≠ []
    ∧ "."%char ∈ host
    ∧ Forall (λ c, isSpace c = false ∧ c ≠ "%"%char) (chars "wss://relay.damus.io/")
    ∧ (∀ pre d post, host = pre ++ ":"%char :: d :: post → isDigit d = false)
    ∧ (∀ pre post, host ≠ pre ++ chars "/npub" ++ post).
Proof.
  apply (shareable_relay_shape "wss://relay.damus.io/").
  vm_compute. reflexivity.
Defined.

Lemma climb_ends_unresolved_witness :
  let e := mkDisplay (reply "a" 100 "p") 7 in
  topOf (env:=exampleEnv) 3 (parents parentLoaded) e = Some parentP
  ∧ resolvedParent (env:=exampleEnv) (parents parentLoaded) parentP = None
  ∧ (parentP = e ∨ ∃ k, parents parentLoaded !! k = Some parentP).
Proof.
  assert (Hc : climb (env:=exampleEnv) 3 (parents parentLoaded)
                 (store parentLoaded) (mkDisplay (reply "a" 100 "p") 7)
               = Some (<[0%nat := [mkDisplay (reply "a" 100 "p") 7]]> ∅, parentP))
    by (vm_compute; reflexivity).
  destruct (climb_ends_unresolved (env:=exampleEnv) 3 _ _ _ _ _ Hc)
    as (Ht & Hnone & Hfrom & _).
  split; [exact Ht|]. split; [exact Hnone | exact Hfrom].
Defined.

Lemma buildFeedChunk_attaches_replies_witness :
  let h := (chunkOn parentLoaded replyAndReaction).1 in
  (∀ e p, e ∈ replyAndReaction →
          resolvedParent (env:=exampleEnv) (parents parentLoaded) e = Some p →
          isNote (env:=exampleEnv) e = true →
          eid e ∈ eid <$> repliesAt h (slot p))
  ∧ ∀ s k, k ∈ eid <$> repliesAt (store parentLoaded) s →
           k ∈ eid <$> repliesAt h s.
Proof.
  assert (Hb : buildFeedChunk (env:=exampleEnv) 3 parentLoaded replyAndReaction
               = Some ((chunkOn parentLoaded replyAndReaction).1,
                       (chunkOn parentLoaded replyAndReaction).2))
    by (vm_compute; reflexivity).
  exact (buildFeedChunk_attaches_replies (env:=exampleEnv) 3 parentLoaded
           replyAndReaction _ _ Hb).
Defined.


Lemma self_parent_never_returns_witness :
  resolvedParent (env:=exampleEnv) (parents selfParentLoaded) selfParent
  = Some selfParent
  ∧ ∀ fuel, addToFeed (env:=exampleEnv) fuel [replyToSelfParent] selfParentLoaded
            = None.
Proof.
  assert (Hp : resolvedParent (env:=exampleEnv) (parents selfParentLoaded)
                 selfParent = Some selfParent)
    by (vm_compute; reflexivity).
  split; [exact Hp|]. intros fuel.
  apply (self_parent_never_returns (env:=exampleEnv) fuel [replyToSelfParent]
           selfParentLoaded replyToSelfParent selfParent).
  - left.
  - vm_compute. reflexivity.
  - exact Hp.
Defined.


Lemma replies_only_under_resolved_parent_witness :
  buildFeedChunk (env:=exampleEnv) 3 parentLoaded replyAndReaction
  = Some (chunkOn parentLoaded replyAndReaction)
  ∧ ∀ s r, r ∈ repliesAt (chunkOn parentLoaded replyAndReaction).1 s →
           r ∈ repliesAt (store parentLoaded) s
           ∨ (isNote (env:=exampleEnv) r = true
              ∧ ∃ p, resolvedParent (env:=exampleEnv) (parents parentLoaded) r
                     = Some p
                     ∧ slot p = s).
Proof.
  assert (Hb : buildFeedChunk (env:=exampleEnv) 3 parentLoaded replyAndReaction
               = Some ((chunkOn parentLoaded replyAndReaction).1,
                       (chunkOn parentLoaded replyAndReaction).2))
    by (vm_compute; reflexivity).
  split.
  - rewrite Hb. by destruct (chunkOn parentLoaded replyAndReaction).
  - exact (replies_only_under_resolved_parent (env:=exampleEnv) 3 parentLoaded
             replyAndReaction _ _ Hb).
Defined.

Lemma muted_events_are_never_held_witness :
  screened (λ e, isEventMuted (FeedEnv:=mutingEnv) (event e) = false) afterMuting.
Proof.
  apply (muted_events_are_never_held (env:=mutingEnv)
           (exampleOpts true true) 0%nat [1%nat] 3 threadedPage).
  vm_compute. reflexivity.
Defined.

Lemma hidden_replies_are_never_held_witness :
  screened (λ e, truthy (findReplyId (FeedEnv:=exampleEnv) (event e)) = false)
    afterHiding
  ∧ ∀ s, repliesAt (store afterHiding) s = [].
Proof.
  apply (hidden_replies_are_never_held (env:=exampleEnv)
           hidingOpts 0%nat [1%nat] 3 threadedPage).
  - reflexivity.
  - vm_compute. reflexivity.
Defined.

Lemma resolved_parent_has_the_reply_id_witness :
  let st := after threadedPage deferringLoader in
  (∀ k p, parents st !! k = Some p → eid p = k)
  ∧ ∀ e p, resolvedParent (env:=exampleEnv) (parents st) e = Some p →
           findReplyId (FeedEnv:=exampleEnv) (event e) = Some (eid p).
Proof.
  apply (resolved_parent_has_the_reply_id (env:=exampleEnv)
           (exampleOpts true true) 0%nat [1%nat] 3 threadedPage).
  vm_compute. reflexivity.
Defined.

Lemma parent_batch_resolves_witness :
  notes sentTwiceLoaded = notes parentLoaded
  ∧ parents sentTwiceLoaded !! "p" = Some (mkDisplay (note "p" 60) 2)
  ∧ parents sentTwiceLoaded !! "q" = Some (mkDisplay (note "q" 55) 3)
  ∧ parents sentTwiceLoaded !! "r" = None.
Proof.
  assert (Hb : onParentBatch (env:=exampleEnv) sentTwice parentLoaded
               = Some sentTwiceLoaded)
    by (vm_compute; reflexivity).
  destruct (parent_batch_resolves (env:=exampleEnv) _ _ _ Hb)
    as (Hn & _ & _ & Hk).
  split; [exact Hn|]. rewrite !Hk. vm_compute. repeat split.
Defined.

Lemma feed_is_append_only_witness :
  notes (after firstBuffer plainLoader)
  `prefix_of` notes (after secondBuffer (after firstBuffer plainLoader)).
Proof.
  apply (feed_is_append_only (env:=exampleEnv)
           (exampleOpts false false) 0%nat [1%nat] 3 firstBuffer secondBuffer);
    vm_compute; reflexivity.
Defined.

Lemma loadBuffer_on_empty_buffer_witness :
  let st := after twoBuffers plainLoader in
  (buffer st = [] → ∀ fuel', loadBuffer (env:=exampleEnv) fuel' st = Some st)
  ∧ ∀ st1, loadBuffer (env:=exampleEnv) 3 st = Some st1 →
           buffer st1 = []
           ∧ ∀ fuel', loadBuffer (env:=exampleEnv) fuel' st1 = Some st1.
Proof.
  apply (loadBuffer_on_empty_buffer (env:=exampleEnv)
           (exampleOpts false false) 0%nat [1%nat] 3 twoBuffers).
  vm_compute. reflexivity.
Defined.

Lemma no_parent_loading_no_nesting_witness :
  let st := after twoBuffers plainLoader in
  parents st = ∅
  ∧ (∀ s, repliesAt (store st) s = [])
  ∧ (∀ n now new_subs events,
       (length events ≤ n)%nat →
       is_Some (load (env:=exampleEnv) 1 n now new_subs events st))
  ∧ is_Some (loadBuffer (env:=exampleEnv) 1 st)
  ∧ (∀ i, is_Some (timers st !! i) → is_Some (onTimer (env:=exampleEnv) 1 i st)).
Proof.
  apply (no_parent_loading_no_nesting (env:=exampleEnv)
           (exampleOpts false false) 0%nat [1%nat] 3 twoBuffers).
  - reflexivity.
  - vm_compute. reflexivity.
Defined.

Lemma switched_off_options_stay_off_witness :
  let st := after onePage (construct untilOpts 0%nat [1%nat]) in
  feedIds st = ["b"; "c"] ∧ timers st = [] ∧ buffer st = [].
Proof.
  assert (Hrun : run (env:=exampleEnv) 3 onePage (construct untilOpts 0%nat [1%nat])
                 = Some (after onePage (construct untilOpts 0%nat [1%nat])))
    by (vm_compute; reflexivity).
  destruct (switched_off_options_stay_off (env:=exampleEnv)
              untilOpts 0%nat [1%nat] 3 onePage _ Hrun) as [Ht Hb].
  split; [vm_compute; reflexivity|]. split.
  - apply Ht. reflexivity.
  - apply Hb. right. exists (mkFilter None (Some 500)), 500.
    split; [left|]. split; [reflexivity | discriminate].
Defined.

Close Scope string_scope.
